(** * RateLimitedAnalyzer: a bounded, priority-ordered, rate-limited queue

    A shallow embedding of [src/analyzers/RateLimitedAnalyzer.ts]: the
    class [RateLimitedAnalyzer] with its queue, its drain loop and its
    status, and the work it does on a unit, [analyzeItem] with
    [performAnalysis], [determineAnalysisType], [calculateConfidence],
    [categorizeData] and [calculateComplexity].

    The class is single-threaded JavaScript: every method body runs to its
    next [await] without interruption.  The embedding therefore has one
    transition per synchronous segment:
    - a call of [enqueue] (with the synchronous prefix of [processQueue]),
    - a call of [clear],
    - the firing of a [setTimeout(..., 0)] that rejects a refused submission,
    - the resumption of a drain loop after [await this.sleep(waitTime)],
    - the resumption of a drain loop after [await this.analyzeItem(item)].

    Numbers are integers ([Z]), and a priority may also be [NaN];
    [Date.now()] is an input of the transition that reads it. *)

From Stdlib Require Import ZArith Lia String QArith Qminmax.
From stdpp Require Import base list strings sorting.

(** ** Data model *)

Record AnalyzerConfig := {
  requestsPerSecond : Z;
  maxQueueSize : Z;
  priorityLevels : Z
}.

(** A number where the class reads a priority: an integer or [NaN] (a
    priority is the only number a caller passes in).  Every comparison
    with [NaN] is false, and [Math.min] and [Math.max] return [NaN] as soon
    as an argument is [NaN]. *)
Inductive Num :=
  | Finite (z : Z)
  | NaN.

(** [Math.min(x, y)] and [Math.max(x, y)]. *)
Definition jsMin (x y : Num) : Num :=
  match x, y with
  | Finite a, Finite b => Finite (Z.min a b)
  | _, _ => NaN
  end.

Definition jsMax (x y : Num) : Num :=
  match x, y with
  | Finite a, Finite b => Finite (Z.max a b)
  | _, _ => NaN
  end.

(** [x > y]. *)
Definition greater (x y : Num) : bool :=
  match x, y with
  | Finite a, Finite b => (b <? a)%Z
  | _, _ => false
  end.

Section Queue.

(** The payload and the two outcomes of [analyzeItem] are opaque to the
    queue. *)
Context {Data Result Failure : Type}.

(** [QueueItem] of [types/index.ts].  The fields [callback] and
    [errorCallback] are the [resolve] and [reject] of the promise created by
    one call of [enqueue]; [handle] names that promise by the number of
    [enqueue] calls made before it. *)
Record QueueItem := {
  id : string;
  priority : Num;
  timestamp : Z;
  data : Data;
  handle : nat
}.

(** The three errors an [errorCallback] can receive. *)
Inductive Reason :=
  | QueueFull                 (* Error('Queue is full. Cannot add more items.') *)
  | QueueCleared              (* Error('Queue cleared') *)
  | WorkFailed (e : Failure). (* whatever analyzeItem threw *)

(** What an observer of the analyzer sees, in chronological order. *)
Inductive Observation :=
  | WindowReset (now : Z)                   (* requestCount = 0; lastResetTime = now *)
  | Started (u : nat)                       (* this.analyzeItem(item) is called *)
  | Callback (u : nat) (r : Result)         (* item.callback(result) *)
  | ErrorCallback (u : nat) (e : Reason).   (* item.errorCallback(error) / reject(error) *)

(** An activation of the async function [processQueue]: suspended in
    [await this.sleep(waitTime)], suspended in [await this.analyzeItem(item)],
    or returned. *)
Inductive Drain :=
  | Sleeping (due : Z)
  | Executing (item : QueueItem)
  | Returned.

(** The private fields of the class, the pending activations and timers of
    the event loop, and the observations made so far. *)
Record RateLimitedAnalyzer := {
  queue : list QueueItem;
  processing : bool;
  requestCount : Z;
  lastResetTime : Z;
  pendingCount : Z;
  drains : list Drain;       (* activations of processQueue, oldest first *)
  timers : list nat;         (* pending setTimeout(() => reject(...), 0) *)
  submitted : nat;           (* number of enqueue calls so far *)
  trace : list Observation
}.

(** [new RateLimitedAnalyzer(config)] at time [t0]. *)
Definition create (t0 : Z) : RateLimitedAnalyzer :=
  {| queue := []; processing := false; requestCount := 0; lastResetTime := t0;
     pendingCount := 0; drains := []; timers := []; submitted := 0; trace := [] |}.

(** ** Operations *)

(** [insertByPriority]: scan from the front, splice before the first entry
    of strictly lower priority, push at the end otherwise. *)
Fixpoint insertByPriority (item : QueueItem) (q : list QueueItem) : list QueueItem :=
  match q with
  | [] => [item]
  | x :: q' =>
      if greater (priority item) (priority x) then item :: x :: q'
      else x :: insertByPriority item q'
  end.

Definition observe (o : Observation) (a : RateLimitedAnalyzer) : RateLimitedAnalyzer :=
  {| queue := queue a; processing := processing a; requestCount := requestCount a;
     lastResetTime := lastResetTime a; pendingCount := pendingCount a;
     drains := drains a; timers := timers a; submitted := submitted a;
     trace := trace a ++ [o] |}.

Definition set_drains (ds : list Drain) (a : RateLimitedAnalyzer) : RateLimitedAnalyzer :=
  {| queue := queue a; processing := processing a; requestCount := requestCount a;
     lastResetTime := lastResetTime a; pendingCount := pendingCount a;
     drains := ds; timers := timers a; submitted := submitted a;
     trace := trace a |}.

Definition set_processing (b : bool) (a : RateLimitedAnalyzer) : RateLimitedAnalyzer :=
  {| queue := queue a; processing := b; requestCount := requestCount a;
     lastResetTime := lastResetTime a; pendingCount := pendingCount a;
     drains := drains a; timers := timers a; submitted := submitted a;
     trace := trace a |}.

Definition set_pendingCount (n : Z) (a : RateLimitedAnalyzer) : RateLimitedAnalyzer :=
  {| queue := queue a; processing := processing a; requestCount := requestCount a;
     lastResetTime := lastResetTime a; pendingCount := n;
     drains := drains a; timers := timers a; submitted := submitted a;
     trace := trace a |}.

(** Lines 72-75: [requestCount = 0; lastResetTime = now]. *)
Definition resetWindow (now : Z) (a : RateLimitedAnalyzer) : RateLimitedAnalyzer :=
  observe (WindowReset now)
  {| queue := queue a; processing := processing a; requestCount := 0;
     lastResetTime := now; pendingCount := pendingCount a;
     drains := drains a; timers := timers a; submitted := submitted a;
     trace := trace a |}.

(** Lines 86-90: [item = queue.shift(); requestCount++; analyzeItem(item)]. *)
Definition shiftAndStart (item : QueueItem) (rest : list QueueItem)
    (a : RateLimitedAnalyzer) : RateLimitedAnalyzer :=
  observe (Started (handle item))
  {| queue := rest; processing := processing a; requestCount := (requestCount a + 1)%Z;
     lastResetTime := lastResetTime a; pendingCount := pendingCount a;
     drains := drains a; timers := timers a; submitted := submitted a;
     trace := trace a |}.

(** One pass of the [while] loop of [processQueue], from the test of its
    condition to the next [await] or to the [finally] that ends the
    function.  [now] is what [Date.now()] returns on line 71.  The result
    is the analyzer and where this activation is left. *)
Definition drainLoop (cfg : AnalyzerConfig) (now : Z) (a : RateLimitedAnalyzer)
    : RateLimitedAnalyzer * Drain :=
  match queue a with
  | [] => (set_processing false a, Returned)
  | item :: rest =>
      let a1 := if (1000 <=? now - lastResetTime a)%Z then resetWindow now a else a in
      if (requestsPerSecond cfg <=? requestCount a1)%Z then
        let waitTime := (1000 - (now - lastResetTime a1))%Z in
        if (0 <? waitTime)%Z then (a1, Sleeping (now + waitTime)%Z)
        else (shiftAndStart item rest a1, Executing item)
      else (shiftAndStart item rest a1, Executing item)
  end.

(** [processQueue()] as called from [enqueue]: the guard of line 62, then a
    fresh activation running its first pass. *)
Definition processQueue (cfg : AnalyzerConfig) (now : Z) (a : RateLimitedAnalyzer)
    : RateLimitedAnalyzer :=
  if processing a || (length (queue a) =? 0)%nat then a
  else
    let '(a', d) := drainLoop cfg now (set_processing true a) in
    set_drains (drains a' ++ [d]) a'.

(** [Math.max(0, Math.min(priority, this.config.priorityLevels - 1))]. *)
Definition clampPriority (cfg : AnalyzerConfig) (p : Num) : Num :=
  jsMax (Finite 0) (jsMin p (Finite (priorityLevels cfg - 1))).

(** [id || this.generateId()]: the empty string is falsy. *)
Definition chooseId (given : option string) (generated : string) : string :=
  match given with
  | Some s => if bool_decide (s = EmptyString) then generated else s
  | None => generated
  end.

(** [enqueue(data, priority = 0, id?)].  [generated] is what [generateId()]
    would return, [ts] the [Date.now()] of line 46, [now] the one of
    line 71. *)
Definition enqueue (cfg : AnalyzerConfig) (d : Data) (prio : option Num)
    (given : option string) (generated : string) (ts now : Z)
    (a : RateLimitedAnalyzer) : RateLimitedAnalyzer :=
  let u := submitted a in
  if (maxQueueSize cfg <=? pendingCount a)%Z then
    {| queue := queue a; processing := processing a; requestCount := requestCount a;
       lastResetTime := lastResetTime a; pendingCount := pendingCount a;
       drains := drains a; timers := timers a ++ [u]; submitted := S u;
       trace := trace a |}
  else
    let item := {| id := chooseId given generated;
                   priority := clampPriority cfg (default (Finite 0) prio);
                   timestamp := ts; data := d; handle := u |} in
    processQueue cfg now
      {| queue := insertByPriority item (queue a); processing := processing a;
         requestCount := requestCount a; lastResetTime := lastResetTime a;
         pendingCount := (pendingCount a + 1)%Z;
         drains := drains a; timers := timers a; submitted := S u;
         trace := trace a |}.

(** [clear()]. *)
Definition clear (a : RateLimitedAnalyzer) : RateLimitedAnalyzer :=
  {| queue := []; processing := false; requestCount := requestCount a;
     lastResetTime := lastResetTime a; pendingCount := 0;
     drains := drains a; timers := timers a; submitted := submitted a;
     trace := trace a ++ map (λ item, ErrorCallback (handle item) QueueCleared) (queue a) |}.

(** The oldest pending [setTimeout(() => reject(new Error('Queue is full...')), 0)]
    fires. *)
Definition rejectTimer (a : RateLimitedAnalyzer) : option RateLimitedAnalyzer :=
  match timers a with
  | [] => None
  | u :: ts =>
      Some (observe (ErrorCallback u QueueFull)
        {| queue := queue a; processing := processing a; requestCount := requestCount a;
           lastResetTime := lastResetTime a; pendingCount := pendingCount a;
           drains := drains a; timers := ts; submitted := submitted a;
           trace := trace a |})
  end.

(** Activation [l] continues behind its [await]. *)
Definition resume (cfg : AnalyzerConfig) (l : nat) (now : Z) (a : RateLimitedAnalyzer)
    : RateLimitedAnalyzer :=
  let '(a', d) := drainLoop cfg now a in
  set_drains (<[l := d]> (drains a')) a'.

(** [await this.sleep(waitTime)] of activation [l] returns and the loop
    [continue]s.  The timer was due at [due]; the clock may read anything
    when the loop looks at it again. *)
Definition sleepTimer (cfg : AnalyzerConfig) (l : nat) (now : Z)
    (a : RateLimitedAnalyzer) : option RateLimitedAnalyzer :=
  match drains a !! l with
  | Some (Sleeping due) => Some (resume cfg l now a)
  | _ => None
  end.

(** Lines 90-96: [await this.analyzeItem(item)] of activation [l] settles
    with [o]; the matching callback runs, [pendingCount--], and the loop
    goes on. *)
Definition deliver (u : nat) (o : Result + Failure) : Observation :=
  match o with
  | inl r => Callback u r
  | inr e => ErrorCallback u (WorkFailed e)
  end.

Definition analyzed (cfg : AnalyzerConfig) (l : nat) (o : Result + Failure) (now : Z)
    (a : RateLimitedAnalyzer) : option RateLimitedAnalyzer :=
  match drains a !! l with
  | Some (Executing item) =>
      let a1 := observe (deliver (handle item) o) a in
      let a2 := set_pendingCount (pendingCount a1 - 1)%Z a1 in
      Some (resume cfg l now a2)
  | _ => None
  end.

(** ** Runs *)

Inductive Event :=
  | Enqueue (d : Data) (prio : option Num) (given : option string) (generated : string)
            (ts now : Z)
  | Clear
  | RejectTimer
  | SleepTimer (l : nat) (now : Z)
  | Analyzed (l : nat) (o : Result + Failure) (now : Z).

Definition step (cfg : AnalyzerConfig) (e : Event) (a : RateLimitedAnalyzer)
    : option RateLimitedAnalyzer :=
  match e with
  | Enqueue d prio given generated ts now => Some (enqueue cfg d prio given generated ts now a)
  | Clear => Some (clear a)
  | RejectTimer => rejectTimer a
  | SleepTimer l now => sleepTimer cfg l now a
  | Analyzed l o now => analyzed cfg l o now a
  end.

Fixpoint run (cfg : AnalyzerConfig) (es : list Event) (a : RateLimitedAnalyzer)
    : option RateLimitedAnalyzer :=
  match es with
  | [] => Some a
  | e :: es' =>
      match step cfg e a with
      | Some a' => run cfg es' a'
      | None => None
      end
  end.

(** The states the class can be in. *)
Definition reachable (cfg : AnalyzerConfig) (a : RateLimitedAnalyzer) : Prop :=
  ∃ t0 es, run cfg es (create t0) = Some a.

(** ** Derived observations *)

(** Units whose execution began, in the order in which it began. *)
Definition startedUnit (o : Observation) : option nat :=
  match o with Started u => Some u | _ => None end.

Definition started (tr : list Observation) : list nat := omap startedUnit tr.

(** Units one of whose callbacks ran, once per invocation. *)
Definition settledUnit (o : Observation) : option nat :=
  match o with
  | Callback u _ => Some u
  | ErrorCallback u _ => Some u
  | _ => None
  end.

Definition settled (tr : list Observation) : list nat := omap settledUnit tr.

(** Units that received the outcome of [analyzeItem]. *)
Definition workedUnit (o : Observation) : option nat :=
  match o with
  | Callback u _ => Some u
  | ErrorCallback u (WorkFailed _) => Some u
  | _ => None
  end.

Definition worked (tr : list Observation) : list nat := omap workedUnit tr.

(** Units that were told the queue was full, and units whose
    [errorCallback] ran without [analyzeItem] having been called. *)
Definition refusedUnit (o : Observation) : option nat :=
  match o with ErrorCallback u QueueFull => Some u | _ => None end.

Definition refused (tr : list Observation) : list nat := omap refusedUnit tr.



(** Units being executed by some activation. *)
Definition executingUnit (d : Drain) : option nat :=
  match d with Executing item => Some (handle item) | _ => None end.

Definition executing (ds : list Drain) : list nat := omap executingUnit ds.

(** Activations that have not returned. *)
Fixpoint active (ds : list Drain) : nat :=
  match ds with
  | [] => 0
  | Returned :: ds' => active ds'
  | _ :: ds' => S (active ds')
  end.

(** The order in which units are served: those that began execution, then
    the queued ones from the head of the buffer. *)
Definition serviceOrder (a : RateLimitedAnalyzer) : list nat :=
  started (trace a) ++ map handle (queue a).

(** [x] is to be served before [y]: strictly higher priority, or the same
    priority and submitted earlier.  A unit whose priority is [NaN] is put
    at the end of the buffer, so it is behind the units it found there and,
    no priority being greater than [NaN], ahead of those that follow it
    only if they came later; it is not ordered with the numbers put ahead
    of it. *)
Definition servedBefore (x y : QueueItem) : Prop :=
  match priority x, priority y with
  | Finite px, Finite py => (py < px)%Z ∨ (px = py ∧ handle x < handle y)
  | NaN, _ => handle x < handle y
  | Finite _, NaN => True
  end.

(** The priority is a number. *)
Definition numeric (x : QueueItem) : Prop := priority x ≠ NaN.

(** Rate windows.  A window ends at each [WindowReset]; [windows tr] is the
    number of starts in each closed window, oldest first, and the number of
    starts in the current one. *)
Definition countWindow (w : list nat * nat) (o : Observation) : list nat * nat :=
  match o with
  | WindowReset _ => (w.1 ++ [w.2], 0)
  | Started _ => (w.1, S w.2)
  | _ => w
  end.

Definition windows (tr : list Observation) : list nat * nat :=
  foldl countWindow ([], 0) tr.

(** Nothing is left to happen unless [enqueue] is called again. *)
Definition quiescent (a : RateLimitedAnalyzer) : Prop :=
  timers a = [] ∧ active (drains a) = 0.

(** Events of the event loop itself, as opposed to calls by the user. *)
Definition internal (e : Event) : bool :=
  match e with
  | Enqueue _ _ _ _ _ _ | Clear => false
  | _ => true
  end.

Definition eventTime (clock : Z) (e : Event) : Z :=
  match e with
  | Enqueue _ _ _ _ _ now | SleepTimer _ now | Analyzed _ _ now => now
  | _ => clock
  end.

(** Event times never go back from [clock] on. *)
Fixpoint monotone (clock : Z) (es : list Event) : Prop :=
  match es with
  | [] => True
  | e :: es' => (clock ≤ eventTime clock e)%Z ∧ monotone (eventTime clock e) es'
  end.

(** No sleep ends before its timer is due. *)
Definition timely (a : RateLimitedAnalyzer) (e : Event) : Prop :=
  match e with
  | SleepTimer l now => ∃ due, drains a !! l = Some (Sleeping due) ∧ (due ≤ now)%Z
  | _ => True
  end.

Fixpoint timelyRun (cfg : AnalyzerConfig) (es : list Event) (a : RateLimitedAnalyzer)
    : Prop :=
  match es with
  | [] => True
  | e :: es' =>
      timely a e ∧
      match step cfg e a with
      | Some a' => timelyRun cfg es' a'
      | None => True
      end
  end.

Definition isActive (d : Drain) : bool :=
  match d with Returned => false | _ => true end.

(** One way for the event loop to work off what is pending: rejection
    timers first, then the oldest activation that has not returned.  A
    sleeping activation is woken when its timer is due and the window has
    rolled over; [work] is the outcome of [analyzeItem]. *)
Definition nextEvent (work : QueueItem → Result + Failure) (clock : Z)
    (a : RateLimitedAnalyzer) : option Event :=
  match timers a with
  | _ :: _ => Some RejectTimer
  | [] =>
      match list_find (λ d, isActive d = true) (drains a) with
      | Some (l, Sleeping due) =>
          Some (SleepTimer l (Z.max clock (Z.max due (lastResetTime a + 1000))))
      | Some (l, Executing item) => Some (Analyzed l (work item) clock)
      | _ => None
      end
  end.

Fixpoint settle (cfg : AnalyzerConfig) (work : QueueItem → Result + Failure)
    (fuel : nat) (clock : Z) (a : RateLimitedAnalyzer) : list Event :=
  match fuel with
  | 0 => []
  | S fuel' =>
      match nextEvent work clock a with
      | None => []
      | Some e =>
          match step cfg e a with
          | Some a' => e :: settle cfg work fuel' (eventTime clock e) a'
          | None => []
          end
      end
  end.

(** How much is left to do: a bound on the length of [settle]. *)
Definition drainWeight (d : Drain) : nat :=
  match d with Sleeping _ => 1 | Executing _ => 2 | Returned => 0 end.

Definition backlog (a : RateLimitedAnalyzer) : nat :=
  length (timers a) + 2 * length (queue a) + sum_list_with drainWeight (drains a).

(** The three ways one pass of the drain loop can end. *)
Inductive drainLoopOutcome (cfg : AnalyzerConfig) (now : Z) (a : RateLimitedAnalyzer)
    : RateLimitedAnalyzer → Drain → Prop :=
  | drain_returns :
      queue a = [] →
      drainLoopOutcome cfg now a (set_processing false a) Returned
  | drain_sleeps a1 item rest :
      queue a = item :: rest →
      (a1 = a ∧ (now - lastResetTime a < 1000)%Z ∨
       a1 = resetWindow now a ∧ (1000 ≤ now - lastResetTime a)%Z) →
      (requestsPerSecond cfg ≤ requestCount a1)%Z →
      drainLoopOutcome cfg now a a1 (Sleeping (lastResetTime a1 + 1000))
  | drain_starts a1 item rest :
      queue a = item :: rest →
      (a1 = a ∧ (now - lastResetTime a < 1000)%Z ∨
       a1 = resetWindow now a ∧ (1000 ≤ now - lastResetTime a)%Z) →
      (requestCount a1 < requestsPerSecond cfg)%Z →
      drainLoopOutcome cfg now a (shiftAndStart item rest a1) (Executing item).

(** Every submitted unit is in exactly one place: waiting for its
    rejection timer, queued, being executed, or settled; and the units
    that began execution are those being executed and those that received
    the outcome of [analyzeItem]. *)
Definition ledger (a : RateLimitedAnalyzer) : Prop :=
  timers a ++ map handle (queue a) ++ executing (drains a) ++ settled (trace a)
    ≡ₚ seq 0 (submitted a) ∧
  started (trace a) ≡ₚ executing (drains a) ++ worked (trace a).

(** The counter of the rate window never exceeds the limit, it is the
    number of starts in the current window, and no closed window saw more
    starts than the limit. *)
Definition rateBound (cfg : AnalyzerConfig) (a : RateLimitedAnalyzer) : Prop :=
  (requestCount a ≤ requestsPerSecond cfg)%Z ∧
  Z.of_nat (windows (trace a)).2 = requestCount a ∧
  Forall (λ n, (Z.of_nat n ≤ requestsPerSecond cfg)%Z) (windows (trace a)).1.

(** The flag [processing] and the activations: an empty buffer when the
    flag is down, a live activation when it is up. *)
Definition flagged (a : RateLimitedAnalyzer) : Prop :=
  (processing a = false → queue a = []) ∧
  (processing a = true → 0 < active (drains a)).

(** The buffer is in service order, and holds submitted units only. *)
Definition sortedQueue (a : RateLimitedAnalyzer) : Prop :=
  StronglySorted servedBefore (queue a) ∧
  Forall (λ x, handle x < submitted a) (queue a).

(** What holds as long as [clear] is not called: the flag tells whether an
    activation is alive, there is at most one, and [pendingCount] is the
    number of units queued or being executed. *)
Definition tidy (a : RateLimitedAnalyzer) : Prop :=
  active (drains a) = (if processing a then 1 else 0) ∧
  pendingCount a = Z.of_nat (length (queue a) + length (executing (drains a))).

End Queue.

Arguments QueueItem : clear implicits.
Arguments Reason : clear implicits.
Arguments Observation : clear implicits.
Arguments Drain : clear implicits.
Arguments RateLimitedAnalyzer : clear implicits.
Arguments Event : clear implicits.

(** ** Scenarios

    Payloads, results and failures are strings here; a unit is named by
    its payload. *)

Definition demoConfig : AnalyzerConfig :=
  {| requestsPerSecond := 10; maxQueueSize := 10; priorityLevels := 3 |}.

(** Room for one pending unit. *)
Definition tightConfig : AnalyzerConfig :=
  {| requestsPerSecond := 10; maxQueueSize := 1; priorityLevels := 3 |}.

(** One start per window. *)
Definition slowConfig : AnalyzerConfig :=
  {| requestsPerSecond := 1; maxQueueSize := 10; priorityLevels := 3 |}.

Definition submit (name : string) (p : Z) (now : Z) : Event string string string :=
  Enqueue name (Some (Finite p)) (Some name) "generated" now now.

Definition finish (l : nat) (now : Z) : Event string string string :=
  Analyzed l (inl "done"%string) now.

(** Low, high and medium submitted at time 0 to a fresh analyzer, each
    analysis taking 100 ms. *)
Definition lowHighMedium : list (Event string string string) :=
  [submit "low" 0 0; submit "high" 2 0; submit "medium" 1 0;
   finish 0 100; finish 0 200; finish 0 300].

(** One start per window, and the window already used by an earlier unit
    when low, high and medium arrive. *)
Definition windowExhausted : list (Event string string string) :=
  [submit "first" 0 0; finish 0 100;
   submit "low" 0 200; submit "high" 2 200; submit "medium" 1 200;
   SleepTimer 1 1000; finish 1 1100; SleepTimer 1 2000; finish 1 2100;
   SleepTimer 1 3000; finish 1 3100].

(** [clear()] while X is being executed, then Y is submitted. *)
Definition clearWhileExecuting : list (Event string string string) :=
  [submit "X" 0 0; Clear; submit "Y" 0 10].

(** Low, high and medium just submitted: low is being executed, the other
    two are queued. *)
Definition threeSubmitted : RateLimitedAnalyzer string string string :=
  enqueue demoConfig "medium" (Some (Finite 1)) (Some "medium"%string) "generated" 0 0
    (enqueue demoConfig "high" (Some (Finite 2)) (Some "high"%string) "generated" 0 0
       (enqueue demoConfig "low" (Some (Finite 0)) (Some "low"%string) "generated" 0 0
          (create 0))).

Definition lowItem : QueueItem string :=
  {| id := "low"; priority := Finite 0; timestamp := 0; data := "low"; handle := 0 |}.

(** What a run from a fresh analyzer shows at its end. *)
Definition startOrder (cfg : AnalyzerConfig) (es : list (Event string string string))
    : option (list nat) :=
  (λ a, started (trace a)) <$> run cfg es (create 0).

Definition activeDrains (cfg : AnalyzerConfig) (es : list (Event string string string))
    : option nat :=
  (λ a, active (drains a)) <$> run cfg es (create 0).

Definition pendingUnits (cfg : AnalyzerConfig) (es : list (Event string string string))
    : option (list nat * list nat * Z) :=
  (λ a, (map handle (queue a), executing (drains a), pendingCount a))
    <$> run cfg es (create 0).

(** No start allowed, and no room at all. *)
Definition stalledConfig : AnalyzerConfig :=
  {| requestsPerSecond := 0; maxQueueSize := 10; priorityLevels := 3 |}.

Definition closedConfig : AnalyzerConfig :=
  {| requestsPerSecond := 10; maxQueueSize := 0; priorityLevels := 3 |}.

(** The state a run from a fresh analyzer ends in. *)
Definition stateAfter (cfg : AnalyzerConfig) (es : list (Event string string string))
    : RateLimitedAnalyzer string string string :=
  default (create 0) (run cfg es (create 0)).

(** The first unit done and the window used up: the drain loop started
    for low sleeps until time 1000, with low, high and medium queued. *)
Definition asleep : RateLimitedAnalyzer string string string :=
  stateAfter slowConfig (take 5 windowExhausted).


(** ** [calculateComplexity]

    JavaScript values as the function sees them: primitives, [null], and
    references to data objects in a heap.  An object is the list of its own
    enumerable properties in enumeration order, and it either inherits
    from [Object.prototype] (object literals, arrays, results of
    [JSON.parse]) or has no prototype ([Object.create(null)]: [bare]).
    Neither way is there an inherited enumerable property, so
    [for (key in obj)] visits the own keys.  A heap may be cyclic and need
    not be finite. *)

Inductive JsValue :=
  | JsUndefined
  | JsNull
  | JsBoolean (b : bool)
  | JsNumber (n : Z)
  | JsString (s : string)
  | JsObject (ref : nat).

Record Heap := {
  props :> nat → list (string * JsValue);
  bare : nat → bool
}.

(** How an evaluation ends; [OutOfFuel] stands for one that has not ended
    within the given recursion depth. *)
Inductive Completion :=
  | Return (complexity : Z)
  | ThrowTypeError
  | OutOfFuel.

(** [obj[key]]. *)
Fixpoint getProperty (key : string) (props : list (string * JsValue)) : JsValue :=
  match props with
  | [] => JsUndefined
  | (k, v) :: props' => if String.eqb k key then v else getProperty key props'
  end.

Definition hasOwn (key : string) (props : list (string * JsValue)) : bool :=
  existsb (λ kv, String.eqb kv.1 key) props.

(** Whether [obj.hasOwnProperty] is the method of [Object.prototype]: the
    object inherits from [Object.prototype] and has no own property named
    [hasOwnProperty].  An own property of that name is found first and is
    not a function; an object without prototype has no such property at
    all. *)
Definition ownCheck (h : Heap) (obj : nat) : bool :=
  negb (bare h obj) && negb (hasOwn "hasOwnProperty" (h obj)).

(** The body of [for (const key in obj)] in [traverse], with the captured
    counter [complexity] passed along.  [props] are the properties of
    [obj], [method] tells whether [obj.hasOwnProperty] is the method of
    [Object.prototype], and [visit child] is [traverse(obj[key], depth + 1)].
    [obj.hasOwnProperty(key)] answers [true] for an own key if it is that
    method, and throws a [TypeError] if it is not. *)
Fixpoint forIn (visit : nat → Z → Completion) (method : bool)
    (props : list (string * JsValue)) (keys : list (string * JsValue))
    (complexity : Z) : Completion :=
  match keys with
  | [] => Return complexity
  | (key, _) :: keys' =>
      if method then
        let complexity := (complexity + 1)%Z in
        match getProperty key props with
        | JsObject child =>
            match visit child complexity with
            | Return complexity' => forIn visit method props keys' complexity'
            | stop => stop
            end
        | _ => forIn visit method props keys' complexity
        end
      else ThrowTypeError
  end.

(** [traverse(obj, depth)]; [fuel] bounds the nesting of calls. *)
Fixpoint traverse (fuel : nat) (h : Heap) (obj : nat) (depth : Z) (complexity : Z)
    : Completion :=
  match fuel with
  | 0 => OutOfFuel
  | S fuel' =>
      if (5 <? depth)%Z then Return complexity
      else
        forIn (λ child c, traverse fuel' h child (depth + 1) c)
              (ownCheck h obj) (h obj) (h obj) complexity
  end.

Definition calculateComplexity (fuel : nat) (h : Heap) (data : JsValue) : Completion :=
  match data with
  | JsObject obj => traverse fuel h obj 0 0
  | _ => Return 0
  end.

(** Some heaps: a chain of ten nested objects, an object that contains
    itself, an object with a key named [hasOwnProperty], and an object
    without prototype. *)
Definition chainHeap : Heap :=
  {| props := λ r, if r <? 10 then [("next"%string, JsObject (S r))] else [];
     bare := λ _, false |}.


Definition shadowHeap : Heap :=
  {| props := λ r, [("hasOwnProperty"%string, JsNumber 1)]; bare := λ _, false |}.

Definition bareHeap : Heap :=
  {| props := λ r, [("key"%string, JsNumber 1)]; bare := λ _, true |}.

(** An object literal that holds an object without prototype. *)
Definition nestedBareHeap : Heap :=
  {| props := λ r, if r =? 0 then [("child"%string, JsObject 1)]
                   else [("key"%string, JsNumber 1)];
     bare := λ r, negb (r =? 0) |}.

(** ** [getStatus] and the clock

    [getStatus()] called when [Date.now()] reads [now]. *)

Module Status.

Record t := {
  queueLength : nat;
  processing : bool;
  requestCount : Z;
  timeUntilReset : Z
}.

End Status.

Definition getStatus {Data Result Failure : Type} (now : Z)
    (a : RateLimitedAnalyzer Data Result Failure) : Status.t :=
  {| Status.queueLength := length (queue a);
     Status.processing := processing a;
     Status.requestCount := requestCount a;
     Status.timeUntilReset := Z.max 0 (1000 - (now - lastResetTime a)) |}.

(** The reading of the clock an event brings for line 71; it is read only
    if the event runs a pass of the drain loop. *)
Definition loopClock {Data Result Failure : Type} (e : Event Data Result Failure)
    : option Z :=
  match e with
  | Enqueue _ _ _ _ _ now | SleepTimer _ now | Analyzed _ _ now => Some now
  | _ => None
  end.

(** Observations of a refused submission being told so. *)
Definition isRefusal {Result Failure : Type} (o : Observation Result Failure) : Prop :=
  ∃ u, o = ErrorCallback u QueueFull.


(** ** When units begin execution

    The activation that runs a pass of the drain loop in an event: a new
    one when [enqueue] calls [processQueue] (there is one afterwards only
    if the guard of line 62 let the call through), the resumed one when a
    sleep or an analysis ends. *)
Definition passOf {Data Result Failure : Type} (e : Event Data Result Failure)
    (a : RateLimitedAnalyzer Data Result Failure) : option nat :=
  match e with
  | Enqueue _ _ _ _ _ _ => Some (length (drains a))
  | SleepTimer l _ | Analyzed l _ _ => Some l
  | _ => None
  end.

(** The unit whose execution begins in the event that leads from [a] to
    [a']: the one whose [analyzeItem] that activation is left waiting
    for. *)
Definition begins {Data Result Failure : Type} (e : Event Data Result Failure)
    (a a' : RateLimitedAnalyzer Data Result Failure) : option (QueueItem Data) :=
  match passOf e a with
  | Some l =>
      match drains a' !! l with
      | Some (Executing item) => Some item
      | _ => None
      end
  | None => None
  end.

(** A start: the unit, what the clock read in the pass that started it
    (line 71), and the window it falls in, named by the time of the reset
    that opened it ([lastResetTime]). *)
Record Start := {
  unitNo : nat;
  readAt : Z;
  window : Z
}.

(** The starts of a run, in the order they happen. *)
Fixpoint starts {Data Result Failure : Type} (cfg : AnalyzerConfig)
    (es : list (Event Data Result Failure))
    (a : RateLimitedAnalyzer Data Result Failure) : list Start :=
  match es with
  | [] => []
  | e :: es' =>
      match step cfg e a with
      | Some a' =>
          match begins e a a' with
          | Some item =>
              [{| unitNo := handle item; readAt := default 0%Z (loopClock e);
                  window := lastResetTime a' |}]
          | None => []
          end ++ starts cfg es' a'
      | None => []
      end
  end.

(** The starts that fall in the window opened at [w]. *)
Definition inWindow (w : Z) (log : list Start) : list Start :=
  filter (λ s, window s = w) log.

(** Two starts, the first no later than the second, are in the same window
    or in windows opened at least 1000 ms apart. *)
Definition windowsApart (s1 s2 : Start) : Prop :=
  window s1 = window s2 ∨ (window s1 + 1000 ≤ window s2)%Z.

(** What the counter of the rate window has to do with the starts [log]
    of a run that ends in [a]. *)
Definition rateLog {Data Result Failure : Type} (cfg : AnalyzerConfig)
    (log : list Start) (a : RateLimitedAnalyzer Data Result Failure) : Prop :=
  map unitNo log = started (trace a) ∧
  requestCount a = Z.of_nat (length (inWindow (lastResetTime a) log)) ∧
  (∀ w, (Z.of_nat (length (inWindow w log)) ≤ requestsPerSecond cfg)%Z) ∧
  Forall (λ s, (readAt s - window s < 1000)%Z ∧
               (window s = lastResetTime a ∨ (window s + 1000 ≤ lastResetTime a)%Z)) log ∧
  StronglySorted windowsApart log.

(** ** Who gets what

    The item [enqueue] builds on lines 42-50 for the call numbered [u]. *)
Definition newItem {Data : Type} (cfg : AnalyzerConfig) (d : Data) (prio : option Num)
    (given : option string) (generated : string) (ts : Z) (u : nat) : QueueItem Data :=
  {| id := chooseId given generated;
     priority := clampPriority cfg (default (Finite 0) prio);
     timestamp := ts; data := d; handle := u |}.

(** The items of the calls of [enqueue] in a run, refused ones included,
    numbered from [u]. *)
Fixpoint submissions {Data Result Failure : Type} (cfg : AnalyzerConfig) (u : nat)
    (es : list (Event Data Result Failure)) : list (QueueItem Data) :=
  match es with
  | [] => []
  | Enqueue d prio given generated ts _ :: es' =>
      newItem cfg d prio given generated ts u :: submissions cfg (S u) es'
  | _ :: es' => submissions cfg u es'
  end.

(** The outcomes of [analyzeItem] in a run are those that [work] allows for
    the item being executed. *)
Definition worksAs {Data Result Failure : Type}
    (work : QueueItem Data → Result + Failure → Prop)
    (a : RateLimitedAnalyzer Data Result Failure) (e : Event Data Result Failure)
    : Prop :=
  match e with
  | Analyzed l o _ => ∃ item, drains a !! l = Some (Executing item) ∧ work item o
  | _ => True
  end.

Fixpoint runsAs {Data Result Failure : Type}
    (work : QueueItem Data → Result + Failure → Prop) (cfg : AnalyzerConfig)
    (es : list (Event Data Result Failure))
    (a : RateLimitedAnalyzer Data Result Failure) : Prop :=
  match es with
  | [] => True
  | e :: es' =>
      worksAs work a e ∧
      match step cfg e a with
      | Some a' => runsAs work cfg es' a'
      | None => True
      end
  end.

(** What an observation hands to the callbacks of a unit from
    [analyzeItem]: the result, or the error it failed with. *)
Definition delivered {Result Failure : Type} (o : Observation Result Failure)
    : option (nat * (Result + Failure)) :=
  match o with
  | Callback u r => Some (u, inl r)
  | ErrorCallback u (WorkFailed f) => Some (u, inr f)
  | _ => None
  end.


(** ** [analyzeItem] and the functions it calls

    A [JsString] holds one code unit below 256 per character. *)
Definition codeUnits (s : string) : list N :=
  map Ascii.N_of_ascii (list_ascii_of_string s).

(** What [\s] matches: the white space and line terminator code units. *)
Definition isWhitespace (c : N) : bool :=
  ((9 <=? c) && (c <=? 13) || (c =? 32) || (c =? 160) || (c =? 5760)
   || (8192 <=? c) && (c <=? 8202) || (c =? 8232) || (c =? 8233) || (c =? 8239)
   || (c =? 8287) || (c =? 12288) || (c =? 65279))%N.

(** [s.split(/\s+/)]: the text between the matches of [\s+], which are the
    maximal runs of white space.  [piece] is the text since the last match
    and [inRun] tells whether the code unit before was white space. *)
Fixpoint splitFrom (s piece : list N) (inRun : bool) : list (list N) :=
  match s with
  | [] => [piece]
  | c :: s' =>
      if isWhitespace c then
        if inRun then splitFrom s' [] true else piece :: splitFrom s' [] true
      else splitFrom s' (piece ++ [c]) false
  end.

Definition splitWhitespace (s : list N) : list (list N) := splitFrom s [] false.

(** [s.includes(needle)]. *)
Fixpoint includes (needle s : string) : bool :=
  String.prefix needle s ||
  match s with
  | EmptyString => false
  | String _ s' => includes needle s'
  end.

(** [typeof data], for the values of the model. *)
Definition typeof (data : JsValue) : string :=
  match data with
  | JsUndefined => "undefined"
  | JsNull | JsObject _ => "object"
  | JsBoolean _ => "boolean"
  | JsNumber _ => "number"
  | JsString _ => "string"
  end.

(** [data?.type]. *)
Definition optionalType (h : Heap) (data : JsValue) : JsValue :=
  match data with
  | JsObject obj => getProperty "type" (h obj)
  | _ => JsUndefined
  end.

(** [value === 'text'] for a string literal. *)
Definition strictEquals (value : JsValue) (text : string) : bool :=
  match value with
  | JsString s => String.eqb s text
  | _ => false
  end.

Definition isJsString (data : JsValue) : option string :=
  match data with JsString s => Some s | _ => None end.

Inductive AnalysisType := pattern | state | event | documentation.

Definition determineAnalysisType (h : Heap) (data : JsValue) : AnalysisType :=
  if String.eqb (typeof data) "string" && from_option (includes "event") false (isJsString data)
  then event
  else if String.eqb (typeof data) "object" && strictEquals (optionalType h data) "pattern"
  then pattern
  else if String.eqb (typeof data) "object" && strictEquals (optionalType h data) "state"
  then state
  else if String.eqb (typeof data) "string" && from_option (includes "doc") false (isJsString data)
  then documentation
  else pattern.

(** The object [performAnalysis] resolves with; the fields [type] and
    [analysis] are fixed by the case. *)
Inductive Analysis :=
  | TextAnalysis (len wordCount : nat)
  | ObjectAnalysis (keys : list string) (complexity : Z)
  | UnknownAnalysis.

Definition analysisType (d : Analysis) : string :=
  match d with
  | TextAnalysis _ _ => "text"
  | ObjectAnalysis _ _ => "object"
  | UnknownAnalysis => "unknown"
  end.

Definition analysisNote (d : Analysis) : string :=
  match d with
  | TextAnalysis _ _ => "Text analysis completed"
  | ObjectAnalysis _ _ => "Object analysis completed"
  | UnknownAnalysis => "Basic analysis completed"
  end.

(** How the promise of an [async] function ends; [Unsettled] stands for a
    computation that has not ended within the given recursion depth. *)
Inductive Settlement (A : Type) :=
  | Fulfilled (value : A)
  | RejectedTypeError
  | Unsettled.

Arguments Fulfilled {A} value.
Arguments RejectedTypeError {A}.
Arguments Unsettled {A}.

Definition performAnalysis (fuel : nat) (h : Heap) (data : JsValue) : Settlement Analysis :=
  match data with
  | JsString s =>
      Fulfilled (TextAnalysis (length (codeUnits s))
                              (length (splitWhitespace (codeUnits s))))
  | JsObject obj =>
      let keys := map fst (h obj) in
      match calculateComplexity fuel h data with
      | Return complexity => Fulfilled (ObjectAnalysis keys complexity)
      | ThrowTypeError => RejectedTypeError
      | OutOfFuel => Unsettled
      end
  | _ => Fulfilled UnknownAnalysis
  end.

(** [calculateConfidence]: the exact value of the expression; the number
    the code returns is the double nearest to it, rounding being monotone
    and [Math.min] exact. *)
Definition calculateConfidence (h : Heap) (data : JsValue) : Q :=
  match data with
  | JsString s => Qmin (9 # 10) (inject_Z (Z.of_nat (length (codeUnits s))) / 1000)
  | JsObject obj => Qmin (95 # 100) (inject_Z (Z.of_nat (length (h obj))) / 20)
  | _ => 1 # 2
  end.

(** [categorizeData]; [isArray] tells which objects are arrays. *)
Definition categorizeData (isArray : nat → bool) (data : JsValue) : string :=
  match data with
  | JsString _ => "text"
  | JsObject obj => if isArray obj then "array" else "object"
  | _ => "primitive"
  end.

Module AnalyzerResult.

Record Metadata := {
  source : string;
  confidence : Q;
  category : string
}.

Record t := {
  id : string;
  type : AnalysisType;
  timestamp : Z;
  data : Analysis;
  metadata : Metadata
}.

End AnalyzerResult.

(** [analyzeItem(item)], [now] being the [Date.now()] of line 113. *)
Definition analyzeItem (fuel : nat) (h : Heap) (isArray : nat → bool) (now : Z)
    (item : QueueItem JsValue) : Settlement AnalyzerResult.t :=
  let type := determineAnalysisType h (data item) in
  match performAnalysis fuel h (data item) with
  | Fulfilled analysis =>
      Fulfilled
        {| AnalyzerResult.id := id item;
           AnalyzerResult.type := type;
           AnalyzerResult.timestamp := now;
           AnalyzerResult.data := analysis;
           AnalyzerResult.metadata :=
             {| AnalyzerResult.source := "RateLimitedAnalyzer";
                AnalyzerResult.confidence := calculateConfidence h (data item);
                AnalyzerResult.category := categorizeData isArray (data item) |} |}
  | RejectedTypeError => RejectedTypeError
  | Unsettled => Unsettled
  end.

(** [analyzeItem(item)] when a payload object may be changed while the
    function is suspended: [h] is the heap when lines 111 to 114 run, in
    one segment, and [h'] the heap when the function is resumed behind the
    [await] of line 114 and computes the confidence and the category. *)
Definition analyzeItemAt (fuel : nat) (h h' : Heap) (isArray : nat → bool) (now : Z)
    (item : QueueItem JsValue) : Settlement AnalyzerResult.t :=
  let type := determineAnalysisType h (data item) in
  match performAnalysis fuel h (data item) with
  | Fulfilled analysis =>
      Fulfilled
        {| AnalyzerResult.id := id item;
           AnalyzerResult.type := type;
           AnalyzerResult.timestamp := now;
           AnalyzerResult.data := analysis;
           AnalyzerResult.metadata :=
             {| AnalyzerResult.source := "RateLimitedAnalyzer";
                AnalyzerResult.confidence := calculateConfidence h' (data item);
                AnalyzerResult.category := categorizeData isArray (data item) |} |}
  | RejectedTypeError => RejectedTypeError
  | Unsettled => Unsettled
  end.

(** What the drain loop sees of [analyzeItem(item)]: a result for
    [callback] or an error for [errorCallback], computed on the heaps as
    they are when the function runs; [heaps] are the heaps there can
    be. *)
Definition analyzeItemOutcome (heaps : Heap → Prop) (isArray : nat → bool)
    (item : QueueItem JsValue) (o : AnalyzerResult.t + unit) : Prop :=
  ∃ h h' now,
    heaps h ∧ heaps h' ∧
    analyzeItemAt 7 h h' isArray now item
    = match o with inl r => Fulfilled r | inr _ => RejectedTypeError end.


(** A scenario: a text is submitted and analyzed; there are no objects. *)
Definition noHeap : Heap := {| props := λ _, []; bare := λ _, false |}.

Definition noArray : nat → bool := λ _, false.

Definition eventItem : QueueItem JsValue :=
  newItem demoConfig (JsString "an event") None (Some "a"%string) "generated" 0 0.

Definition eventResult : AnalyzerResult.t :=
  {| AnalyzerResult.id := "a";
     AnalyzerResult.type := event;
     AnalyzerResult.timestamp := 100;
     AnalyzerResult.data := TextAnalysis 8 2;
     AnalyzerResult.metadata :=
       {| AnalyzerResult.source := "RateLimitedAnalyzer";
          AnalyzerResult.confidence := calculateConfidence noHeap (JsString "an event");
          AnalyzerResult.category := "text" |} |}.

Definition eventAnalyzed : list (Event JsValue AnalyzerResult.t unit) :=
  [Enqueue (JsString "an event") None (Some "a"%string) "generated" 0 0;
   Analyzed 0 (inl eventResult) 100].


(** * Properties of the queue *)

Section QueueProperties.

Context {Data Result Failure : Type}.
Variable cfg : AnalyzerConfig.

Abbreviation Item := (QueueItem Data).
Abbreviation State := (RateLimitedAnalyzer Data Result Failure).
Abbreviation Ev := (Event Data Result Failure).

Implicit Types (a b : State) (q : list Item) (item x y : Item) (e : Ev)
  (tr : list (Observation Result Failure)) (ds : list (Drain Data)) (d : Drain Data).

(** Reduce the projections of a state that is written out. *)
Ltac fields :=
  cbn [queue processing requestCount lastResetTime pendingCount drains timers
       submitted trace observe set_drains set_processing set_pendingCount
       resetWindow shiftAndStart clear fst snd] in *.

(** ** One pass of the drain loop *)

Lemma drainLoop_outcome now a :
  drainLoopOutcome cfg now a (drainLoop cfg now a).1 (drainLoop cfg now a).2.
Proof.
  unfold drainLoop. destruct (queue a) as [|item rest] eqn:Hq.
  - by constructor.
  - destruct (1000 <=? now - lastResetTime a)%Z eqn:Hw.
    + apply Z.leb_le in Hw.
      destruct (requestsPerSecond cfg <=? requestCount (resetWindow now a))%Z eqn:Hr.
      * apply Z.leb_le in Hr. cbn [resetWindow observe lastResetTime].
        replace (0 <? 1000 - (now - now))%Z with true by (symmetry; apply Z.ltb_lt; lia).
        cbn [fst snd].
        replace (now + (1000 - (now - now)))%Z
          with (lastResetTime (resetWindow now a) + 1000)%Z by (simpl; lia).
        eapply drain_sleeps; eauto.
      * apply Z.leb_gt in Hr. eapply drain_starts; eauto.
    + apply Z.leb_gt in Hw.
      destruct (requestsPerSecond cfg <=? requestCount a)%Z eqn:Hr.
      * apply Z.leb_le in Hr.
        replace (0 <? 1000 - (now - lastResetTime a))%Z with true
          by (symmetry; apply Z.ltb_lt; lia).
        cbn [fst snd].
        replace (now + (1000 - (now - lastResetTime a)))%Z
          with (lastResetTime a + 1000)%Z by lia.
        eapply drain_sleeps; eauto.
      * apply Z.leb_gt in Hr. eapply drain_starts; eauto.
Qed.

(** What a pass leaves alone, and what it moves from the buffer to the
    activation. *)
Lemma drainLoop_frame now a a' d :
  drainLoop cfg now a = (a', d) →
  timers a' = timers a ∧ submitted a' = submitted a ∧ drains a' = drains a ∧
  pendingCount a' = pendingCount a ∧
  settled (trace a') = settled (trace a) ∧
  worked (trace a') = worked (trace a) ∧
  map handle (queue a) = executing [d] ++ map handle (queue a') ∧
  started (trace a') = started (trace a) ++ executing [d].
Proof.
  intros Hd. pose proof (drainLoop_outcome now a) as Ho. rewrite Hd in Ho. simpl in Ho.
  unfold settled, worked, started, executing.
  inversion Ho as [Hq|a1 item rest Hq Hw _|a1 item rest Hq Hw _]; subst;
    [|destruct Hw as [[-> _]|[-> _]]..]; simpl;
    rewrite ?omap_app, ?Hq; simpl; rewrite ?app_nil_r; done.
Qed.

(** ** Runs *)

Lemma run_app es1 es2 a :
  run cfg (es1 ++ es2) a = run cfg es1 a ≫= run cfg es2.
Proof.
  revert a. induction es1 as [|e es1 IH]; intros a; simpl; [done|].
  destruct (step cfg e a); simpl; auto.
Qed.

Lemma reachable_create t0 : reachable cfg (create t0 : State).
Proof. by exists t0, []. Qed.

Lemma reachable_step a e a' :
  reachable cfg a → step cfg e a = Some a' → reachable cfg a'.
Proof.
  intros (t0 & es & Hr) Hs. exists t0, (es ++ [e]).
  rewrite run_app, Hr. simpl. by rewrite Hs.
Qed.

Lemma reachable_run a es a' :
  reachable cfg a → run cfg es a = Some a' → reachable cfg a'.
Proof.
  revert a. induction es as [|e es IH]; intros a Ha Hr; simpl in Hr.
  - by simplify_eq.
  - destruct (step cfg e a) as [a1|] eqn:Hs; [|done].
    eapply IH; [|done]. by eapply reachable_step.
Qed.

(** Induction over the states of the class. *)
Lemma reachable_ind (P : State → Prop) :
  (∀ t0, P (create t0)) →
  (∀ a e a', reachable cfg a → P a → step cfg e a = Some a' → P a') →
  ∀ a, reachable cfg a → P a.
Proof.
  intros Hinit Hstep a (t0 & es & Hr). revert a Hr.
  induction es as [|e es IH] using rev_ind; intros a Hr.
  - simpl in Hr. simplify_eq. apply Hinit.
  - rewrite run_app in Hr. destruct (run cfg es (create t0)) as [a0|] eqn:H0; [|done].
    simpl in Hr. destruct (step cfg e a0) as [a1|] eqn:Hs; [|done]. simplify_eq.
    eapply Hstep; [| by apply IH | done]. by exists t0, es.
Qed.

(** ** Where the units are *)

Lemma insertByPriority_split item q :
  ∃ q1 q2, q = q1 ++ q2 ∧ insertByPriority item q = q1 ++ item :: q2 ∧
    Forall (λ x, greater (priority item) (priority x) = false) q1 ∧
    match q2 with [] => True | y :: _ => greater (priority item) (priority y) = true end.
Proof.
  induction q as [|x q IH]; simpl.
  - by exists [], [].
  - destruct (greater (priority item) (priority x)) eqn:Hp.
    + by exists [], (x :: q).
    + destruct IH as (q1 & q2 & -> & -> & H1 & H2).
      exists (x :: q1), q2. split_and!; auto.
Qed.

Lemma insertByPriority_handles item q :
  map handle (insertByPriority item q) ≡ₚ handle item :: map handle q.
Proof.
  destruct (insertByPriority_split item q) as (q1 & q2 & -> & -> & _).
  rewrite !map_app. simpl. solve_Permutation.
Qed.

Lemma executing_insert (ds : list (Drain Data)) l d0 d :
  ds !! l = Some d0 →
  executing [d0] ++ executing (<[l:=d]> ds) ≡ₚ executing [d] ++ executing ds.
Proof.
  intros Hl. rewrite insert_take_drop by (by eapply lookup_lt_Some).
  rewrite <- (take_drop_middle ds l d0) at 3 by done.
  unfold executing. rewrite !omap_app. simpl.
  destruct (executingUnit d0), (executingUnit d); simpl; solve_Permutation.
Qed.

Lemma settled_cleared q :
  settled (Result:=Result) (Failure:=Failure)
    (map (λ item, ErrorCallback (handle item) QueueCleared) q) = map handle q.
Proof. induction q as [|x q IH]; simpl; [done|]. by f_equal. Qed.

Lemma started_cleared q :
  started (Result:=Result) (Failure:=Failure)
    (map (λ item, ErrorCallback (handle item) QueueCleared) q) = [].
Proof. by induction q. Qed.

Lemma worked_cleared q :
  worked (Result:=Result) (Failure:=Failure)
    (map (λ item, ErrorCallback (handle item) QueueCleared) q) = [].
Proof. by induction q. Qed.

Lemma started_app (tr1 tr2 : list (Observation Result Failure)) :
  started (tr1 ++ tr2) = started tr1 ++ started tr2.
Proof. apply omap_app. Qed.

Lemma settled_app (tr1 tr2 : list (Observation Result Failure)) :
  settled (tr1 ++ tr2) = settled tr1 ++ settled tr2.
Proof. apply omap_app. Qed.

Lemma worked_app (tr1 tr2 : list (Observation Result Failure)) :
  worked (tr1 ++ tr2) = worked tr1 ++ worked tr2.
Proof. apply omap_app. Qed.

Lemma ledger_step a e a' : ledger a → step cfg e a = Some a' → ledger a'.
Proof.
  intros [H1 H2] Hs. destruct e as [dt prio given gen ts now| | |l now|l o now]; simpl in Hs.
  - (* enqueue *)
    simplify_eq. unfold enqueue.
    destruct (maxQueueSize cfg <=? pendingCount a)%Z.
    + split; fields; [|done]. rewrite seq_S, <- H1. simpl. solve_Permutation.
    + set (item := Build_QueueItem _ _ _ _ _).
      set (a0 := Build_RateLimitedAnalyzer _ _ _ _ _ _ _ _ _).
      assert (ledger a0) as [H1' H2'].
      { subst a0. split; fields; [|done].
        rewrite seq_S, <- H1, insertByPriority_handles. simpl. solve_Permutation. }
      unfold processQueue.
      destruct (processing a0 || (length (queue a0) =? 0)); [done|].
      destruct (drainLoop cfg now (set_processing true a0)) as [a1 d] eqn:Hd.
      apply drainLoop_frame in Hd as (Ht & Hsub & Hdr & _ & Hse & Hw & Hq & Hst).
      fields. split; fields.
      * rewrite Ht, Hsub, Hse, Hdr, <- H1', Hq. unfold executing.
        rewrite omap_app. solve_Permutation.
      * rewrite Hst, Hw, Hdr, H2'. unfold executing. rewrite omap_app.
        solve_Permutation.
  - (* clear *)
    simplify_eq. split; fields.
    + rewrite <- H1, settled_app, settled_cleared. solve_Permutation.
    + by rewrite started_app, worked_app, started_cleared, worked_cleared, !app_nil_r.
  - (* rejection timer *)
    unfold rejectTimer in Hs. destruct (timers a) as [|u ts] eqn:Ht; simplify_eq.
    split; fields.
    + rewrite <- H1, settled_app. simpl. solve_Permutation.
    + rewrite started_app, worked_app. simpl. by rewrite !app_nil_r.
  - (* sleep timer *)
    unfold sleepTimer in Hs. destruct (drains a !! l) as [[due|?|]|] eqn:Hl; try done.
    simplify_eq. unfold resume.
    destruct (drainLoop cfg now a) as [a1 d] eqn:Hd.
    apply drainLoop_frame in Hd as (Ht & Hsub & Hdr & _ & Hse & Hw & Hq & Hst).
    pose proof (executing_insert _ _ _ d Hl) as Hi.
    change (executing [Sleeping due]) with (@nil nat) in Hi.
    split; fields.
    + rewrite Ht, Hsub, Hse, Hdr, <- H1, Hq, Hi. solve_Permutation.
    + rewrite Hst, Hw, Hdr, H2, Hi. solve_Permutation.
  - (* analyzeItem settles *)
    unfold analyzed in Hs. destruct (drains a !! l) as [[?|item|]|] eqn:Hl; try done.
    simplify_eq. unfold resume.
    destruct (drainLoop cfg now _) as [a1 d] eqn:Hd.
    apply drainLoop_frame in Hd as (Ht & Hsub & Hdr & _ & Hse & Hw & Hq & Hst).
    pose proof (executing_insert _ _ _ d Hl) as Hi. fields.
    change (executing [Executing item]) with [handle item] in Hi.
    assert (settled (trace a ++ [deliver (handle item) o])
            = settled (trace a) ++ [handle item]) as Hse'.
    { unfold settled. rewrite omap_app. by destruct o. }
    assert (worked (trace a ++ [deliver (handle item) o])
            = worked (trace a) ++ [handle item]) as Hw'.
    { unfold worked. rewrite omap_app. by destruct o. }
    assert (started (trace a ++ [deliver (handle item) o]) = started (trace a)) as Hst'.
    { unfold started. rewrite omap_app. destruct o; simpl; by rewrite app_nil_r. }
    split; fields.
    + rewrite Ht, Hsub, Hse, Hdr, Hse', <- H1, Hq.
      transitivity (timers a ++ map handle (queue a1) ++
                    ([handle item] ++ executing (<[l:=d]> (drains a))) ++ settled (trace a));
        [solve_Permutation|]. rewrite Hi. solve_Permutation.
    + rewrite Hst, Hw, Hdr, Hw', Hst', H2.
      transitivity (([handle item] ++ executing (<[l:=d]> (drains a))) ++ worked (trace a));
        [|solve_Permutation]. rewrite Hi. solve_Permutation.
Qed.

Lemma reachable_ledger a : reachable cfg a → ledger a.
Proof.
  revert a. apply reachable_ind.
  - intros t0. by split.
  - intros a e a' _. apply ledger_step.
Qed.

(** ** The capacity counter *)

Lemma pendingCount_step a e a' :
  (0 ≤ maxQueueSize cfg)%Z →
  (pendingCount a ≤ maxQueueSize cfg)%Z →
  step cfg e a = Some a' →
  (pendingCount a' ≤ maxQueueSize cfg)%Z.
Proof.
  intros Hcap Hle Hs.
  destruct e as [dt prio given gen ts now| | |l now|l o now]; simpl in Hs.
  - simplify_eq. unfold enqueue.
    destruct (maxQueueSize cfg <=? pendingCount a)%Z eqn:Hfull; [done|].
    apply Z.leb_gt in Hfull. unfold processQueue.
    destruct (processing _ || _); fields; [lia|].
    destruct (drainLoop cfg now _) as [a1 d] eqn:Hd.
    apply drainLoop_frame in Hd as (_ & _ & _ & Hp & _). fields. lia.
  - simplify_eq. by fields.
  - unfold rejectTimer in Hs. destruct (timers a); simplify_eq. by fields.
  - unfold sleepTimer in Hs. destruct (drains a !! l) as [[due|?|]|]; try done.
    simplify_eq. unfold resume.
    destruct (drainLoop cfg now a) as [a1 d] eqn:Hd.
    apply drainLoop_frame in Hd as (_ & _ & _ & Hp & _). fields. lia.
  - unfold analyzed in Hs. destruct (drains a !! l) as [[?|item|]|]; try done.
    simplify_eq. unfold resume.
    destruct (drainLoop cfg now _) as [a1 d] eqn:Hd.
    apply drainLoop_frame in Hd as (_ & _ & _ & Hp & _). fields. lia.
Qed.

Lemma pendingCount_le_capacity a :
  (0 ≤ maxQueueSize cfg)%Z → reachable cfg a →
  (pendingCount a ≤ maxQueueSize cfg)%Z.
Proof.
  intros Hcap. revert a. apply reachable_ind.
  - intros t0. by simpl.
  - intros a e a' _. by apply pendingCount_step.
Qed.

(** ** The rate window *)

Lemma windows_snoc (tr : list (Observation Result Failure)) o :
  windows (tr ++ [o]) = countWindow (windows tr) o.
Proof. apply foldl_snoc. Qed.

Lemma windows_cleared (tr : list (Observation Result Failure)) q :
  windows (tr ++ map (λ item : Item, ErrorCallback (handle item) QueueCleared) q)
  = windows tr.
Proof.
  unfold windows. rewrite foldl_app. generalize (foldl countWindow ([], 0) tr).
  induction q as [|x q IH]; intros w; simpl; [done|]. apply IH.
Qed.

Lemma rateBound_same a b :
  requestCount b = requestCount a → trace b = trace a →
  rateBound cfg a → rateBound cfg b.
Proof. unfold rateBound. by intros -> ->. Qed.

Lemma rateBound_drainLoop now a a' d :
  (0 ≤ requestsPerSecond cfg)%Z →
  rateBound cfg a → drainLoop cfg now a = (a', d) → rateBound cfg a'.
Proof.
  intros Hrps Hb Hd.
  assert (∀ a1, a1 = a ∧ (now - lastResetTime a < 1000)%Z ∨
                a1 = resetWindow now a ∧ (1000 ≤ now - lastResetTime a)%Z →
                rateBound cfg a1) as Hwin.
  { intros a1 [[-> _]|[-> _]]; [done|]. destruct Hb as (Hle & Hcur & Hall).
    unfold rateBound. fields. rewrite windows_snoc. simpl.
    split_and!; [done..|]. apply Forall_app. split; [done|].
    apply Forall_singleton. lia. }
  pose proof (drainLoop_outcome now a) as Ho. rewrite Hd in Ho. simpl in Ho.
  inversion Ho as [Hq|a1 item rest Hq Hw Hr|a1 item rest Hq Hw Hr]; subst.
  - by apply (rateBound_same a).
  - by apply Hwin.
  - destruct (Hwin _ Hw) as (Hle & Hcur & Hall).
    unfold rateBound. fields. rewrite windows_snoc. simpl.
    split_and!; [lia|lia|done].
Qed.

Lemma rateBound_step a e a' :
  (0 ≤ requestsPerSecond cfg)%Z →
  rateBound cfg a → step cfg e a = Some a' → rateBound cfg a'.
Proof.
  intros Hrps Hb Hs.
  destruct e as [dt prio given gen ts now| | |l now|l o now]; simpl in Hs.
  - simplify_eq. unfold enqueue.
    destruct (maxQueueSize cfg <=? pendingCount a)%Z; [by apply (rateBound_same a)|].
    unfold processQueue.
    destruct (processing _ || _); [by apply (rateBound_same a)|].
    destruct (drainLoop cfg now _) as [a1 d] eqn:Hd.
    apply (rateBound_same a1); [done..|].
    eapply rateBound_drainLoop; [done| |done]. by apply (rateBound_same a).
  - simplify_eq. destruct Hb as (Hle & Hcur & Hall). unfold rateBound. fields.
    by rewrite windows_cleared.
  - unfold rejectTimer in Hs. destruct (timers a); simplify_eq.
    destruct Hb as (Hle & Hcur & Hall). unfold rateBound. fields.
    by rewrite windows_snoc.
  - unfold sleepTimer in Hs. destruct (drains a !! l) as [[due|?|]|]; try done.
    simplify_eq. unfold resume.
    destruct (drainLoop cfg now a) as [a1 d] eqn:Hd.
    apply (rateBound_same a1); [done..|]. by eapply rateBound_drainLoop.
  - unfold analyzed in Hs. destruct (drains a !! l) as [[?|item|]|]; try done.
    simplify_eq. unfold resume.
    destruct (drainLoop cfg now _) as [a1 d] eqn:Hd.
    apply (rateBound_same a1); [done..|].
    eapply rateBound_drainLoop; [done| |done].
    destruct Hb as (Hle & Hcur & Hall). unfold rateBound. fields.
    rewrite windows_snoc. by destruct o.
Qed.

(** ** The flag and the activations *)

Lemma active_app ds1 ds2 : active (ds1 ++ ds2) = active ds1 + active ds2.
Proof. induction ds1 as [|[] ds1 IH]; simpl; lia. Qed.

Lemma active_insert ds l d0 d :
  ds !! l = Some d0 →
  active [d0] + active (<[l:=d]> ds) = active [d] + active ds.
Proof.
  intros Hl. rewrite insert_take_drop by (by eapply lookup_lt_Some).
  rewrite <- (take_drop_middle ds l d0) at 3 by done.
  rewrite !active_app. change (d :: ?k) with ([d] ++ k).
  change (d0 :: ?k) with ([d0] ++ k). rewrite !active_app. lia.
Qed.

Lemma insertByPriority_length item q :
  length (insertByPriority item q) = S (length q).
Proof.
  induction q as [|x q IH]; simpl; [done|].
  destruct (greater (priority item) (priority x)); simpl; lia.
Qed.

(** A pass that finds work leaves the activation alive and the flag as it
    was; a pass that finds none lowers the flag. *)
Lemma drainLoop_flag now a a' d :
  drainLoop cfg now a = (a', d) →
  (queue a = [] ∧ queue a' = [] ∧ processing a' = false ∧ d = Returned) ∨
  (queue a ≠ [] ∧ processing a' = processing a ∧ isActive d = true).
Proof.
  intros Hd. pose proof (drainLoop_outcome now a) as Ho. rewrite Hd in Ho. simpl in Ho.
  inversion Ho as [Hq|a1 item rest Hq Hw _|a1 item rest Hq Hw _]; subst.
  - left. by fields.
  - right. rewrite Hq. destruct Hw as [[-> _]|[-> _]]; by fields.
  - right. rewrite Hq. destruct Hw as [[-> _]|[-> _]]; by fields.
Qed.

Lemma active_live d : isActive d = true → active [d] = 1.
Proof. by destruct d. Qed.

Lemma active_pos ds l d : ds !! l = Some d → isActive d = true → 0 < active ds.
Proof.
  intros Hl Hd. rewrite <- (take_drop_middle ds l d) by done.
  rewrite active_app. change (d :: ?k) with ([d] ++ k).
  rewrite active_app, (active_live d Hd). lia.
Qed.

Lemma flagged_resume now a l d0 :
  flagged a → drains a !! l = Some d0 → flagged (resume cfg l now a).
Proof.
  intros [Hoff Hon] Hl. unfold resume.
  destruct (drainLoop cfg now a) as [a1 d] eqn:Hd.
  pose proof (drainLoop_frame _ _ _ _ Hd) as (_ & _ & Hdr & _).
  apply drainLoop_flag in Hd as [(_ & Hq & Hp & ->)|(Hq & Hp & Hd)].
  - split; fields; [done|]. by rewrite Hp.
  - split; fields.
    + intros Hf. rewrite Hp in Hf. destruct Hq. by apply Hoff.
    + intros _. rewrite Hdr. apply (active_pos _ l d); [|done].
      apply list_lookup_insert_eq. by eapply lookup_lt_Some.
Qed.

Lemma flagged_step a e a' : flagged a → step cfg e a = Some a' → flagged a'.
Proof.
  intros Hf Hs.
  destruct e as [dt prio given gen ts now| | |l now|l o now]; simpl in Hs.
  - simplify_eq. destruct Hf as [Hoff Hon]. unfold enqueue.
    destruct (maxQueueSize cfg <=? pendingCount a)%Z; [done|].
    unfold processQueue. fields.
    destruct (processing a) eqn:Hp; simpl.
    { split; fields; [done|auto]. }
    rewrite insertByPriority_length. simpl.
    destruct (drainLoop cfg now _) as [a1 d] eqn:Hd.
    pose proof (drainLoop_frame _ _ _ _ Hd) as (_ & _ & Hdr & _).
    apply drainLoop_flag in Hd as [(Hq & _)|(Hq & Hp' & Hd)]; fields.
    { apply (f_equal length) in Hq. by rewrite insertByPriority_length in Hq. }
    split; fields; [by rewrite Hp'|]. intros _.
    rewrite active_app, (active_live d Hd). lia.
  - simplify_eq. by split.
  - unfold rejectTimer in Hs. destruct (timers a); simplify_eq. done.
  - unfold sleepTimer in Hs. destruct (drains a !! l) as [[due|?|]|] eqn:Hl; try done.
    simplify_eq. by eapply flagged_resume.
  - unfold analyzed in Hs. destruct (drains a !! l) as [[?|item|]|] eqn:Hl; try done.
    simplify_eq. by eapply (flagged_resume _ _ _ (Executing item)).
Qed.

Lemma reachable_flagged a : reachable cfg a → flagged a.
Proof.
  revert a. apply reachable_ind.
  - intros t0. by split.
  - intros a e a' _. apply flagged_step.
Qed.

(** An admitted submission always leaves the flag up. *)
Lemma enqueue_processing dt prio given gen ts now a :
  (pendingCount a < maxQueueSize cfg)%Z →
  processing (enqueue cfg dt prio given gen ts now a) = true.
Proof.
  intros Hfree. unfold enqueue.
  destruct (maxQueueSize cfg <=? pendingCount a)%Z eqn:Hfull;
    [apply Z.leb_le in Hfull; lia|].
  unfold processQueue. fields. destruct (processing a) eqn:Hp; simpl; [done|].
  rewrite insertByPriority_length. simpl.
  destruct (drainLoop cfg now _) as [a1 d] eqn:Hd.
  apply drainLoop_flag in Hd as [(Hq & _)|(Hq & Hp' & Hd)]; fields; [|done].
  apply (f_equal length) in Hq. by rewrite insertByPriority_length in Hq.
Qed.

(** ** The order of the buffer *)

Lemma insertByPriority_perm item q : insertByPriority item q ≡ₚ item :: q.
Proof.
  destruct (insertByPriority_split item q) as (q1 & q2 & -> & -> & _).
  solve_Permutation.
Qed.

Lemma insertByPriority_sorted item q :
  StronglySorted servedBefore q →
  Forall (λ x, handle x < handle item) q →
  StronglySorted servedBefore (insertByPriority item q).
Proof.
  induction q as [|x q IH]; intros Hs Hh; simpl.
  - repeat constructor.
  - apply StronglySorted_inv in Hs as [Hs Hx].
    apply Forall_cons in Hh as [Hxh Hh].
    destruct (greater (priority item) (priority x)) eqn:Hp.
    + constructor; [by constructor|].
      unfold greater in Hp.
      destruct (priority item) as [p|] eqn:Hi, (priority x) as [b|] eqn:Hb; try done.
      apply Z.ltb_lt in Hp.
      constructor; [unfold servedBefore; rewrite Hi, Hb; by left|].
      eapply Forall_impl; [exact Hx|]. intros y. unfold servedBefore. rewrite Hi, Hb.
      destruct (priority y); [|done]. intros [Hy|[Hy _]]; left; lia.
    + constructor; [by apply IH|].
      rewrite insertByPriority_perm. constructor; [|done].
      unfold servedBefore, greater in *.
      destruct (priority x), (priority item); try done. apply Z.ltb_ge in Hp. lia.
Qed.

Lemma sortedQueue_same a b :
  queue b = queue a → submitted b = submitted a → sortedQueue a → sortedQueue b.
Proof. unfold sortedQueue. by intros -> ->. Qed.

Lemma sortedQueue_drainLoop now a a' d :
  sortedQueue a → drainLoop cfg now a = (a', d) → sortedQueue a'.
Proof.
  intros [Hs Hh] Hd.
  pose proof (drainLoop_outcome now a) as Ho. rewrite Hd in Ho. simpl in Ho.
  inversion Ho as [Hq|a1 item rest Hq Hw _|a1 item rest Hq Hw _]; subst.
  - done.
  - destruct Hw as [[-> _]|[-> _]]; done.
  - rewrite Hq in Hs, Hh. apply StronglySorted_inv in Hs as [Hs _].
    apply Forall_cons in Hh as [_ Hh].
    destruct Hw as [[-> _]|[-> _]]; done.
Qed.

Lemma sortedQueue_step a e a' :
  sortedQueue a → step cfg e a = Some a' → sortedQueue a'.
Proof.
  intros Hsq Hs.
  destruct e as [dt prio given gen ts now| | |l now|l o now]; simpl in Hs.
  - simplify_eq. unfold enqueue. destruct Hsq as [Hsrt Hh].
    destruct (maxQueueSize cfg <=? pendingCount a)%Z.
    { split; fields; [done|]. eapply Forall_impl; [exact Hh|]. simpl. lia. }
    match goal with |- sortedQueue (processQueue _ _ ?a0) =>
      assert (sortedQueue a0) as Hsq0 end.
    { split; fields.
      - by apply insertByPriority_sorted.
      - rewrite insertByPriority_perm. constructor; [simpl; lia|].
        eapply Forall_impl; [exact Hh|]. simpl. lia. }
    unfold processQueue. destruct (processing _ || _); [done|].
    destruct (drainLoop cfg now _) as [a1 d] eqn:Hd.
    apply (sortedQueue_same a1); [done..|].
    eapply sortedQueue_drainLoop; [|done]. done.
  - simplify_eq. split; fields; constructor.
  - unfold rejectTimer in Hs. destruct (timers a); simplify_eq. done.
  - unfold sleepTimer in Hs. destruct (drains a !! l) as [[due|?|]|]; try done.
    simplify_eq. unfold resume.
    destruct (drainLoop cfg now a) as [a1 d] eqn:Hd.
    apply (sortedQueue_same a1); [done..|]. by eapply sortedQueue_drainLoop.
  - unfold analyzed in Hs. destruct (drains a !! l) as [[?|item|]|]; try done.
    simplify_eq. unfold resume.
    destruct (drainLoop cfg now _) as [a1 d] eqn:Hd.
    apply (sortedQueue_same a1); [done..|].
    eapply sortedQueue_drainLoop; [|done]. done.
Qed.

Lemma reachable_sortedQueue a : reachable cfg a → sortedQueue a.
Proof.
  revert a. apply reachable_ind.
  - intros t0. split; constructor.
  - intros a e a' _. apply sortedQueue_step.
Qed.

(** ** The order of service *)

Lemma serviceOrder_drainLoop now a a' d :
  drainLoop cfg now a = (a', d) → serviceOrder a' = serviceOrder a.
Proof.
  intros Hd. apply drainLoop_frame in Hd as (_ & _ & _ & _ & _ & _ & Hq & Hst).
  unfold serviceOrder. by rewrite Hst, Hq, <- app_assoc.
Qed.

Lemma serviceOrder_same a b :
  trace b = trace a → queue b = queue a → serviceOrder b = serviceOrder a.
Proof. unfold serviceOrder. by intros -> ->. Qed.

Lemma serviceOrder_resume l now a : serviceOrder (resume cfg l now a) = serviceOrder a.
Proof.
  unfold resume. destruct (drainLoop cfg now a) as [a1 d] eqn:Hd.
  apply serviceOrder_drainLoop in Hd. rewrite <- Hd. by apply serviceOrder_same.
Qed.

Lemma serviceOrder_processQueue now a :
  serviceOrder (processQueue cfg now a) = serviceOrder a.
Proof.
  unfold processQueue. destruct (processing a || _); [done|].
  destruct (drainLoop cfg now _) as [a1 d] eqn:Hd.
  apply serviceOrder_drainLoop in Hd.
  transitivity (serviceOrder a1); [by apply serviceOrder_same|].
  rewrite Hd. by apply serviceOrder_same.
Qed.

(** An admitted unit enters the buffer part of the order. *)
Lemma serviceOrder_enqueue dt prio given gen ts now a :
  (pendingCount a < maxQueueSize cfg)%Z →
  serviceOrder (enqueue cfg dt prio given gen ts now a)
  = started (trace a) ++
    map handle (insertByPriority
      {| id := chooseId given gen; priority := clampPriority cfg (default (Finite 0) prio);
         timestamp := ts; data := dt; handle := submitted a |} (queue a)).
Proof.
  intros Hfree. unfold enqueue.
  destruct (maxQueueSize cfg <=? pendingCount a)%Z eqn:Hfull;
    [apply Z.leb_le in Hfull; lia|].
  by rewrite serviceOrder_processQueue.
Qed.

Lemma submitted_step a e a' : step cfg e a = Some a' → submitted a ≤ submitted a'.
Proof.
  intros Hs. destruct e as [dt prio given gen ts now| | |l now|l o now]; simpl in Hs.
  - simplify_eq. unfold enqueue.
    destruct (maxQueueSize cfg <=? pendingCount a)%Z; fields; [lia|].
    unfold processQueue. destruct (processing _ || _); fields; [lia|].
    destruct (drainLoop cfg now _) as [a1 d] eqn:Hd.
    apply drainLoop_frame in Hd as (_ & Hsub & _). fields. lia.
  - simplify_eq. done.
  - unfold rejectTimer in Hs. destruct (timers a); simplify_eq. done.
  - unfold sleepTimer in Hs. destruct (drains a !! l) as [[due|?|]|]; try done.
    simplify_eq. unfold resume.
    destruct (drainLoop cfg now a) as [a1 d] eqn:Hd.
    apply drainLoop_frame in Hd as (_ & Hsub & _). fields. lia.
  - unfold analyzed in Hs. destruct (drains a !! l) as [[?|item|]|]; try done.
    simplify_eq. unfold resume.
    destruct (drainLoop cfg now _) as [a1 d] eqn:Hd.
    apply drainLoop_frame in Hd as (_ & Hsub & _). fields. lia.
Qed.

Lemma prefix_filter (P : nat → Prop) `{!∀ u, Decision (P u)} (l1 l2 : list nat) :
  l1 `prefix_of` l2 → filter P l1 `prefix_of` filter P l2.
Proof. intros [k ->]. rewrite filter_app. by apply prefix_app_r. Qed.

(** Among the units submitted so far, a step keeps the order of service:
    it only cuts it short when [clear] empties the buffer. *)
Lemma serviceOrder_step (P : nat → Prop) `{!∀ u, Decision (P u)} a e a' :
  (∀ u, P u → u < submitted a) →
  step cfg e a = Some a' →
  filter P (serviceOrder a') `prefix_of` filter P (serviceOrder a).
Proof.
  intros HP Hs.
  destruct e as [dt prio given gen ts now| | |l now|l o now]; simpl in Hs.
  - simplify_eq.
    destruct (decide (maxQueueSize cfg ≤ pendingCount a)%Z) as [Hfull|Hfree].
    + unfold enqueue. apply Z.leb_le in Hfull. by rewrite Hfull.
    + rewrite serviceOrder_enqueue by lia.
      destruct (insertByPriority_split
        {| id := chooseId given gen; priority := clampPriority cfg (default (Finite 0) prio);
           timestamp := ts; data := dt; handle := submitted a |} (queue a))
        as (q1 & q2 & Hq & -> & _).
      unfold serviceOrder. rewrite Hq, !map_app, !filter_app. simpl.
      rewrite filter_cons_False; [done|]. intros Hu%HP. lia.
  - simplify_eq. unfold serviceOrder. fields.
    rewrite started_app, started_cleared, !app_nil_r.
    apply prefix_filter. by apply prefix_app_r.
  - unfold rejectTimer in Hs. destruct (timers a); simplify_eq.
    unfold serviceOrder. fields. rewrite started_app. simpl. by rewrite app_nil_r.
  - unfold sleepTimer in Hs. destruct (drains a !! l) as [[due|?|]|]; try done.
    simplify_eq. by rewrite serviceOrder_resume.
  - unfold analyzed in Hs. destruct (drains a !! l) as [[?|item|]|]; try done.
    simplify_eq. rewrite serviceOrder_resume. unfold serviceOrder. fields.
    rewrite started_app. destruct o; simpl; by rewrite app_nil_r.
Qed.

Lemma serviceOrder_run (P : nat → Prop) `{!∀ u, Decision (P u)} es a a' :
  (∀ u, P u → u < submitted a) →
  run cfg es a = Some a' →
  filter P (serviceOrder a') `prefix_of` filter P (serviceOrder a).
Proof.
  revert a. induction es as [|e es IH]; intros a HP Hr; simpl in Hr.
  - by simplify_eq.
  - destruct (step cfg e a) as [a1|] eqn:Hs; [|done].
    transitivity (filter P (serviceOrder a1)).
    + apply IH; [|done]. intros u Hu%HP. apply submitted_step in Hs. lia.
    + by apply serviceOrder_step with e.
Qed.

(** The units that began execution did so in the order of service. *)
Lemma started_run (P : nat → Prop) `{!∀ u, Decision (P u)} es a a' :
  (∀ u, P u → u < submitted a) →
  run cfg es a = Some a' →
  filter P (started (trace a')) `prefix_of` filter P (serviceOrder a).
Proof.
  intros HP Hr. transitivity (filter P (serviceOrder a')).
  - apply prefix_filter. unfold serviceOrder. by apply prefix_app_r.
  - by apply serviceOrder_run with es.
Qed.

(** ** Units in service *)

Lemma worked_sublist_settled tr : worked tr `sublist_of` settled tr.
Proof.
  induction tr as [|o tr IH]; simpl; [done|].
  destruct o as [now|u|u r|u [| |w]]; simpl;
    try done; try (by constructor); by apply sublist_cons.
Qed.

Lemma serviceOrder_units a :
  reachable cfg a →
  NoDup (serviceOrder a) ∧ ∀ u, u ∈ serviceOrder a → u < submitted a.
Proof.
  intros [H1 H2]%reachable_ledger.
  assert (serviceOrder a ≡ₚ map handle (queue a) ++ executing (drains a) ++ worked (trace a))
    as Hso.
  { unfold serviceOrder. rewrite H2. solve_Permutation. }
  assert (map handle (queue a) ++ executing (drains a) ++ worked (trace a)
          ⊆+ seq 0 (submitted a)) as Hsub.
  { rewrite <- H1. apply submseteq_inserts_l.
    apply submseteq_app; [done|]. apply submseteq_app; [done|].
    apply sublist_submseteq, worked_sublist_settled. }
  split.
  - rewrite Hso. apply submseteq_Permutation in Hsub as [k Hk].
    pose proof (NoDup_seq 0 (submitted a)) as Hnd. rewrite Hk in Hnd.
    by apply NoDup_app in Hnd as (? & _).
  - intros u Hu. rewrite Hso in Hu.
    eapply elem_of_submseteq in Hu; [|exact Hsub].
    apply elem_of_seq in Hu. lia.
Qed.

Lemma started_units a :
  reachable cfg a →
  NoDup (started (trace a)) ∧ ∀ u, u ∈ started (trace a) → u < submitted a.
Proof.
  intros [Hnd Hlt]%serviceOrder_units. unfold serviceOrder in *. split.
  - by apply NoDup_app in Hnd as (? & _).
  - intros u Hu. apply Hlt. apply elem_of_app. by left.
Qed.

Lemma queue_units a :
  reachable cfg a →
  NoDup (map handle (queue a)) ∧ ∀ x, x ∈ queue a → handle x < submitted a.
Proof.
  intros [Hnd Hlt]%serviceOrder_units. unfold serviceOrder in *. split.
  - by apply NoDup_app in Hnd as (_ & _ & ?).
  - intros x Hx. apply Hlt. apply elem_of_app. right.
    apply list_elem_of_In, in_map, list_elem_of_In, Hx.
Qed.

(** ** Filtering the buffer *)

Lemma filter_handles (P : nat → Prop) `{!∀ u, Decision (P u)} q :
  filter P (map handle q) = map handle (filter (λ x, P (handle x)) q).
Proof.
  induction q as [|x q IH]; [done|]. simpl. rewrite !filter_cons.
  destruct (decide (P (handle x))); simpl; by rewrite IH.
Qed.

Lemma insertByPriority_front item q :
  Forall (λ y, greater (priority item) (priority y) = true) q →
  insertByPriority item q = item :: q.
Proof.
  destruct q as [|x q]; [done|]. intros [Hx _]%Forall_cons. simpl. by rewrite Hx.
Qed.

Lemma servedBefore_priority x y :
  servedBefore x y → greater (priority y) (priority x) = false.
Proof.
  unfold servedBefore, greater. destruct (priority x), (priority y); try done.
  intros H. apply Z.ltb_ge. lia.
Qed.

(** A number greater than the priority of [x] is greater than the
    priority of every number that [x] is served before. *)
Lemma greater_servedBefore item x y :
  greater (priority item) (priority x) = true →
  servedBefore x y → numeric y →
  greater (priority item) (priority y) = true.
Proof.
  unfold servedBefore, greater, numeric.
  destruct (priority item), (priority x), (priority y); try done.
  intros Hp%Z.ltb_lt Hxy _. apply Z.ltb_lt. lia.
Qed.

(** Leaving other units out commutes with the insertion of a unit that
    stays, in a buffer that is in service order, if the units that stay
    have numbers for priorities. *)
Lemma filter_insertByPriority (P : Item → Prop) `{!∀ x, Decision (P x)} item q :
  StronglySorted servedBefore q → P item →
  (∀ y, y ∈ q → P y → numeric y) →
  filter P (insertByPriority item q) = insertByPriority item (filter P q).
Proof.
  intros Hs Hitem Hnum. induction q as [|x q IH]; simpl.
  - by rewrite filter_cons_True.
  - apply StronglySorted_inv in Hs as [Hs Hx].
    assert (∀ y, y ∈ q → P y → numeric y) as Hnum'
      by (intros y Hy; apply Hnum; by right).
    destruct (greater (priority item) (priority x)) eqn:Hp.
    + rewrite filter_cons_True by done.
      symmetry. apply insertByPriority_front.
      apply list.Forall_forall. intros y [HPy Hy]%list_elem_of_filter.
      apply elem_of_cons in Hy as [->|Hy]; [done|].
      eapply list.Forall_forall in Hx; [|exact Hy].
      eapply greater_servedBefore; [exact Hp|exact Hx|by apply Hnum'].
    + rewrite !(filter_cons _ x). destruct (decide (P x)); simpl.
      * rewrite Hp. f_equal. by apply IH.
      * by apply IH.
Qed.

Lemma filter_nomatch {A} (P : A → Prop) `{!∀ z, Decision (P z)} (k : list A) :
  (∀ z, z ∈ k → ¬ P z) → filter P k = [].
Proof.
  induction k as [|z k IH]; intros Hk; [done|].
  rewrite filter_cons_False by (apply Hk; left).
  apply IH. intros w Hw. apply Hk. by right.
Qed.

Lemma filter_unique {A} (f : A → nat) (P : A → Prop) `{!∀ z, Decision (P z)}
    (k : list A) (elt : A) :
  NoDup (map f k) → elt ∈ k → P elt → (∀ z, z ∈ k → P z → f z = f elt) →
  filter P k = [elt].
Proof.
  induction k as [|z k IH]; intros Hnd Helt HP Hall; [by apply elem_of_nil in Helt|].
  simpl in Hnd. apply NoDup_cons in Hnd as [Hz Hnd].
  assert (∀ w, w ∈ k → f w ∈ map f k) as Hin.
  { intros w Hw. apply list_elem_of_In, in_map, list_elem_of_In, Hw. }
  apply elem_of_cons in Helt as [<-|Helt].
  - rewrite filter_cons_True by done. f_equal. apply filter_nomatch.
    intros w Hw HPw. apply Hz. rewrite <- (Hall w); [by apply Hin|by right|done].
  - rewrite filter_cons_False.
    + apply IH; auto. intros w Hw. apply Hall. by right.
    + intros HPz. apply Hz. rewrite (Hall z); [by apply Hin|by left|done].
Qed.

(** What an admitted submission does to the buffer and to the starts: the
    unit is inserted, and if no activation was alive, a new one may take
    the head of the buffer at once. *)
Lemma drainLoop_queue now a a' d :
  drainLoop cfg now a = (a', d) →
  (queue a' = queue a ∧ started (trace a') = started (trace a)) ∨
  (∃ item, queue a = item :: queue a' ∧
           started (trace a') = started (trace a) ++ [handle item]).
Proof.
  intros Hd. pose proof (drainLoop_outcome now a) as Ho. rewrite Hd in Ho. simpl in Ho.
  inversion Ho as [Hq|a1 item rest Hq Hw _|a1 item rest Hq Hw _]; subst.
  - by left.
  - left. destruct Hw as [[-> _]|[-> _]]; fields; [done|].
    rewrite started_app. simpl. by rewrite app_nil_r.
  - right. exists item. rewrite Hq. destruct Hw as [[-> _]|[-> _]]; fields.
    + by rewrite started_app.
    + rewrite !started_app. simpl. by rewrite app_nil_r.
Qed.

Lemma enqueue_admitted dt prio given gen ts now a :
  (pendingCount a < maxQueueSize cfg)%Z →
  let item := {| id := chooseId given gen;
                 priority := clampPriority cfg (default (Finite 0) prio);
                 timestamp := ts; data := dt; handle := submitted a |} in
  let a' := enqueue cfg dt prio given gen ts now a in
  submitted a' = S (submitted a) ∧
  pendingCount a' = (pendingCount a + 1)%Z ∧
  timers a' = timers a ∧
  ((queue a' = insertByPriority item (queue a) ∧
    started (trace a') = started (trace a)) ∨
   (processing a = false ∧
    ∃ first, insertByPriority item (queue a) = first :: queue a' ∧
             started (trace a') = started (trace a) ++ [handle first])).
Proof.
  intros Hfree item a'. subst a'. unfold enqueue.
  destruct (maxQueueSize cfg <=? pendingCount a)%Z eqn:Hfull;
    [apply Z.leb_le in Hfull; lia|].
  fold item. unfold processQueue. fields.
  destruct (processing a) eqn:Hp; simpl.
  { split_and!; fields; auto. }
  rewrite insertByPriority_length. simpl.
  destruct (drainLoop cfg now _) as [a1 d] eqn:Hd.
  pose proof (drainLoop_frame _ _ _ _ Hd) as (Ht & Hsub & _ & Hpc & _).
  apply drainLoop_queue in Hd as [[Hq Hst]|(first & Hq & Hst)]; fields;
    split_and!; auto.
  right. split; [done|]. by exists first.
Qed.

(** While an activation is alive, an admitted submission only inserts. *)
Lemma enqueue_busy dt prio given gen ts now a :
  (pendingCount a < maxQueueSize cfg)%Z → processing a = true →
  let item := {| id := chooseId given gen;
                 priority := clampPriority cfg (default (Finite 0) prio);
                 timestamp := ts; data := dt; handle := submitted a |} in
  let a' := enqueue cfg dt prio given gen ts now a in
  queue a' = insertByPriority item (queue a) ∧ trace a' = trace a ∧
  drains a' = drains a ∧ requestCount a' = requestCount a ∧
  lastResetTime a' = lastResetTime a.
Proof.
  intros Hfree Hp item a'. subst a'. unfold enqueue.
  destruct (maxQueueSize cfg <=? pendingCount a)%Z eqn:Hfull;
    [apply Z.leb_le in Hfull; lia|].
  unfold processQueue. fields. by rewrite Hp.
Qed.

(** Three submissions in a row, all admitted, the first of the highest
    tier and the second of the lowest: they are served first, third and
    second among themselves. *)
Lemma serviceOrder_three a dA dB dC pA pB pC gA gB gC nA nB nC tA tB tC wA wB wC :
  reachable cfg a →
  (pendingCount a + 3 ≤ maxQueueSize cfg)%Z →
  greater (clampPriority cfg (default (Finite 0) pC))
          (clampPriority cfg (default (Finite 0) pB)) = true →
  greater (clampPriority cfg (default (Finite 0) pC))
          (clampPriority cfg (default (Finite 0) pA)) = false →
  clampPriority cfg (default (Finite 0) pA) ≠ NaN →
  let a1 := enqueue cfg dA pA gA nA tA wA a in
  let a2 := enqueue cfg dB pB gB nB tB wB a1 in
  let a3 := enqueue cfg dC pC gC nC tC wC a2 in
  submitted a3 = submitted a + 3 ∧
  filter (λ u, submitted a ≤ u < submitted a + 3) (serviceOrder a3)
  = [submitted a; submitted a + 2; submitted a + 1].
Proof.
  intros Ha Hcap HBC HCA HA a1 a2 a3.
  set (P := λ u, submitted a ≤ u < submitted a + 3).
  set (P' := λ x : Item, P (handle x)).
  pose proof (enqueue_admitted dA pA gA nA tA wA a ltac:(lia)) as (Hs1 & Hp1 & _ & Hq1).
  pose proof (enqueue_processing dA pA gA nA tA wA a ltac:(lia)) as Hb1.
  fold a1 in Hs1, Hp1, Hq1, Hb1.
  pose proof (enqueue_admitted dB pB gB nB tB wB a1 ltac:(lia)) as (Hs2 & Hp2 & _).
  pose proof (enqueue_busy dB pB gB nB tB wB a1 ltac:(lia) Hb1) as (Hq2 & Ht2 & _).
  pose proof (enqueue_processing dB pB gB nB tB wB a1 ltac:(lia)) as Hb2.
  fold a2 in Hs2, Hp2, Hq2, Ht2, Hb2.
  pose proof (enqueue_admitted dC pC gC nC tC wC a2 ltac:(lia)) as (Hs3 & _).
  pose proof (enqueue_busy dC pC gC nC tC wC a2 ltac:(lia) Hb2) as (Hq3 & Ht3 & _).
  fold a3 in Hs3, Hq3, Ht3.
  split; [lia|].
  assert (reachable cfg a1) as Ha1 by (by apply (reachable_step a (Enqueue dA pA gA nA tA wA))).
  assert (reachable cfg a2) as Ha2 by (by apply (reachable_step a1 (Enqueue dB pB gB nB tB wB))).
  pose proof (reachable_sortedQueue a Ha) as [Hso0 _].
  pose proof (reachable_sortedQueue a1 Ha1) as [Hso1 _].
  pose proof (reachable_sortedQueue a2 Ha2) as [Hso2 _].
  pose proof (started_units a Ha) as [_ Hst0].
  pose proof (queue_units a Ha) as [_ Hqu0].
  pose proof (reachable_flagged a Ha) as [Hoff _].
  assert (greater (clampPriority cfg (default (Finite 0) pB))
                  (clampPriority cfg (default (Finite 0) pA)) = false) as HAB.
  { unfold greater, numeric in *.
    destruct (clampPriority cfg (default (Finite 0) pA)),
             (clampPriority cfg (default (Finite 0) pB)),
             (clampPriority cfg (default (Finite 0) pC)); try done.
    apply Z.ltb_lt in HBC. apply Z.ltb_ge in HCA. apply Z.ltb_ge. lia. }
  assert (clampPriority cfg (default (Finite 0) pB) ≠ NaN) as HB.
  { intros Hn. rewrite Hn in HBC. unfold greater in HBC.
    by destruct (clampPriority cfg (default (Finite 0) pC)). }
  assert (∀ y, y ∈ queue a → P' y → numeric y) as Hn0.
  { intros y Hy%Hqu0 Hpy. unfold P', P in Hpy. lia. }
  assert (filter P (started (trace a)) = []) as Hf0.
  { apply filter_nomatch. intros u Hu%Hst0 Hpu. unfold P in Hpu. lia. }
  assert (filter P' (queue a) = []) as Hfq0.
  { apply filter_nomatch. intros x Hx%Hqu0 Hpx. unfold P', P in Hpx. lia. }
  set (iA := Build_QueueItem (chooseId gA nA) (clampPriority cfg (default (Finite 0) pA))
               tA dA (submitted a)) in *.
  assert (∀ y, y ∈ queue a1 → P' y → numeric y) as Hn1.
  { intros y Hy Hpy. destruct Hq1 as [[Hq1 _]|(_ & first & Hq1 & _)].
    - rewrite Hq1, insertByPriority_perm in Hy.
      apply elem_of_cons in Hy as [->|Hy]; [done|by apply Hn0].
    - assert (y ∈ insertByPriority iA (queue a)) as Hy'
        by (rewrite Hq1; by right).
      rewrite insertByPriority_perm in Hy'.
      apply elem_of_cons in Hy' as [->|Hy']; [done|by apply Hn0]. }
  assert (∀ y, y ∈ queue a2 → P' y → numeric y) as Hn2.
  { intros y Hy Hpy. rewrite Hq2, insertByPriority_perm in Hy.
    apply elem_of_cons in Hy as [->|Hy]; [done|by apply Hn1]. }
  unfold serviceOrder. rewrite Ht3, Ht2, Hq3, filter_app, filter_handles.
  fold P'. rewrite filter_insertByPriority; [|done|unfold P', P; simpl; lia|done].
  rewrite Hq2, filter_insertByPriority; [|done|unfold P', P; simpl; lia|done].
  destruct Hq1 as [[Hq1 Hst1]|(Hidle & first & Hq1 & Hst1)].
  - rewrite Hst1, Hf0, Hq1, filter_insertByPriority; [|done|unfold P', P; simpl; lia|done].
    rewrite Hfq0. simpl. rewrite HAB. simpl. rewrite HCA, HBC. simpl.
    rewrite Hs2, Hs1. repeat f_equal; lia.
  - rewrite (Hoff Hidle) in Hq1. simpl in Hq1. simplify_eq.
    rewrite Hst1, filter_app, Hf0. rewrite <- H0. simpl. rewrite HBC. simpl.
    rewrite filter_cons_True by (unfold P; lia). rewrite filter_nil.
    rewrite Hs2, Hs1. simpl. repeat f_equal; lia.
Qed.

(** A newcomer is served after every unit that began execution and after
    every queued unit of its own or a higher tier. *)
Lemma serviceOrder_newcomer a dt prio given gen ts now u :
  reachable cfg a →
  (pendingCount a < maxQueueSize cfg)%Z →
  (u ∈ started (trace a) ∨
   ∃ x, x ∈ queue a ∧ handle x = u ∧ numeric x ∧
        greater (clampPriority cfg (default (Finite 0) prio)) (priority x) = false) →
  filter (λ v, v = u ∨ v = submitted a)
         (serviceOrder (enqueue cfg dt prio given gen ts now a))
  = [u; submitted a].
Proof.
  intros Ha Hfree Hu.
  pose proof (serviceOrder_units a Ha) as [Hnd Hlt].
  pose proof (reachable_sortedQueue a Ha) as [Hso _].
  rewrite serviceOrder_enqueue by done. unfold serviceOrder in Hnd, Hlt.
  apply NoDup_app in Hnd as (Hnd1 & Hdisj & Hnd2).
  rewrite filter_app, filter_handles.
  rewrite filter_insertByPriority; [|done|by right|].
  2:{ intros y Hy [Hh|Hh].
      - destruct Hu as [Hu|(x & Hx & Hxu & Hnx & _)].
        + destruct (Hdisj u Hu). rewrite <- Hh.
          apply list_elem_of_In, in_map, list_elem_of_In, Hy.
        + assert (y = x) as ->; [|done].
          assert (handle y = handle x) as Heq by congruence.
          clear -Hnd2 Hy Hx Heq. induction (queue a) as [|z q IH]; [by apply elem_of_nil in Hy|].
          simpl in Hnd2. apply NoDup_cons in Hnd2 as [Hz Hnd2].
          assert (∀ w, w ∈ q → handle w ∈ map handle q) as Hin
            by (intros w Hw; apply list_elem_of_In, in_map, list_elem_of_In, Hw).
          apply elem_of_cons in Hy as [->|Hy], Hx as [->|Hx]; auto.
          * destruct Hz. rewrite Heq. by apply Hin.
          * destruct Hz. rewrite <- Heq. by apply Hin.
      - assert (handle y < submitted a); [|lia]. apply Hlt, elem_of_app. right.
        apply list_elem_of_In, in_map, list_elem_of_In, Hy. }
  destruct Hu as [Hu|(x & Hx & <- & Hnx & Hp)].
  - rewrite (filter_unique (λ v : nat, v) _ _ u); rewrite ?map_id; auto.
    + rewrite filter_nomatch; [done|]. intros x Hx [Hh|Hh].
      * apply (Hdisj u Hu). rewrite <- Hh.
        apply list_elem_of_In, in_map, list_elem_of_In, Hx.
      * assert (handle x < submitted a); [|lia]. apply Hlt, elem_of_app. right.
        apply list_elem_of_In, in_map, list_elem_of_In, Hx.
    + intros v Hv [-> | ->]; [done|].
      assert (submitted a < submitted a); [|lia]. apply Hlt, elem_of_app. by left.
  - assert (handle x ∈ map handle (queue a)) as Hin
      by apply list_elem_of_In, in_map, list_elem_of_In, Hx.
    rewrite filter_nomatch.
    + rewrite (filter_unique handle _ _ x); auto.
      * simpl. by rewrite Hp.
      * intros y Hy [Hh|Hh]; [done|].
        assert (handle y < submitted a); [|lia]. apply Hlt, elem_of_app. right.
        apply list_elem_of_In, in_map, list_elem_of_In, Hy.
    + intros v Hv [-> | ->].
      * by apply (Hdisj (handle x)).
      * assert (submitted a < submitted a); [|lia]. apply Hlt, elem_of_app. by left.
Qed.

(** The first submission to an idle analyzer starts the drain loop, which
    takes the unit at once if the rate window admits a start, and goes to
    sleep with the unit still queued if it does not. *)
Lemma enqueue_idle dt prio given gen ts now a :
  processing a = false → queue a = [] →
  (pendingCount a < maxQueueSize cfg)%Z →
  let item := {| id := chooseId given gen;
                 priority := clampPriority cfg (default (Finite 0) prio);
                 timestamp := ts; data := dt; handle := submitted a |} in
  let a' := enqueue cfg dt prio given gen ts now a in
  let admits := ((1000 ≤ now - lastResetTime a)%Z ∧ (0 < requestsPerSecond cfg)%Z) ∨
                ((now - lastResetTime a < 1000)%Z ∧
                 (requestCount a < requestsPerSecond cfg)%Z) in
  (admits → queue a' = [] ∧ started (trace a') = started (trace a) ++ [submitted a]) ∧
  (¬ admits → queue a' = [item] ∧ started (trace a') = started (trace a)).
Proof.
  intros Hp Hq Hfree item a' admits. subst a' admits. unfold enqueue.
  destruct (maxQueueSize cfg <=? pendingCount a)%Z eqn:Hfull;
    [apply Z.leb_le in Hfull; lia|].
  fold item. unfold processQueue. fields. rewrite Hp, Hq. simpl.
  match goal with |- context [drainLoop cfg now ?a0] =>
    pose proof (drainLoop_outcome now a0) as Ho;
    destruct (drainLoop cfg now a0) as [a1 d] end.
  simpl in Ho.
  inversion Ho as [Hq1|a2 first rest Hq1 Hw Hr|a2 first rest Hq1 Hw Hr];
    subst; fields; simplify_eq.
  - destruct Hw as [[-> ?]|[-> ?]]; fields; (split; [lia|]); intros _;
      rewrite ?started_app; simpl; by rewrite ?app_nil_r.
  - destruct Hw as [[-> ?]|[-> ?]]; fields; (split; [|lia]); intros _;
      rewrite ?started_app; simpl; by rewrite ?app_nil_r.
Qed.

(** C3 (amended).  With three priority levels and room for three more
    units, submit low (0), high (2) and medium (1) in a row to an analyzer
    that is idle, its buffer empty.  The first submission starts the drain
    loop.  If the rate window admits a start at that moment, as it always
    does on a fresh analyzer with a limit of at least one, low is taken
    from the buffer within its own submission, high and medium are queued
    behind it, and the three begin execution in the order low, high,
    medium.  Only if the window is exhausted at that moment does the loop
    go to sleep with low still queued; the buffer is then high, medium,
    low, and that is the order in which they begin execution. *)
Theorem idle_queue_start_order a dL dH dM gL gH gM nL nH nM tL tH tM wL wH wM :
  reachable cfg a →
  processing a = false →
  priorityLevels cfg = 3%Z →
  (pendingCount a + 3 ≤ maxQueueSize cfg)%Z →
  let a3 : State :=
    enqueue cfg dM (Some (Finite 1)) gM nM tM wM
      (enqueue cfg dH (Some (Finite 2)) gH nH tH wH
         (enqueue cfg dL (Some (Finite 0)) gL nL tL wL a)) in
  let low := submitted a in
  let high := submitted a + 1 in
  let medium := submitted a + 2 in
  let admits := ((1000 ≤ wL - lastResetTime a)%Z ∧ (0 < requestsPerSecond cfg)%Z) ∨
                ((wL - lastResetTime a < 1000)%Z ∧
                 (requestCount a < requestsPerSecond cfg)%Z) in
  (admits →
     started (trace a3) = started (trace a) ++ [low] ∧
     map handle (queue a3) = [high; medium] ∧
     ∀ es a', run cfg es a3 = Some a' →
       filter (λ u, low ≤ u < low + 3) (started (trace a'))
         `prefix_of` [low; high; medium]) ∧
  (¬ admits →
     started (trace a3) = started (trace a) ∧
     map handle (queue a3) = [high; medium; low] ∧
     ∀ es a', run cfg es a3 = Some a' →
       filter (λ u, low ≤ u < low + 3) (started (trace a'))
         `prefix_of` [high; medium; low]).
Proof.
  intros Ha Hidle Hlev Hcap a3 low high medium admits. subst a3.
  set (a1 := enqueue cfg dL (Some (Finite 0)) gL nL tL wL a).
  set (a2 := enqueue cfg dH (Some (Finite 2)) gH nH tH wH a1).
  set (a3 := enqueue cfg dM (Some (Finite 1)) gM nM tM wM a2).
  pose proof (reachable_flagged a Ha) as [Hoff _]. specialize (Hoff Hidle).
  pose proof (enqueue_idle dL (Some (Finite 0)) gL nL tL wL a Hidle Hoff ltac:(lia)) as [Hyes Hno].
  pose proof (enqueue_admitted dL (Some (Finite 0)) gL nL tL wL a ltac:(lia)) as (Hs1 & Hp1 & _).
  pose proof (enqueue_processing dL (Some (Finite 0)) gL nL tL wL a ltac:(lia)) as Hb1.
  fold a1 in Hyes, Hno, Hs1, Hp1, Hb1.
  pose proof (enqueue_admitted dH (Some (Finite 2)) gH nH tH wH a1 ltac:(lia)) as (Hs2 & Hp2 & _).
  pose proof (enqueue_busy dH (Some (Finite 2)) gH nH tH wH a1 ltac:(lia) Hb1) as (Hq2 & Ht2 & _).
  pose proof (enqueue_processing dH (Some (Finite 2)) gH nH tH wH a1 ltac:(lia)) as Hb2.
  fold a2 in Hs2, Hp2, Hq2, Ht2, Hb2.
  pose proof (enqueue_admitted dM (Some (Finite 1)) gM nM tM wM a2 ltac:(lia)) as (Hs3 & _).
  pose proof (enqueue_busy dM (Some (Finite 1)) gM nM tM wM a2 ltac:(lia) Hb2) as (Hq3 & Ht3 & _).
  fold a3 in Hs3, Hq3, Ht3.
  pose proof (started_units a Ha) as [_ Hold].
  assert (filter (λ u, low ≤ u < low + 3) (started (trace a)) = []) as Hnone.
  { apply filter_nomatch. intros u Hu%Hold. subst low. lia. }
  assert (∀ u, low ≤ u < low + 3 → u < submitted a3) as Hin
    by (intros u; rewrite Hs3, Hs2, Hs1; subst low; lia).
  split; intros Hadm.
  - destruct (Hyes Hadm) as [Hq1 Hst1].
    assert (started (trace a3) = started (trace a) ++ [low] ∧
            map handle (queue a3) = [high; medium]) as [Hst Hq].
    { rewrite Ht3, Ht2, Hst1, Hq3, Hq2, Hq1. unfold clampPriority. rewrite Hlev. simpl.
      rewrite Hs2, Hs1. subst low high medium. split; [done|]. repeat f_equal; lia. }
    split_and!; [done..|]. intros es a' Hr.
    replace [low; high; medium]
      with (filter (λ u, low ≤ u < low + 3) (serviceOrder a3)).
    { by eapply started_run. }
    unfold serviceOrder. rewrite Hst, Hq, !filter_app, Hnone.
    subst high medium. simpl.
    rewrite !filter_cons_True, filter_nil by lia. done.
  - destruct (Hno Hadm) as [Hq1 Hst1].
    assert (started (trace a3) = started (trace a) ∧
            map handle (queue a3) = [high; medium; low]) as [Hst Hq].
    { rewrite Ht3, Ht2, Hst1, Hq3, Hq2, Hq1. unfold clampPriority. rewrite Hlev. simpl.
      rewrite Hs2, Hs1. subst low high medium. split; [done|]. repeat f_equal; lia. }
    split_and!; [done..|]. intros es a' Hr.
    replace [high; medium; low]
      with (filter (λ u, low ≤ u < low + 3) (serviceOrder a3)).
    { by eapply started_run. }
    unfold serviceOrder. rewrite Hst, Hq, !filter_app, Hnone.
    subst high medium. simpl.
    rewrite !filter_cons_True, filter_nil by lia. done.
Qed.

(** ** Settling *)

Lemma weight_insert ds l d0 d :
  ds !! l = Some d0 →
  drainWeight d0 + sum_list_with drainWeight (<[l:=d]> ds)
  = drainWeight d + sum_list_with drainWeight ds.
Proof.
  intros Hl. rewrite insert_take_drop by (by eapply lookup_lt_Some).
  rewrite <- (take_drop_middle ds l d0) at 3 by done.
  rewrite !sum_list_with_app. simpl. lia.
Qed.

Lemma active_executing ds : active ds = 0 → executing ds = [].
Proof. induction ds as [|[] ds IH]; simpl; intros; try done; by apply IH. Qed.

(** Resuming an activation makes progress: unless a sleeper is woken
    before the window has rolled over. *)
Lemma backlog_resume l now a d0 :
  (0 < requestsPerSecond cfg)%Z →
  drains a !! l = Some d0 →
  match d0 with
  | Sleeping _ => (1000 ≤ now - lastResetTime a)%Z
  | Executing _ => True
  | Returned => False
  end →
  backlog (resume cfg l now a) < backlog a.
Proof.
  intros Hrps Hl Hd0. unfold resume.
  pose proof (drainLoop_outcome now a) as Ho.
  destruct (drainLoop cfg now a) as [a1 d] eqn:Hd. simpl in Ho.
  pose proof (drainLoop_frame _ _ _ _ Hd) as (Ht & _ & Hdr & _).
  pose proof (weight_insert _ _ _ d Hl) as Hw.
  unfold backlog. fields. rewrite Ht, Hdr.
  inversion Ho as [Hq|a2 item rest Hq Hwin Hr|a2 item rest Hq Hwin Hr]; subst; fields.
  - destruct d0; simpl in *; [lia|lia|done].
  - assert (length (queue a1) = length (queue a)) as ->
      by (destruct Hwin as [[-> _]|[-> _]]; done).
    destruct d0; simpl in *; [|lia|done].
    destruct Hwin as [[-> ?]|[-> ?]]; fields; lia.
  - rewrite Hq. simpl. destruct d0; simpl in *; [lia|lia|done].
Qed.

Lemma nextEvent_None work clock a : nextEvent work clock a = None → quiescent a.
Proof.
  unfold nextEvent, quiescent. destruct (timers a); [|done].
  destruct (list_find _ _) as [[l d]|] eqn:Hf.
  - apply list_find_Some in Hf as (_ & Hd & _). by destruct d.
  - intros _. split; [done|]. apply list_find_None in Hf.
    induction Hf as [|d ds Hd _ IH]; [done|]. by destruct d.
Qed.

Lemma nextEvent_step work clock a e :
  (0 < requestsPerSecond cfg)%Z →
  nextEvent work clock a = Some e →
  ∃ a', step cfg e a = Some a' ∧ backlog a' < backlog a ∧
        submitted a' = submitted a ∧ internal e = true ∧
        (clock ≤ eventTime clock e)%Z ∧ timely a e.
Proof.
  intros Hrps. unfold nextEvent. destruct (timers a) as [|u ts] eqn:Ht.
  - destruct (list_find _ _) as [[l d]|] eqn:Hf; [|done].
    apply list_find_Some in Hf as (Hl & Hd & _).
    destruct d as [due|item|]; [| |done]; intros ?; simplify_eq; simpl.
    + unfold sleepTimer. rewrite Hl.
      eexists. split_and!; [done| | |done|lia|].
      * eapply backlog_resume; [done..|]. simpl. lia.
      * unfold resume. destruct (drainLoop cfg _ a) as [a1 d] eqn:Hdl.
        by apply drainLoop_frame in Hdl as (_ & ? & _).
      * exists due. split; [done|lia].
    + unfold analyzed. rewrite Hl. eexists. split_and!; [done| | |done|lia|done].
      * eapply Nat.lt_le_trans; [eapply backlog_resume; [done..|] |]; done.
      * unfold resume. destruct (drainLoop cfg _ _) as [a1 d] eqn:Hdl.
        by apply drainLoop_frame in Hdl as (_ & ? & _).
  - intros ?; simplify_eq. simpl. unfold rejectTimer. rewrite Ht.
    eexists. split_and!; [done| |done..|lia|done]. unfold backlog. fields. rewrite Ht. simpl. lia.
Qed.

(** The scheduler drains everything there is. *)
Lemma settle_quiescent work fuel clock a :
  (0 < requestsPerSecond cfg)%Z →
  backlog a ≤ fuel →
  ∃ a', run cfg (settle cfg work fuel clock a) a = Some a' ∧
        quiescent a' ∧ submitted a' = submitted a ∧
        Forall (λ e, internal e = true) (settle cfg work fuel clock a) ∧
        monotone clock (settle cfg work fuel clock a) ∧
        timelyRun cfg (settle cfg work fuel clock a) a.
Proof.
  intros Hrps. revert clock a. induction fuel as [|fuel IH]; intros clock a Hfuel; simpl.
  - exists a. split_and!; auto.
    destruct (nextEvent work clock a) as [e|] eqn:He.
    + apply nextEvent_step in He as (a' & _ & Hlt & _); [lia|done].
    + by eapply nextEvent_None.
  - destruct (nextEvent work clock a) as [e|] eqn:He.
    + apply nextEvent_step in He as (a' & Hs & Hlt & Hsub & Hint & Hmono & Htime); [|done].
      rewrite Hs. simpl. rewrite Hs.
      destruct (IH (eventTime clock e) a' ltac:(lia))
        as (a'' & Hr & Hq & Hsub' & Hall & Hm & Ht).
      exists a''. split_and!; auto. congruence.
    + exists a. split_and!; auto; simpl; auto. by eapply nextEvent_None.
Qed.

(** Once nothing is pending, every unit has had exactly one callback. *)
Lemma quiescent_settled a :
  reachable cfg a → quiescent a → settled (trace a) ≡ₚ seq 0 (submitted a).
Proof.
  intros Ha [Ht Hact].
  pose proof (reachable_ledger a Ha) as [H1 _].
  pose proof (reachable_flagged a Ha) as [Hoff Hon].
  assert (queue a = []) as Hq.
  { destruct (processing a) eqn:Hp; [|by apply Hoff]. specialize (Hon eq_refl). lia. }
  by rewrite Ht, Hq, (active_executing _ Hact) in H1.
Qed.

(** ** The trace only grows *)

Lemma trace_drainLoop now a a' d :
  drainLoop cfg now a = (a', d) → trace a `prefix_of` trace a'.
Proof.
  intros Hd. pose proof (drainLoop_outcome now a) as Ho. rewrite Hd in Ho. simpl in Ho.
  inversion Ho as [Hq|a1 item rest Hq Hw _|a1 item rest Hq Hw _]; subst;
    [|destruct Hw as [[-> _]|[-> _]]..]; fields; try done;
    rewrite <- ?app_assoc; by apply prefix_app_r.
Qed.

Lemma trace_step a e a' : step cfg e a = Some a' → trace a `prefix_of` trace a'.
Proof.
  intros Hs. destruct e as [dt prio given gen ts now| | |l now|l o now]; simpl in Hs.
  - simplify_eq. unfold enqueue.
    destruct (maxQueueSize cfg <=? pendingCount a)%Z; [done|].
    unfold processQueue. destruct (processing _ || _); [done|].
    destruct (drainLoop cfg now _) as [a1 d] eqn:Hd.
    by apply trace_drainLoop in Hd.
  - simplify_eq. by apply prefix_app_r.
  - unfold rejectTimer in Hs. destruct (timers a); simplify_eq. by apply prefix_app_r.
  - unfold sleepTimer in Hs. destruct (drains a !! l) as [[due|?|]|]; try done.
    simplify_eq. unfold resume.
    destruct (drainLoop cfg now a) as [a1 d] eqn:Hd. by apply trace_drainLoop in Hd.
  - unfold analyzed in Hs. destruct (drains a !! l) as [[?|item|]|]; try done.
    simplify_eq. unfold resume.
    destruct (drainLoop cfg now _) as [a1 d] eqn:Hd. apply trace_drainLoop in Hd.
    fields. etransitivity; [|exact Hd]. by apply prefix_app_r.
Qed.

Lemma trace_run es a a' : run cfg es a = Some a' → trace a `prefix_of` trace a'.
Proof.
  revert a. induction es as [|e es IH]; intros a Hr; simpl in Hr.
  - by simplify_eq.
  - destruct (step cfg e a) as [a1|] eqn:Hs; [|done].
    etransitivity; [by eapply trace_step|by apply IH].
Qed.

(** ** The calls of [enqueue] *)

Lemma submissions_app u (es1 es2 : list Ev) :
  submissions cfg u (es1 ++ es2)
  = submissions cfg u es1 ++ submissions cfg (u + length (submissions cfg u es1)) es2.
Proof.
  revert u. induction es1 as [|e es1 IH]; intros u; simpl.
  - by rewrite Nat.add_0_r.
  - destruct e; simpl; rewrite IH; try done. do 3 f_equal. lia.
Qed.

Lemma submissions_lookup u (es : list Ev) k item :
  submissions cfg u es !! k = Some item →
  handle item = u + k ∧
  ∃ dt prio given gen ts now,
    Enqueue dt prio given gen ts now ∈ es ∧ item = newItem cfg dt prio given gen ts (u + k).
Proof.
  revert u k. induction es as [|e es IH]; intros u k Hk; simpl in Hk; [done|].
  assert (submissions cfg u es !! k = Some item →
          handle item = u + k ∧ ∃ dt prio given gen ts now,
            Enqueue dt prio given gen ts now ∈ e :: es ∧
            item = newItem cfg dt prio given gen ts (u + k)) as Hskip.
  { intros (Hh & dt & prio & given & gen & ts & now & Hin & Hi)%IH. split; [done|].
    exists dt, prio, given, gen, ts, now. split; [by right|done]. }
  destruct e as [dt prio given gen ts now| | |l now|l o now]; try by apply Hskip.
  destruct k as [|k]; simpl in Hk.
  - simplify_eq. rewrite Nat.add_0_r. split; [done|].
    exists dt, prio, given, gen, ts, now. split; [by left|done].
  - apply IH in Hk as (Hh & dt' & prio' & given' & gen' & ts' & now' & Hin & Hi).
    replace (u + S k) with (S u + k) by lia. split; [done|].
    exists dt', prio', given', gen', ts', now'. split; [by right|done].
Qed.

Lemma runsAs_app (work : Item → Result + Failure → Prop) es1 es2 a a1 :
  run cfg es1 a = Some a1 →
  runsAs work cfg (es1 ++ es2) a → runsAs work cfg es1 a ∧ runsAs work cfg es2 a1.
Proof.
  revert a. induction es1 as [|e es1 IH]; intros a Hr; simpl in *.
  - by simplify_eq.
  - destruct (step cfg e a) as [a0|] eqn:Hs; [|done].
    intros [Hw Hrest]. destruct (IH a0 Hr Hrest). done.
Qed.

Lemma drainLoop_quiet now a a' d :
  drainLoop cfg now a = (a', d) →
  ∃ extra, trace a' = trace a ++ extra ∧ Forall (λ o, delivered o = None) extra.
Proof.
  intros Hd. pose proof (drainLoop_outcome now a) as Ho. rewrite Hd in Ho. simpl in Ho.
  inversion Ho as [Hq|a1 item rest Hq Hw _|a1 item rest Hq Hw _]; subst;
    [|destruct Hw as [[-> _]|[-> _]]..]; fields.
  - exists []. by rewrite app_nil_r.
  - exists []. by rewrite app_nil_r.
  - exists [WindowReset now]. split; [done|]. by repeat constructor.
  - exists [Started (handle item)]. split; [done|]. by repeat constructor.
  - exists [WindowReset now; Started (handle item)].
    rewrite <- app_assoc. split; [done|]. by repeat constructor.
Qed.

Lemma drainLoop_items now a a' d :
  drainLoop cfg now a = (a', d) →
  queue a' ⊆ queue a ∧ ∀ item, d = Executing item → item ∈ queue a.
Proof.
  intros Hd. pose proof (drainLoop_outcome now a) as Ho. rewrite Hd in Ho. simpl in Ho.
  inversion Ho as [Hq|a1 item rest Hq Hw _|a1 item rest Hq Hw _]; subst.
  - done.
  - split; [|done]. by destruct Hw as [[-> _]|[-> _]].
  - split.
    + fields. rewrite Hq. intros x Hx. by right.
    + intros ? [= <-]. rewrite Hq. by left.
Qed.

(** Along a run: the counter [submitted] is the number of calls of
    [enqueue], every unit held is the item of the call it is numbered by,
    and what the callbacks received from [analyzeItem] is an outcome of
    the work on that item. *)
Lemma submissions_invariant (work : Item → Result + Failure → Prop) t0 es a :
  run cfg es (create t0) = Some a →
  runsAs work cfg es (create t0) →
  submitted a = length (submissions cfg 0 es) ∧
  Forall (λ item, submissions cfg 0 es !! handle item = Some item) (queue a) ∧
  (∀ l item, drains a !! l = Some (Executing item) →
     submissions cfg 0 es !! handle item = Some item) ∧
  Forall (λ o, ∀ u w, delivered o = Some (u, w) →
            ∃ item, submissions cfg 0 es !! u = Some item ∧ work item w) (trace a).
Proof.
  intros Hr Hw.
  set (known (es' : list Ev) (item : Item) := submissions cfg 0 es' !! handle item = Some item).
  set (judged (es' : list Ev) (o : Observation Result Failure) :=
         ∀ u w, delivered o = Some (u, w) →
           ∃ item, submissions cfg 0 es' !! u = Some item ∧ work item w).
  change (submitted a = length (submissions cfg 0 es) ∧
          Forall (known es) (queue a) ∧
          (∀ l item, drains a !! l = Some (Executing item) → known es item) ∧
          Forall (judged es) (trace a)).
  revert a Hr Hw. induction es as [|e es IH] using rev_ind; intros a Hr Hw.
  - simpl in Hr. simplify_eq. split_and!; [done|constructor|done|constructor].
  - rewrite run_app in Hr. destruct (run cfg es (create t0)) as [a0|] eqn:H0; [|done].
    simpl in Hr. destruct (step cfg e a0) as [a1|] eqn:Hs; [|done]. simplify_eq.
    destruct (runsAs_app work es [e] (create t0) a0 H0 Hw) as [Hw0 [Hwe _]].
    destruct (IH a0 eq_refl Hw0) as (Hsub & Hq & Hds & Htr). clear IH Hw Hw0 H0.
    assert (∀ item, known es item → known (es ++ [e]) item) as Hk.
    { intros item Hi. unfold known. rewrite submissions_app.
      by apply lookup_app_l_Some. }
    assert (∀ o, judged es o → judged (es ++ [e]) o) as Hjm.
    { intros o Ho u w (item & Hi & Hwi)%Ho. exists item. split; [|done].
      rewrite submissions_app. by apply lookup_app_l_Some. }
    assert (∀ extra : list (Observation Result Failure),
              Forall (λ o, delivered o = None) extra →
              Forall (judged (es ++ [e])) extra) as Hquiet.
    { intros extra He. eapply Forall_impl; [exact He|].
      intros o Ho u w. by rewrite Ho. }
    assert (Forall (known (es ++ [e])) (queue a0)) as Hq'
      by (eapply Forall_impl; [exact Hq|exact Hk]).
    assert (Forall (judged (es ++ [e])) (trace a0)) as Htr'
      by (eapply Forall_impl; [exact Htr|exact Hjm]).
    assert (∀ l item, drains a0 !! l = Some (Executing item) → known (es ++ [e]) item)
      as Hds' by (intros l item Hl; eapply Hk, Hds; done).
    assert (∀ l now b, Forall (known (es ++ [e])) (queue b) →
              (∀ l' item, drains b !! l' = Some (Executing item) → known (es ++ [e]) item) →
              Forall (judged (es ++ [e])) (trace b) →
              Forall (known (es ++ [e])) (queue (resume cfg l now b)) ∧
              (∀ l' item, drains (resume cfg l now b) !! l' = Some (Executing item) →
                 known (es ++ [e]) item) ∧
              Forall (judged (es ++ [e])) (trace (resume cfg l now b))) as Hres.
    { intros l now b Hbq Hbd Hbt. unfold resume.
      destruct (drainLoop cfg now b) as [b1 d] eqn:Hd.
      pose proof (drainLoop_frame _ _ _ _ Hd) as (_ & _ & Hdr & _).
      destruct (drainLoop_items _ _ _ _ Hd) as [Hsubq Hit].
      destruct (drainLoop_quiet _ _ _ _ Hd) as (extra & Hex & Hqu). fields.
      split_and!.
      - apply Forall_forall. intros x Hx%Hsubq. by eapply Forall_forall in Hbq.
      - intros l' item Hl'. rewrite Hdr in Hl'.
        destruct (decide (l' = l)) as [->|Hne].
        + destruct (decide (l < length (drains b))) as [Hlt|Hge].
          * rewrite list_lookup_insert_eq in Hl' by done. simplify_eq.
            eapply Forall_forall in Hbq; [done|]. by apply Hit.
          * rewrite list_insert_ge in Hl' by lia. by eapply Hbd.
        + rewrite list_lookup_insert_ne in Hl' by done. by eapply Hbd.
      - rewrite Hex. apply Forall_app. split; [done|]. by apply Hquiet. }
    assert (submitted a = length (submissions cfg 0 (es ++ [e])) ∧
            Forall (known (es ++ [e])) (queue a) ∧
            (∀ l item, drains a !! l = Some (Executing item) → known (es ++ [e]) item) ∧
            Forall (judged (es ++ [e])) (trace a)); [|done].
    destruct e as [dt prio given gen ts now| | |l now|l o now]; simpl in Hs.
    + simplify_eq. unfold enqueue.
      assert (submissions cfg 0 (es ++ [Enqueue dt prio given gen ts now])
              = submissions cfg 0 es ++ [newItem cfg dt prio given gen ts (submitted a0)])
        as Hnew by (rewrite submissions_app; simpl; by rewrite Hsub).
      assert (length (submissions cfg 0 (es ++ [Enqueue dt prio given gen ts now]))
              = S (submitted a0)) as Hlen.
      { rewrite Hnew, length_app. simpl. lia. }
      destruct (maxQueueSize cfg <=? pendingCount a0)%Z; fields; [done|].
      set (item := Build_QueueItem _ _ _ _ _).
      assert (Forall (known (es ++ [Enqueue dt prio given gen ts now]))
                (insertByPriority item (queue a0))) as Hq1.
      { rewrite insertByPriority_perm. constructor; [|done].
        unfold known. rewrite Hnew. simpl. rewrite lookup_app_r by lia.
        by replace (submitted a0 - length (submissions cfg 0 es)) with 0 by lia. }
      unfold processQueue. destruct (processing _ || _); fields; [done|].
      destruct (drainLoop cfg now _) as [a1 d] eqn:Hd.
      pose proof (drainLoop_frame _ _ _ _ Hd) as (_ & Hs1 & Hdr & _).
      destruct (drainLoop_items _ _ _ _ Hd) as [Hsubq Hit].
      destruct (drainLoop_quiet _ _ _ _ Hd) as (extra & Hex & Hqu). fields.
      split_and!.
      * by rewrite Hs1.
      * apply Forall_forall. intros x Hx%Hsubq. by eapply Forall_forall in Hq1.
      * intros l it Hl. rewrite Hdr in Hl.
        apply lookup_app_Some in Hl as [Hl|[_ Hl]]; [by eapply Hds'|].
        destruct (l - length (drains a0)) as [|k]; simpl in Hl; [|done].
        simplify_eq. eapply Forall_forall in Hq1; [done|]. by apply Hit.
      * rewrite Hex. apply Forall_app. split; [done|]. by apply Hquiet.
    + simplify_eq. fields. rewrite submissions_app. simpl. rewrite app_nil_r.
      split_and!; [done|constructor|done|].
      apply Forall_app. split; [done|]. apply Hquiet.
      apply Forall_forall. by intros o (x & -> & _)%list_elem_of_fmap.
    + unfold rejectTimer in Hs. destruct (timers a0); simplify_eq. fields.
      rewrite submissions_app. simpl. rewrite app_nil_r.
      split_and!; [done..|]. apply Forall_app. split; [done|]. apply Hquiet.
      by repeat constructor.
    + unfold sleepTimer in Hs. destruct (drains a0 !! l) as [[due|?|]|] eqn:Hl; try done.
      simplify_eq. destruct (Hres l now a0) as (H1 & H2 & H3); [done..|].
      split_and!; [|done..]. rewrite submissions_app. simpl. rewrite app_nil_r.
      rewrite <- Hsub. unfold resume. destruct (drainLoop cfg now a0) as [a1 d] eqn:Hd.
      apply drainLoop_frame in Hd as (_ & Hs1 & _). fields. by rewrite Hs1.
    + unfold analyzed in Hs. destruct (drains a0 !! l) as [[?|item|]|] eqn:Hl; try done.
      simplify_eq. destruct Hwe as (item' & Hl' & Hwork).
      rewrite Hl in Hl'. injection Hl' as <-.
      destruct (Hres l now (set_pendingCount (pendingCount a0 - 1)
                              (observe (deliver (handle item) o) a0)))
        as (H1 & H2 & H3); [done|done| |].
      * fields. apply Forall_app. split; [done|]. constructor; [|constructor].
        intros u w Hdel. exists item. specialize (Hds' _ _ Hl).
        destruct o; simpl in Hdel; simplify_eq; done.
      * split_and!; [|done..]. rewrite submissions_app. simpl. rewrite app_nil_r.
        rewrite <- Hsub. unfold resume.
        destruct (drainLoop cfg now _) as [a1 d] eqn:Hd.
        apply drainLoop_frame in Hd as (_ & Hs1 & _). fields. by rewrite Hs1.
Qed.

(** Any run is one in which [analyzeItem] does whatever it does. *)
Lemma runsAs_any es a a' :
  run cfg es a = Some a' → runsAs (λ _ _, True) cfg es a.
Proof.
  revert a. induction es as [|e es IH]; intros a Hr; simpl in *; [done|].
  destruct (step cfg e a) as [a1|] eqn:Hs; [|done]. split; [|by apply IH].
  destruct e as [dt prio given gen ts now| | |l now|l o now]; simpl; try done.
  simpl in Hs. unfold analyzed in Hs.
  destruct (drains a !! l) as [[?|item|]|]; try done. eauto.
Qed.

(** The counter [submitted] is the number of calls of [enqueue]. *)
Lemma submitted_calls t0 es a :
  run cfg es (create t0) = Some a → submitted a = length (submissions cfg 0 es).
Proof.
  intros Hr. revert a Hr. induction es as [|e es IH] using rev_ind; intros a Hr.
  - simpl in Hr. by simplify_eq.
  - rewrite run_app in Hr. destruct (run cfg es (create t0)) as [a0|] eqn:H0; [|done].
    simpl in Hr. destruct (step cfg e a0) as [a1|] eqn:Hs; [|done]. simplify_eq.
    rewrite submissions_app, length_app, <- (IH a0 eq_refl).
    destruct e as [dt prio given gen ts now| | |l now|l o now]; simpl in Hs.
    + simplify_eq. simpl. unfold enqueue.
      destruct (maxQueueSize cfg <=? pendingCount a0)%Z; fields; [lia|].
      unfold processQueue. destruct (processing _ || _); fields; [lia|].
      destruct (drainLoop cfg now _) as [a1 d] eqn:Hd.
      apply drainLoop_frame in Hd as (_ & Hs1 & _). fields. rewrite Hs1. simpl. lia.
    + simplify_eq. simpl. lia.
    + unfold rejectTimer in Hs. destruct (timers a0); simplify_eq. simpl. lia.
    + unfold sleepTimer in Hs. destruct (drains a0 !! l) as [[due|?|]|]; try done.
      simplify_eq. unfold resume. destruct (drainLoop cfg now a0) as [a1 d] eqn:Hd.
      apply drainLoop_frame in Hd as (_ & Hs1 & _). fields. rewrite Hs1. simpl. lia.
    + unfold analyzed in Hs. destruct (drains a0 !! l) as [[?|item|]|]; try done.
      simplify_eq. unfold resume. destruct (drainLoop cfg now _) as [a1 d] eqn:Hd.
      apply drainLoop_frame in Hd as (_ & Hs1 & _). fields. rewrite Hs1. simpl. lia.
Qed.

(** Every unit held is the item of a call of [enqueue] of the run. *)
Lemma held_submission t0 es a item :
  run cfg es (create t0) = Some a →
  (item ∈ queue a ∨ ∃ l, drains a !! l = Some (Executing item)) →
  ∃ dt prio given gen ts now,
    Enqueue dt prio given gen ts now ∈ es ∧
    submissions cfg 0 es !! handle item = Some item ∧
    item = newItem cfg dt prio given gen ts (handle item).
Proof.
  intros Hr Hin.
  destruct (submissions_invariant (λ _ _, True) t0 es a Hr (runsAs_any _ _ _ Hr))
    as (_ & Hq & Hd & _).
  assert (submissions cfg 0 es !! handle item = Some item) as Hi.
  { destruct Hin as [Hin|[l Hl]]; [|by eapply Hd]. by eapply Forall_forall in Hq. }
  destruct (submissions_lookup 0 es _ item Hi)
    as (_ & dt & prio & given & gen & ts & now & He & Heq).
  exists dt, prio, given, gen, ts, now. done.
Qed.

Lemma delivered_submission (work : Item → Result + Failure → Prop) t0 es a :
  run cfg es (create t0) = Some a →
  runsAs work cfg es (create t0) →
  ∀ o u w, o ∈ trace a → delivered o = Some (u, w) →
    ∃ dt prio given gen ts now,
      Enqueue dt prio given gen ts now ∈ es ∧
      submissions cfg 0 es !! u = Some (newItem cfg dt prio given gen ts u) ∧
      work (newItem cfg dt prio given gen ts u) w.
Proof.
  intros Hr Hw.
  destruct (submissions_invariant work t0 es a Hr Hw) as (_ & _ & _ & Hj).
  intros o u w Ho Hdel. eapply Forall_forall in Hj; [|done].
  destruct (Hj u w Hdel) as (item & Hi & Hwi).
  destruct (submissions_lookup 0 es u item Hi) as (_ & dt & prio & given & gen & ts & now & Hin & ->).
  exists dt, prio, given, gen, ts, now. done.
Qed.


(** ** Exactly one callback *)

(** C2.  Take any run of the class from its creation, with [n] calls of
    [enqueue] in it; the units are those calls, numbered from 0 in the
    order they were made.  No unit has had more than one invocation of its
    callbacks, [callback] and [errorCallback] taken together; only units
    have had one; and a unit that has had none is still held: by its
    rejection timer, by the buffer, or by the activation executing it.
    Whenever the analyzer is at rest, no timer pending and no activation
    alive, each of the [n] units has had exactly one invocation.  And with
    a limit of at least one start per window it comes to rest: the pending
    timers and activations run to completion, at non-decreasing times from
    any clock value on, no sleep ending before it is due, and whatever
    [analyzeItem] returns; what was observed before stays, and then each of
    the [n] units has had exactly one invocation. *)
Theorem exactly_one_callback t0 es a :
  run cfg es (create t0) = Some a →
  (0 < requestsPerSecond cfg)%Z →
  let n := length (submissions cfg 0 es) in
  NoDup (settled (trace a)) ∧
  (∀ u, u ∈ settled (trace a) → u < n) ∧
  (∀ u, u < n →
     u ∈ settled (trace a) ∨ u ∈ timers a ∨ u ∈ map handle (queue a) ∨
     u ∈ executing (drains a)) ∧
  (quiescent a → settled (trace a) ≡ₚ seq 0 n) ∧
  ∀ work clock, ∃ a',
    run cfg (es ++ settle cfg work (backlog a) clock a) (create t0) = Some a' ∧
    submissions cfg 0 (es ++ settle cfg work (backlog a) clock a) = submissions cfg 0 es ∧
    Forall (λ e, internal e = true) (settle cfg work (backlog a) clock a) ∧
    monotone clock (settle cfg work (backlog a) clock a) ∧
    timelyRun cfg (settle cfg work (backlog a) clock a) a ∧
    quiescent a' ∧
    trace a `prefix_of` trace a' ∧
    settled (trace a') ≡ₚ seq 0 n.
Proof.
  intros Hr Hrps n. subst n.
  assert (reachable cfg a) as Ha by (by exists t0, es).
  rewrite <- (submitted_calls t0 es a Hr).
  pose proof (reachable_ledger a Ha) as [H1 _]. split_and!.
  - pose proof (NoDup_seq 0 (submitted a)) as Hnd. rewrite <- H1 in Hnd.
    apply NoDup_app in Hnd as (_ & _ & Hnd). apply NoDup_app in Hnd as (_ & _ & Hnd).
    by apply NoDup_app in Hnd as (_ & _ & Hnd).
  - intros u Hu. assert (u ∈ seq 0 (submitted a)) as Hin.
    { rewrite <- H1. rewrite !elem_of_app. tauto. }
    apply elem_of_seq in Hin. lia.
  - intros u Hu. assert (u ∈ seq 0 (submitted a)) as Hin by (apply elem_of_seq; lia).
    rewrite <- H1 in Hin. rewrite !elem_of_app in Hin. tauto.
  - by apply quiescent_settled.
  - intros work clock.
    destruct (settle_quiescent work (backlog a) clock a Hrps ltac:(lia))
      as (a' & Hr' & Hq & Hsub & Hint & Hmono & Htime).
    assert (run cfg (es ++ settle cfg work (backlog a) clock a) (create t0) = Some a')
      as Hrun by (rewrite run_app, Hr; done).
    exists a'. split_and!; auto.
    + pose proof (submitted_calls _ _ _ Hrun) as Hc.
      pose proof (submitted_calls _ _ _ Hr) as Hc0.
      rewrite submissions_app in Hc |- *. rewrite length_app in Hc.
      destruct (submissions cfg _ (settle cfg work (backlog a) clock a)); [|simpl in Hc; lia].
      by rewrite app_nil_r.
    + by eapply trace_run.
    + rewrite <- Hsub. apply quiescent_settled; [|done]. by eapply reachable_run.
Qed.

(** ** Priority order *)

Lemma serviceOrder_internal a e a' :
  internal e = true → step cfg e a = Some a' → serviceOrder a' = serviceOrder a.
Proof.
  intros Hi Hs. destruct e as [dt prio given gen ts now| | |l now|l o now];
    simpl in Hs, Hi; try done.
  - unfold rejectTimer in Hs. destruct (timers a); simplify_eq.
    unfold serviceOrder. fields. rewrite started_app. simpl. by rewrite app_nil_r.
  - unfold sleepTimer in Hs. destruct (drains a !! l) as [[due|?|]|]; try done.
    simplify_eq. apply serviceOrder_resume.
  - unfold analyzed in Hs. destruct (drains a !! l) as [[?|item|]|]; try done.
    simplify_eq. rewrite serviceOrder_resume. unfold serviceOrder. fields.
    rewrite started_app. destruct o; simpl; by rewrite app_nil_r.
Qed.

Lemma serviceOrder_internal_run es a a' :
  Forall (λ e, internal e = true) es → run cfg es a = Some a' →
  serviceOrder a' = serviceOrder a.
Proof.
  intros Hes. revert a. induction Hes as [|e es He _ IH]; intros a Hr; simpl in Hr.
  - by simplify_eq.
  - destruct (step cfg e a) as [a1|] eqn:Hs; [|done].
    rewrite (IH a1 Hr). by eapply serviceOrder_internal.
Qed.

(** Left alone, the event loop starts every queued unit, in the order of
    the buffer. *)
Lemma settle_serves work clock a :
  (0 < requestsPerSecond cfg)%Z → reachable cfg a →
  ∃ a', run cfg (settle cfg work (backlog a) clock a) a = Some a' ∧
        Forall (λ e, internal e = true) (settle cfg work (backlog a) clock a) ∧
        monotone clock (settle cfg work (backlog a) clock a) ∧
        timelyRun cfg (settle cfg work (backlog a) clock a) a ∧
        queue a' = [] ∧
        started (trace a') = started (trace a) ++ map handle (queue a).
Proof.
  intros Hrps Ha.
  destruct (settle_quiescent work (backlog a) clock a Hrps ltac:(lia))
    as (a' & Hr & [Ht Hact] & Hsub & Hint & Hmono & Htime).
  exists a'. split_and!; auto.
  - assert (reachable cfg a') as Ha' by (by eapply reachable_run).
    pose proof (reachable_flagged a' Ha') as [Hoff Hon].
    destruct (processing a') eqn:Hp; [|by apply Hoff]. specialize (Hon eq_refl). lia.
  - assert (reachable cfg a') as Ha' by (by eapply reachable_run).
    pose proof (reachable_flagged a' Ha') as [Hoff Hon].
    assert (queue a' = []) as Hq.
    { destruct (processing a') eqn:Hp; [|by apply Hoff]. specialize (Hon eq_refl). lia. }
    pose proof (serviceOrder_internal_run _ _ _ Hint Hr) as Hso.
    unfold serviceOrder in Hso. by rewrite Hq, app_nil_r in Hso.
Qed.

Lemma filter_all {A} (P : A → Prop) `{!∀ z, Decision (P z)} (k : list A) :
  (∀ z, z ∈ k → P z) → filter P k = k.
Proof.
  induction k as [|z k IH]; intros Hk; [done|].
  rewrite filter_cons_True by (apply Hk; left). f_equal.
  apply IH. intros w Hw. apply Hk. by right.
Qed.

(** Where an admitted unit is put. *)
Lemma enqueue_position dt prio given gen ts now a :
  reachable cfg a →
  (pendingCount a < maxQueueSize cfg)%Z →
  let item := newItem cfg dt prio given gen ts (submitted a) in
  ∃ front back,
    queue a = front ++ back ∧
    serviceOrder (enqueue cfg dt prio given gen ts now a)
      = started (trace a) ++ map handle (front ++ item :: back) ∧
    Forall (λ x, greater (priority item) (priority x) = false) front ∧
    (∀ y, head back = Some y → greater (priority item) (priority y) = true) ∧
    (Forall numeric (queue a) →
     Forall (λ y, greater (priority item) (priority y) = true) back).
Proof.
  intros Ha Hfree item.
  pose proof (reachable_sortedQueue a Ha) as [Hso _].
  destruct (insertByPriority_split item (queue a)) as (q1 & q2 & Hq & Hi & H1 & H2).
  exists q1, q2. split_and!; [done| |done| |].
  - rewrite serviceOrder_enqueue by done. fold (newItem cfg dt prio given gen ts (submitted a)).
    fold item. by rewrite Hi.
  - intros y Hy. destruct q2; simpl in Hy; by simplify_eq.
  - intros Hnum. rewrite Hq in Hso, Hnum.
    apply StronglySorted_app_1_r in Hso. apply Forall_app in Hnum as [_ Hnum].
    destruct q2 as [|y q2]; [constructor|].
    apply StronglySorted_inv in Hso as [_ Hy].
    apply Forall_cons in Hnum as [_ Hnum].
    constructor; [done|]. apply Forall_forall. intros z Hz.
    eapply greater_servedBefore; [exact H2| |].
    + by eapply Forall_forall in Hy.
    + by eapply Forall_forall in Hnum.
Qed.

(** C8.  In every state of the class the buffer is in service order: by
    priority, highest first, units of equal priority in the order of their
    submission.  An admitted unit is put behind the queued units whose
    priority is not lower than its own and directly before the first one of
    lower priority, which in a buffer of numbers are all that follow; it is
    then in the buffer, or has begun execution if it was taken at once.
    Units begin execution from the head of the buffer: whatever happens
    later, the units known in a state begin execution in the order that
    state gives, and left alone the event loop starts every queued unit, in
    the order of the buffer.  Hence, when A (priority 2), B (priority 0)
    and C (priority 1) are submitted in a row and admitted, at least three
    priority levels being configured, they are in service in the order A,
    C, B, never begin execution in another order, and do begin execution
    in that order when the event loop is left alone; and likewise a unit E
    comes behind every unit D that had begun execution, or was queued with
    a priority not lower than that of E, when E was submitted. *)
Theorem priority_order_stable_fifo a :
  reachable cfg a →
  StronglySorted servedBefore (queue a) ∧
  (∀ dt prio given gen ts now,
     (pendingCount a < maxQueueSize cfg)%Z →
     let item := newItem cfg dt prio given gen ts (submitted a) in
     ∃ front back,
       queue a = front ++ back ∧
       serviceOrder (enqueue cfg dt prio given gen ts now a)
         = started (trace a) ++ map handle (front ++ item :: back) ∧
       Forall (λ x, greater (priority item) (priority x) = false) front ∧
       (∀ y, head back = Some y → greater (priority item) (priority y) = true) ∧
       (Forall numeric (queue a) →
        Forall (λ y, greater (priority item) (priority y) = true) back)) ∧
  (∀ es a', run cfg es a = Some a' →
     filter (λ u, u < submitted a) (started (trace a'))
       `prefix_of` started (trace a) ++ map handle (queue a)) ∧
  ((0 < requestsPerSecond cfg)%Z →
   ∀ work clock, ∃ a',
     run cfg (settle cfg work (backlog a) clock a) a = Some a' ∧
     Forall (λ e, internal e = true) (settle cfg work (backlog a) clock a) ∧
     queue a' = [] ∧
     started (trace a') = started (trace a) ++ map handle (queue a)) ∧
  (∀ dA dB dC gA gB gC nA nB nC tA tB tC wA wB wC,
     (3 ≤ priorityLevels cfg)%Z →
     (pendingCount a + 3 ≤ maxQueueSize cfg)%Z →
     let a3 :=
       enqueue cfg dC (Some (Finite 1)) gC nC tC wC
         (enqueue cfg dB (Some (Finite 0)) gB nB tB wB
            (enqueue cfg dA (Some (Finite 2)) gA nA tA wA a)) in
     let three := λ u, submitted a ≤ u < submitted a + 3 in
     filter three (started (trace a3) ++ map handle (queue a3))
       = [submitted a; submitted a + 2; submitted a + 1] ∧
     (∀ es a', run cfg es a3 = Some a' →
        filter three (started (trace a'))
          `prefix_of` [submitted a; submitted a + 2; submitted a + 1]) ∧
     ((0 < requestsPerSecond cfg)%Z →
      ∀ work clock, ∃ a',
        run cfg (settle cfg work (backlog a3) clock a3) a3 = Some a' ∧
        filter three (started (trace a'))
          = [submitted a; submitted a + 2; submitted a + 1])) ∧
  (∀ (u : nat) dt prio given gen ts now,
     (pendingCount a < maxQueueSize cfg)%Z →
     (u ∈ started (trace a) ∨
      ∃ x, x ∈ queue a ∧ handle x = u ∧ numeric x ∧
           greater (clampPriority cfg (default (Finite 0) prio)) (priority x) = false) →
     let a1 := enqueue cfg dt prio given gen ts now a in
     let two := λ v, v = u ∨ v = submitted a in
     filter two (started (trace a1) ++ map handle (queue a1)) = [u; submitted a] ∧
     (∀ es a', run cfg es a1 = Some a' →
        filter two (started (trace a')) `prefix_of` [u; submitted a]) ∧
     ((0 < requestsPerSecond cfg)%Z →
      ∀ work clock, ∃ a',
        run cfg (settle cfg work (backlog a1) clock a1) a1 = Some a' ∧
        filter two (started (trace a')) = [u; submitted a])).
Proof.
  intros Ha. split_and!.
  - by apply reachable_sortedQueue.
  - intros dt prio given gen ts now Hfree. by apply enqueue_position.
  - intros es a' Hr.
    pose proof (started_run (λ u, u < submitted a) es a a' ltac:(done) Hr) as Hp.
    rewrite (filter_all _ (serviceOrder a)) in Hp; [done|].
    intros u Hu. by apply serviceOrder_units.
  - intros Hrps work clock.
    destruct (settle_serves work clock a Hrps Ha) as (a' & Hr & Hint & _ & _ & Hq & Hst).
    by exists a'.
  - intros dA dB dC gA gB gC nA nB nC tA tB tC wA wB wC Hlev Hcap a3 three.
    pose proof (serviceOrder_three a dA dB dC (Some (Finite 2)) (Some (Finite 0))
                  (Some (Finite 1)) gA gB gC nA nB nC tA tB tC wA wB wC Ha Hcap) as Hthree.
    simpl in Hthree. destruct Hthree as [Hsub Hso].
    { unfold clampPriority. simpl. apply Z.ltb_lt. lia. }
    { unfold clampPriority. simpl. apply Z.ltb_ge. lia. }
    { done. }
    fold a3 in Hsub, Hso. fold three in Hso. unfold serviceOrder in Hso.
    pose proof (reachable_step a (Enqueue dA (Some (Finite 2)) gA nA tA wA) _ Ha eq_refl)
      as Ha1.
    pose proof (reachable_step _ (Enqueue dB (Some (Finite 0)) gB nB tB wB) _ Ha1 eq_refl)
      as Ha2.
    pose proof (reachable_step _ (Enqueue dC (Some (Finite 1)) gC nC tC wC) _ Ha2 eq_refl)
      as Ha3.
    fold a3 in Ha3.
    split_and!; [done| |].
    + intros es a' Hr. rewrite <- Hso.
      eapply (started_run three); [|exact Hr]. intros u Hu. rewrite Hsub. unfold three in Hu. lia.
    + intros Hrps work clock.
      destruct (settle_serves work clock a3 Hrps Ha3) as (a' & Hr & _ & _ & _ & _ & Hst).
      exists a'. split; [done|]. by rewrite Hst.
  - intros u dt prio given gen ts now Hfree Hd a1 two.
    pose proof (serviceOrder_newcomer a dt prio given gen ts now u Ha Hfree Hd) as Hso.
    fold a1 in Hso. fold two in Hso. unfold serviceOrder in Hso.
    assert (reachable cfg a1) as Ha1
      by (by apply (reachable_step a (Enqueue dt prio given gen ts now))).
    split_and!; [done| |].
    + intros es a' Hr. rewrite <- Hso.
      eapply (started_run two); [|exact Hr].
      pose proof (enqueue_admitted dt prio given gen ts now a Hfree) as (Hsub & _).
      simpl in Hsub. fold a1 in Hsub. rewrite Hsub.
      intros v [-> | ->]; [|lia].
      assert (u < submitted a); [|lia].
      destruct Hd as [Hd|(x & Hx & <- & _)].
      * by apply started_units.
      * by apply queue_units.
    + intros Hrps work clock.
      destruct (settle_serves work clock a1 Hrps Ha1) as (a' & Hr & _ & _ & _ & _ & Hst).
      exists a'. split; [done|]. by rewrite Hst.
Qed.

(** ** The rate limit *)

Lemma inWindow_app w log1 log2 :
  inWindow w (log1 ++ log2) = inWindow w log1 ++ inWindow w log2.
Proof. apply filter_app. Qed.

Lemma inWindow_later w log :
  Forall (λ s, (window s < w)%Z) log → inWindow w log = [].
Proof.
  intros Hl. apply filter_nomatch. intros s Hs Hw.
  eapply Forall_forall in Hl; [|exact Hs]. simpl in Hl. lia.
Qed.

Lemma rateLog_same log a b :
  started (trace b) = started (trace a) → requestCount b = requestCount a →
  lastResetTime b = lastResetTime a → rateLog cfg log a → rateLog cfg log b.
Proof. unfold rateLog. by intros -> -> ->. Qed.

(** One pass of the drain loop: the counter goes up by one exactly if the
    pass starts a unit. *)
Lemma rateLog_drainLoop now a a' d log :
  (0 ≤ requestsPerSecond cfg)%Z →
  rateLog cfg log a → drainLoop cfg now a = (a', d) →
  rateLog cfg
    (log ++ match d with
            | Executing item =>
                [{| unitNo := handle item; readAt := now; window := lastResetTime a' |}]
            | _ => []
            end) a'.
Proof.
  intros Hrps Hlog Hd.
  assert (∀ a1, a1 = a ∧ (now - lastResetTime a < 1000)%Z ∨
                a1 = resetWindow now a ∧ (1000 ≤ now - lastResetTime a)%Z →
                rateLog cfg log a1 ∧ (now - lastResetTime a1 < 1000)%Z) as Hwin.
  { intros a1 [[-> Hw]|[-> Hw]]; [done|]. split; [|fields; lia].
    destruct Hlog as (H1 & H2 & H3 & H4 & H5). unfold rateLog. fields.
    rewrite started_app. simpl. rewrite app_nil_r.
    split_and!; [done| |done| |done].
    - rewrite inWindow_later; [done|].
      eapply Forall_impl; [exact H4|]. intros s [_ Hs]. simpl. lia.
    - eapply Forall_impl; [exact H4|]. intros s [Hs1 Hs2]. simpl. split; [done|]. lia. }
  pose proof (drainLoop_outcome now a) as Ho. rewrite Hd in Ho. simpl in Ho.
  inversion Ho as [Hq|a1 item rest Hq Hw Hr|a1 item rest Hq Hw Hr]; subst.
  - rewrite app_nil_r. by apply (rateLog_same log a).
  - rewrite app_nil_r. by apply Hwin.
  - destruct (Hwin _ Hw) as [(H1 & H2 & H3 & H4 & H5) Hnow]. unfold rateLog. fields.
    split_and!.
    + rewrite map_app, started_app, H1. done.
    + rewrite inWindow_app, length_app. unfold inWindow at 2.
      rewrite filter_cons_True by done. simpl. lia.
    + intros w. rewrite inWindow_app, length_app. unfold inWindow at 2.
      destruct (decide (lastResetTime a1 = w)) as [<-|Hne].
      * rewrite filter_cons_True by done. simpl. lia.
      * rewrite filter_cons_False by done. simpl. specialize (H3 w). lia.
    + apply Forall_app. split; [done|]. constructor; [|constructor]. simpl.
      split; [lia|by left].
    + apply StronglySorted_app_2; [|done|repeat constructor].
      intros s1 s2 Hs1 ->%list_elem_of_singleton.
      eapply Forall_forall in H4; [|exact Hs1]. apply H4.
Qed.

Lemma starts_app (es1 es2 : list Ev) a a1 :
  run cfg es1 a = Some a1 →
  starts cfg (es1 ++ es2) a = starts cfg es1 a ++ starts cfg es2 a1.
Proof.
  revert a. induction es1 as [|e es1 IH]; intros a Hr; simpl in *.
  - by simplify_eq.
  - destruct (step cfg e a) as [a0|] eqn:Hs; [|done].
    by rewrite (IH a0 Hr), app_assoc.
Qed.

(** A transition adds the start it makes, if it makes one. *)
Lemma rateLog_step log a e a' :
  (0 ≤ requestsPerSecond cfg)%Z →
  rateLog cfg log a → step cfg e a = Some a' →
  rateLog cfg (log ++ starts cfg [e] a) a'.
Proof.
  intros Hrps Hlog Hs. simpl. rewrite Hs, app_nil_r. unfold begins.
  destruct e as [dt prio given gen ts now| | |l now|l o now]; simpl in Hs; simpl.
  - simplify_eq. unfold enqueue.
    destruct (maxQueueSize cfg <=? pendingCount a)%Z; fields.
    { rewrite lookup_ge_None_2 by lia. rewrite app_nil_r. by apply (rateLog_same log a). }
    unfold processQueue. destruct (processing _ || _); fields.
    { rewrite lookup_ge_None_2 by lia. rewrite app_nil_r. by apply (rateLog_same log a). }
    destruct (drainLoop cfg now _) as [a1 d] eqn:Hd.
    pose proof (drainLoop_frame _ _ _ _ Hd) as (_ & _ & Hdr & _). fields.
    rewrite Hdr. fields. rewrite lookup_app_r, Nat.sub_diag by lia. simpl.
    eapply rateLog_drainLoop in Hd; [|done|by apply (rateLog_same log a)].
    eapply rateLog_same; [..|destruct d; exact Hd]; done.
  - simplify_eq. rewrite app_nil_r. apply (rateLog_same log a); [|done..].
    fields. by rewrite started_app, started_cleared, app_nil_r.
  - unfold rejectTimer in Hs. destruct (timers a); simplify_eq.
    rewrite app_nil_r. apply (rateLog_same log a); [|done..].
    fields. rewrite started_app. simpl. by rewrite app_nil_r.
  - unfold sleepTimer in Hs. destruct (drains a !! l) as [[due|?|]|] eqn:Hl; try done.
    simplify_eq. unfold resume. destruct (drainLoop cfg now a) as [a1 d] eqn:Hd.
    pose proof (drainLoop_frame _ _ _ _ Hd) as (_ & _ & Hdr & _). fields.
    rewrite Hdr, list_lookup_insert_eq by (by eapply lookup_lt_Some).
    eapply rateLog_drainLoop in Hd; [|done..].
    eapply rateLog_same; [..|destruct d; exact Hd]; done.
  - unfold analyzed in Hs. destruct (drains a !! l) as [[?|item|]|] eqn:Hl; try done.
    simplify_eq. unfold resume. destruct (drainLoop cfg now _) as [a1 d] eqn:Hd.
    pose proof (drainLoop_frame _ _ _ _ Hd) as (_ & _ & Hdr & _). fields.
    rewrite Hdr. fields. rewrite list_lookup_insert_eq by (by eapply lookup_lt_Some).
    eapply rateLog_drainLoop in Hd; [|done|].
    + eapply rateLog_same; [..|destruct d; exact Hd]; done.
    + apply (rateLog_same log a); [|done..]. fields. rewrite started_app.
      destruct o; simpl; by rewrite app_nil_r.
Qed.

Lemma rateLog_run t0 es a :
  (0 ≤ requestsPerSecond cfg)%Z →
  run cfg es (create t0) = Some a → rateLog cfg (starts cfg es (create t0)) a.
Proof.
  intros Hrps. revert a. induction es as [|e es IH] using rev_ind; intros a Hr.
  - simpl in Hr. simplify_eq. unfold rateLog. simpl.
    split_and!; [done|done|intros w; simpl; lia|constructor|constructor].
  - rewrite run_app in Hr. destruct (run cfg es (create t0)) as [a0|] eqn:H0; [|done].
    simpl in Hr. destruct (step cfg e a0) as [a1|] eqn:Hs; [|done]. simplify_eq.
    rewrite (starts_app es [e] (create t0) a0 H0).
    apply rateLog_step; [done|by apply IH|done].
Qed.

Lemma lastResetTime_step a e a' :
  step cfg e a = Some a' →
  lastResetTime a' = lastResetTime a ∨ loopClock e = Some (lastResetTime a').
Proof.
  assert (∀ now b b' d, drainLoop cfg now b = (b', d) →
            lastResetTime b' = lastResetTime b ∨ lastResetTime b' = now) as Hpass.
  { intros now b b' d Hd.
    pose proof (drainLoop_outcome now b) as Ho. rewrite Hd in Ho. simpl in Ho.
    inversion Ho as [Hq|a1 item rest Hq Hw Hr|a1 item rest Hq Hw Hr]; subst;
      [by left|destruct Hw as [[-> _]|[-> _]]; fields; auto..]. }
  intros Hs. destruct e as [dt prio given gen ts now| | |l now|l o now]; simpl in Hs; simpl.
  - simplify_eq. unfold enqueue.
    destruct (maxQueueSize cfg <=? pendingCount a)%Z; [by left|].
    unfold processQueue. destruct (processing _ || _); [by left|].
    destruct (drainLoop cfg now _) as [a1 d] eqn:Hd.
    apply Hpass in Hd as [Hd|Hd]; fields; [by left|right; by rewrite Hd].
  - simplify_eq. by left.
  - unfold rejectTimer in Hs. destruct (timers a); simplify_eq. by left.
  - unfold sleepTimer in Hs. destruct (drains a !! l) as [[due|?|]|]; try done.
    simplify_eq. unfold resume. destruct (drainLoop cfg now a) as [a1 d] eqn:Hd.
    apply Hpass in Hd as [Hd|Hd]; fields; [by left|right; by rewrite Hd].
  - unfold analyzed in Hs. destruct (drains a !! l) as [[?|item|]|]; try done.
    simplify_eq. unfold resume. destruct (drainLoop cfg now _) as [a1 d] eqn:Hd.
    apply Hpass in Hd as [Hd|Hd]; fields; [by left|right; by rewrite Hd].
Qed.

(** With a clock that does not go back, no start is read before its
    window opened. *)
Lemma starts_monotone clock es a a' :
  (lastResetTime a ≤ clock)%Z → monotone clock es → run cfg es a = Some a' →
  Forall (λ s, (window s ≤ readAt s)%Z) (starts cfg es a).
Proof.
  revert clock a. induction es as [|e es IH]; intros clock a Hc Hm Hr; simpl in *.
  - constructor.
  - destruct (step cfg e a) as [a1|] eqn:Hs; [|done]. destruct Hm as [Hle Hm].
    assert (lastResetTime a1 ≤ eventTime clock e)%Z as Hc1.
    { destruct (lastResetTime_step a e a1 Hs) as [->|He]; [lia|].
      destruct e; simpl in *; simplify_eq; lia. }
    apply Forall_app. split; [|by eapply IH].
    unfold begins. destruct (passOf e a) as [l|] eqn:Hl; [|constructor].
    destruct (drains a1 !! l) as [[?|item|]|]; try constructor; [|constructor].
    simpl. destruct e; simpl in *; simplify_eq; lia.
Qed.

(** One pass: the counter is set to 0 if the window is at least 1000 ms
    old, and then goes up by one exactly if the pass starts a unit, which
    is the head of the buffer. *)
Lemma drainLoop_counts now a a' d :
  drainLoop cfg now a = (a', d) →
  let before := if (1000 <=? now - lastResetTime a)%Z then 0%Z else requestCount a in
  match d with
  | Executing item =>
      queue a = item :: queue a' ∧ requestCount a' = (before + 1)%Z ∧
      (before < requestsPerSecond cfg)%Z
  | _ => queue a' = queue a ∧ requestCount a' = (if queue a is [] then requestCount a else before)
  end.
Proof.
  intros Hd before. subst before.
  pose proof (drainLoop_outcome now a) as Ho. rewrite Hd in Ho. simpl in Ho.
  inversion Ho as [Hq|a1 item rest Hq Hw Hr|a1 item rest Hq Hw Hr]; subst.
  - by rewrite Hq.
  - rewrite Hq. destruct Hw as [[-> Hw]|[-> Hw]]; fields.
    + apply Z.leb_gt in Hw. by rewrite Hw.
    + apply Z.leb_le in Hw. by rewrite Hw.
  - rewrite Hq. destruct Hw as [[-> Hw]|[-> Hw]]; fields; fields.
    + apply Z.leb_gt in Hw. by rewrite Hw.
    + apply Z.leb_le in Hw. by rewrite Hw.
Qed.

(** C4.  Take any run of the class from its creation, with a limit of
    [N >= 0] starts per window, and the starts of that run: for each the
    unit, the reading of the clock in the pass of the drain loop that
    started it, and the window it falls in.  The units started are those
    being executed and those that have been executed, each of them started
    once.  The counter [requestCount] is the number of starts in the
    current window and is at most [N]; no window has more than [N] starts.
    A window is 1000 ms: every start is read less than 1000 ms after its
    window was opened, and not before it if the clock does not go back;
    and starts in different windows are in windows opened at least 1000 ms
    apart.  In every pass of the drain loop the counter, set to 0 first if
    the window is at least 1000 ms old, goes up by one if the pass starts a
    unit, having been below [N], and stays as it is if the pass starts
    none. *)
Theorem rate_window_bound t0 es a :
  run cfg es (create t0) = Some a →
  (0 ≤ requestsPerSecond cfg)%Z →
  let log := starts cfg es (create t0) in
  map unitNo log ≡ₚ executing (drains a) ++ worked (trace a) ∧
  NoDup (map unitNo log) ∧
  requestCount a = Z.of_nat (length (inWindow (lastResetTime a) log)) ∧
  (requestCount a ≤ requestsPerSecond cfg)%Z ∧
  (∀ w, (Z.of_nat (length (inWindow w log)) ≤ requestsPerSecond cfg)%Z) ∧
  Forall (λ s, (readAt s - window s < 1000)%Z) log ∧
  (monotone t0 es → Forall (λ s, (window s ≤ readAt s)%Z) log) ∧
  StronglySorted windowsApart log ∧
  (∀ now b b' d, drainLoop cfg now b = (b', d) →
     let before := if (1000 <=? now - lastResetTime b)%Z then 0%Z else requestCount b in
     match d with
     | Executing item =>
         queue b = item :: queue b' ∧ requestCount b' = (before + 1)%Z ∧
         (before < requestsPerSecond cfg)%Z
     | _ => queue b' = queue b ∧
            requestCount b' = (if queue b is [] then requestCount b else before)
     end).
Proof.
  intros Hr Hrps log. subst log.
  assert (reachable cfg a) as Ha by (by exists t0, es).
  destruct (rateLog_run t0 es a Hrps Hr) as (H1 & H2 & H3 & H4 & H5).
  pose proof (reachable_ledger a Ha) as [_ Hl].
  split_and!.
  - by rewrite H1.
  - rewrite H1. by apply started_units.
  - done.
  - rewrite H2. apply H3.
  - done.
  - eapply Forall_impl; [exact H4|]. by intros s [? _].
  - intros Hm. by eapply (starts_monotone t0).
  - done.
  - intros now b b' d. apply drainLoop_counts.
Qed.

(** ** Refusal *)

Lemma refused_app tr1 tr2 : refused (tr1 ++ tr2) = refused tr1 ++ refused tr2.
Proof. apply omap_app. Qed.

Lemma refused_cleared q :
  refused (Result:=Result) (Failure:=Failure)
    (map (λ item, ErrorCallback (handle item) QueueCleared) q) = [].
Proof. by induction q. Qed.

Lemma refused_drainLoop now a a' d :
  drainLoop cfg now a = (a', d) → refused (trace a') = refused (trace a).
Proof.
  intros Hd. pose proof (drainLoop_outcome now a) as Ho. rewrite Hd in Ho. simpl in Ho.
  inversion Ho as [Hq|a1 item rest Hq Hw _|a1 item rest Hq Hw _]; subst;
    [|destruct Hw as [[-> _]|[-> _]]..]; fields; try done;
    rewrite !refused_app; simpl; by rewrite !app_nil_r.
Qed.

Lemma elem_of_refused tr u : u ∈ refused tr ↔ ErrorCallback u QueueFull ∈ tr.
Proof.
  unfold refused. rewrite list_elem_of_omap. split.
  - intros (o & Ho & Hu). destruct o as [?|?|? ?|v [| |?]]; simplify_eq/=. done.
  - intros Ho. by exists (ErrorCallback u QueueFull).
Qed.

(** Whether a unit is, or was, waiting for the rejection of a full queue
    is settled when it is submitted. *)
Lemma refusal_step a e a' u :
  step cfg e a = Some a' → u < submitted a →
  u ∈ timers a' ++ refused (trace a') ↔ u ∈ timers a ++ refused (trace a).
Proof.
  intros Hs Hu. destruct e as [dt prio given gen ts now| | |l now|l o now]; simpl in Hs.
  - simplify_eq. unfold enqueue.
    destruct (maxQueueSize cfg <=? pendingCount a)%Z; fields.
    + rewrite !elem_of_app, list_elem_of_singleton. split; [|tauto].
      intros [[?|?]|?]; auto. lia.
    + unfold processQueue. destruct (processing _ || _); [done|].
      destruct (drainLoop cfg now _) as [a1 d] eqn:Hd.
      pose proof (drainLoop_frame _ _ _ _ Hd) as (Ht & _).
      apply refused_drainLoop in Hd. fields. by rewrite Ht, Hd.
  - simplify_eq. fields. by rewrite refused_app, refused_cleared, app_nil_r.
  - unfold rejectTimer in Hs. destruct (timers a) as [|v ts] eqn:Ht; simplify_eq.
    fields. rewrite refused_app. simpl.
    repeat (rewrite elem_of_app || rewrite elem_of_cons || rewrite elem_of_nil). tauto.
  - unfold sleepTimer in Hs. destruct (drains a !! l) as [[due|?|]|]; try done.
    simplify_eq. unfold resume.
    destruct (drainLoop cfg now a) as [a1 d] eqn:Hd.
    pose proof (drainLoop_frame _ _ _ _ Hd) as (Ht & _).
    apply refused_drainLoop in Hd. fields. by rewrite Ht, Hd.
  - unfold analyzed in Hs. destruct (drains a !! l) as [[?|item|]|]; try done.
    simplify_eq. unfold resume.
    destruct (drainLoop cfg now _) as [a1 d] eqn:Hd.
    pose proof (drainLoop_frame _ _ _ _ Hd) as (Ht & _).
    apply refused_drainLoop in Hd. fields. rewrite Ht, Hd, refused_app.
    destruct o; simpl; by rewrite app_nil_r.
Qed.

Lemma refusal_run es a a' u :
  run cfg es a = Some a' → u < submitted a →
  u ∈ timers a' ++ refused (trace a') ↔ u ∈ timers a ++ refused (trace a).
Proof.
  revert a. induction es as [|e es IH]; intros a Hr Hu; simpl in Hr.
  - by simplify_eq.
  - destruct (step cfg e a) as [a1|] eqn:Hs; [|done].
    rewrite (IH a1 Hr), (refusal_step a e a1 u Hs Hu); [done|].
    apply submitted_step in Hs. lia.
Qed.

(** C5.  A call of [enqueue] in a state of the class schedules the
    rejection of its unit if and only if [pendingCount >= maxQueueSize] at
    that moment.  The call itself then invokes no callback and changes
    nothing but the list of pending timers: buffer, [pendingCount],
    [requestCount], [lastResetTime], the flag and the activations are as
    before.  From then on the unit is waiting for that timer or has been
    rejected with the queue-full error, and this is so for no unit that
    was admitted.  The timer, when it fires, invokes [errorCallback] with
    the queue-full error and leaves the rest of the state alone. *)
Theorem enqueue_rejects_iff_full a dt prio given gen ts now :
  reachable cfg a →
  let a' := enqueue cfg dt prio given gen ts now a in
  let u := submitted a in
  (u ∈ timers a' ↔ (maxQueueSize cfg ≤ pendingCount a)%Z) ∧
  ((maxQueueSize cfg ≤ pendingCount a)%Z →
     timers a' = timers a ++ [u] ∧ trace a' = trace a ∧ queue a' = queue a ∧
     pendingCount a' = pendingCount a ∧ requestCount a' = requestCount a ∧
     lastResetTime a' = lastResetTime a ∧ processing a' = processing a ∧
     drains a' = drains a) ∧
  (∀ es a'', run cfg es a' = Some a'' →
     (u ∈ timers a'' ∨ ErrorCallback u QueueFull ∈ trace a'') ↔
     (maxQueueSize cfg ≤ pendingCount a)%Z) ∧
  (∀ b v rest, timers b = v :: rest →
     ∃ b', rejectTimer b = Some b' ∧
           trace b' = trace b ++ [ErrorCallback v QueueFull] ∧ timers b' = rest ∧
           queue b' = queue b ∧ pendingCount b' = pendingCount b ∧
           requestCount b' = requestCount b ∧ lastResetTime b' = lastResetTime b ∧
           processing b' = processing b ∧ drains b' = drains b).
Proof.
  intros Ha a' u.
  pose proof (reachable_ledger a Ha) as [H1 _].
  assert (∀ v, v ∈ timers a ++ refused (trace a) → v < submitted a) as Hold.
  { intros v Hv. assert (v ∈ seq 0 (submitted a)) as Hin; [|apply elem_of_seq in Hin; lia].
    rewrite <- H1. rewrite !elem_of_app in *. destruct Hv as [Hv|Hv]; [by left|].
    right. right. right. unfold refused, settled in *.
    apply list_elem_of_omap in Hv as (o & Ho & Hu). apply list_elem_of_omap.
    exists o. split; [done|]. by destruct o as [?|?|? ?|? [| |?]]. }
  assert (u ∈ timers a' ++ refused (trace a') ↔ (maxQueueSize cfg ≤ pendingCount a)%Z)
    as Hiff.
  { subst a'. destruct (decide (maxQueueSize cfg ≤ pendingCount a)%Z) as [Hfull|Hfree].
    - unfold enqueue. replace (maxQueueSize cfg <=? pendingCount a)%Z with true
        by (symmetry; by apply Z.leb_le). fields.
      rewrite !elem_of_app, list_elem_of_singleton. tauto.
    - split; [|done]. intros Hin. exfalso.
      pose proof (enqueue_admitted dt prio given gen ts now a ltac:(lia)) as (_ & _ & Ht & _).
      simpl in Ht.
      assert (refused (trace (enqueue cfg dt prio given gen ts now a)) = refused (trace a))
        as Hr.
      { unfold enqueue. replace (maxQueueSize cfg <=? pendingCount a)%Z with false
          by (symmetry; apply Z.leb_gt; lia).
        unfold processQueue. destruct (processing _ || _); [done|].
        destruct (drainLoop cfg now _) as [a1 d] eqn:Hd.
        by apply refused_drainLoop in Hd. }
      rewrite Ht, Hr in Hin. apply Hold in Hin. subst u. lia. }
  split_and!.
  - rewrite <- Hiff. rewrite elem_of_app. split; [by left|].
    intros [?|Hin]; [done|]. exfalso.
    assert (ErrorCallback u QueueFull ∈ trace a') as Hin' by by apply elem_of_refused.
    assert (refused (trace a') = refused (trace a)) as Hr.
    { subst a'. unfold enqueue. destruct (maxQueueSize cfg <=? pendingCount a)%Z; [done|].
      unfold processQueue. destruct (processing _ || _); [done|].
      destruct (drainLoop cfg now _) as [a1 d] eqn:Hd.
      by apply refused_drainLoop in Hd. }
    rewrite Hr in Hin.
    assert (u < submitted a); [|subst u; lia]. apply Hold, elem_of_app. by right.
  - intros Hfull. subst a'. unfold enqueue.
    replace (maxQueueSize cfg <=? pendingCount a)%Z with true
      by (symmetry; by apply Z.leb_le). done.
  - intros es a'' Hr. rewrite <- Hiff, <- elem_of_refused, <- elem_of_app.
    apply (refusal_run es a' a'' u Hr).
    subst a' u. unfold enqueue. destruct (maxQueueSize cfg <=? pendingCount a)%Z eqn:Hc.
    + simpl. lia.
    + apply Z.leb_gt in Hc.
      pose proof (enqueue_admitted dt prio given gen ts now a Hc) as (Hs & _).
      simpl in Hs. unfold enqueue in Hs. apply Z.leb_gt in Hc. rewrite Hc in Hs.
      rewrite Hs. lia.
  - intros b v rest Hb. unfold rejectTimer. rewrite Hb. eexists. split; [done|]. done.
Qed.

(** ** [clear] *)

(** C6.  In a state of the class with [k] units in the buffer, [clear()]
    invokes [errorCallback] with the queue-cleared error once for each of
    them and invokes nothing else; the [k] units are distinct and none of
    them had a callback invoked before, so each has now had exactly one.
    When [clear()] returns the buffer is empty, [pendingCount] is 0 and
    [processing] is [false]. *)
Theorem clear_rejects_queued a :
  reachable cfg a →
  trace (clear a)
    = trace a ++ map (λ item, ErrorCallback (handle item) QueueCleared) (queue a) ∧
  length (map (λ item : Item, ErrorCallback (Result:=Result) (Failure:=Failure)
                 (handle item) QueueCleared) (queue a)) = length (queue a) ∧
  settled (trace (clear a)) = settled (trace a) ++ map handle (queue a) ∧
  NoDup (settled (trace (clear a))) ∧
  queue (clear a) = [] ∧ pendingCount (clear a) = 0%Z ∧ processing (clear a) = false.
Proof.
  intros Ha. split_and!; try done.
  - by rewrite length_map.
  - simpl. by rewrite settled_app, settled_cleared.
  - assert (reachable cfg (clear a)) as Hc by (by apply (reachable_step a Clear)).
    pose proof (reachable_ledger _ Hc) as [H1 _].
    pose proof (NoDup_seq 0 (submitted (clear a))) as Hnd. rewrite <- H1 in Hnd.
    apply NoDup_app in Hnd as (_ & _ & Hnd). apply NoDup_app in Hnd as (_ & _ & Hnd).
    by apply NoDup_app in Hnd as (_ & _ & Hnd).
Qed.


Lemma elem_of_executing ds l item :
  ds !! l = Some (Executing item) → handle item ∈ executing ds.
Proof.
  intros Hl. unfold executing. apply list_elem_of_omap.
  exists (Executing item). split; [|done]. by eapply list_elem_of_lookup_2.
Qed.



(** ** One drain loop, as long as [clear] is not called *)

Lemma tidy_processQueue now a :
  tidy a → (processing a = false → queue a ≠ []) → tidy (processQueue cfg now a).
Proof.
  intros [Hact Hpc] Hne. unfold processQueue.
  destruct (processing a) eqn:Hp; simpl; [by split; [rewrite Hp|]|].
  destruct (queue a) as [|x q] eqn:Hq; [by destruct Hne|]. simpl.
  destruct (drainLoop cfg now _) as [a1 d] eqn:Hd.
  pose proof (drainLoop_frame _ _ _ _ Hd) as (_ & _ & Hdr & Hpc' & _ & _ & Hqh & _).
  apply drainLoop_flag in Hd as [(Hq' & _)|(_ & Hp' & Hd)]; fields;
    [by rewrite Hq in Hq'|].
  split; fields.
  - rewrite Hp', Hdr, active_app, Hact, (active_live d Hd). done.
  - rewrite Hpc', Hpc, Hdr. unfold executing. rewrite omap_app, length_app.
    apply (f_equal length) in Hqh. rewrite length_app, !length_map in Hqh.
    fold (executing (drains a)). fold (executing [d]). rewrite Hq in Hqh. lia.
Qed.

Lemma tidy_resume l now a d0 :
  drains a !! l = Some d0 → isActive d0 = true →
  active (drains a) = (if processing a then 1 else 0) →
  pendingCount a
    = Z.of_nat (length (queue a) + length (executing (drains a)) - length (executing [d0])) →
  length (executing [d0]) ≤ length (executing (drains a)) →
  tidy (resume cfg l now a).
Proof.
  intros Hl Hd0 Hact Hpc Hle. unfold resume.
  destruct (drainLoop cfg now a) as [a1 d] eqn:Hd.
  pose proof (drainLoop_frame _ _ _ _ Hd) as (_ & _ & Hdr & Hpc' & _ & _ & Hqh & _).
  pose proof (active_insert _ _ _ d Hl) as Hai.
  pose proof (executing_insert _ _ _ d Hl) as Hei.
  apply Permutation_length in Hei. rewrite !length_app in Hei.
  apply (f_equal length) in Hqh. rewrite length_app, !length_map in Hqh.
  rewrite (active_live d0 Hd0) in Hai.
  assert (processing a = true) as Hp.
  { destruct (processing a); [done|]. pose proof (active_pos _ _ _ Hl Hd0). lia. }
  rewrite Hp in Hact.
  remember (length (executing [d0])) as n0.
  apply drainLoop_flag in Hd as [(_ & Hq' & Hp' & ->)|(_ & Hp' & Hd)];
    split; fields; rewrite ?Hp', ?Hdr, ?Hpc', ?Hpc, ?Hp.
  - simpl in Hai. lia.
  - simpl in Hei, Hqh. lia.
  - rewrite (active_live d Hd) in Hai. lia.
  - lia.
Qed.

Lemma tidy_step a e a' : tidy a → e ≠ Clear → step cfg e a = Some a' → tidy a'.
Proof.
  intros Ht Hne Hs.
  destruct e as [dt prio given gen ts now| | |l now|l o now]; simpl in Hs; [| done | ..].
  - simplify_eq. unfold enqueue. destruct (maxQueueSize cfg <=? pendingCount a)%Z; [done|].
    apply tidy_processQueue.
    + destruct Ht as [Hact Hpc]. split; fields; [done|].
      rewrite insertByPriority_length, Hpc. lia.
    + fields. intros _ Hq. apply (f_equal length) in Hq.
      by rewrite insertByPriority_length in Hq.
  - unfold rejectTimer in Hs. destruct (timers a); simplify_eq. done.
  - unfold sleepTimer in Hs. destruct (drains a !! l) as [[due|?|]|] eqn:Hl; try done.
    simplify_eq. destruct Ht as [Hact Hpc].
    eapply tidy_resume; [done..| |]; simpl; lia.
  - unfold analyzed in Hs. destruct (drains a !! l) as [[?|item|]|] eqn:Hl; try done.
    simplify_eq. destruct Ht as [Hact Hpc].
    pose proof (elem_of_executing _ _ _ Hl) as Hin.
    assert (1 ≤ length (executing (drains a))) as Hlen.
    { destruct (executing (drains a)); [by apply elem_of_nil in Hin|simpl; lia]. }
    eapply tidy_resume; [done..| |]; fields; simpl; lia.
Qed.

(** Without [clear], at most one activation is alive and [pendingCount]
    counts the units queued or being executed. *)
Lemma tidy_without_clear t0 es a :
  Forall (λ e, e ≠ Clear) es → run cfg es (create t0) = Some a → tidy a.
Proof.
  revert a. induction es as [|e es IH] using rev_ind; intros a Hes Hr.
  - simpl in Hr. simplify_eq. split; reflexivity.
  - apply Forall_app in Hes as [Hes He]. apply Forall_cons in He as [He _].
    rewrite run_app in Hr. destruct (run cfg es (create t0)) as [a0|] eqn:H0; [|done].
    simpl in Hr. destruct (step cfg e a0) as [a1|] eqn:Hs; [|done]. simplify_eq.
    eapply tidy_step; [|done..]. by apply IH.
Qed.

(** * Further properties of the queue *)

(** Induction along a run. *)
Lemma run_invariant (P : State → Prop) es a a' :
  (∀ b e b', P b → step cfg e b = Some b' → P b') →
  P a → run cfg es a = Some a' → P a'.
Proof.
  intros Hstep. revert a. induction es as [|e es IH]; intros a Ha Hr; simpl in Hr.
  - by simplify_eq.
  - destruct (step cfg e a) as [a1|] eqn:Hs; [|done]. eapply IH; [|done]. eauto.
Qed.

(** ** The counter and the admission rule *)

(** X1.  With a capacity that is not negative, the field [pendingCount]
    never exceeds [maxQueueSize], whatever calls of [enqueue] and [clear],
    timers and completions have happened. *)
Theorem pending_counter_bounded a :
  (0 ≤ maxQueueSize cfg)%Z →
  reachable cfg a →
  (pendingCount a ≤ maxQueueSize cfg)%Z.
Proof.
  intros Hcap. revert a. apply reachable_ind.
  - intros t0. by simpl.
  - intros a e a' _. by apply pendingCount_step.
Qed.

(** X2.  As long as [clear] has not been called there is at most one drain
    loop, alive exactly when the flag [processing] is up, and
    [pendingCount] is the number of units queued or being executed; so
    that number never exceeds a capacity that is not negative. *)
Theorem one_drain_loop_without_clear t0 es a :
  (0 ≤ maxQueueSize cfg)%Z →
  Forall (λ e, e ≠ Clear) es →
  run cfg es (create t0) = Some a →
  active (drains a) ≤ 1 ∧
  (processing a = true ↔ active (drains a) = 1) ∧
  pendingCount a = Z.of_nat (length (queue a) + length (executing (drains a))) ∧
  (Z.of_nat (length (queue a) + length (executing (drains a))) ≤ maxQueueSize cfg)%Z.
Proof.
  intros Hcap Hes Hr.
  destruct (tidy_without_clear t0 es a Hes Hr) as [Hact Hpc].
  assert (pendingCount a ≤ maxQueueSize cfg)%Z as Hle.
  { apply pendingCount_le_capacity; [done|]. by exists t0, es. }
  split_and!.
  - rewrite Hact. destruct (processing a); lia.
  - rewrite Hact. by destruct (processing a).
  - done.
  - by rewrite <- Hpc.
Qed.

Lemma enqueue_refusal dt prio given gen ts now a :
  reachable cfg a →
  let a' := enqueue cfg dt prio given gen ts now a in
  (submitted a ∈ timers a' ↔ (maxQueueSize cfg ≤ pendingCount a)%Z) ∧
  (submitted a ∈ serviceOrder a' ↔ (pendingCount a < maxQueueSize cfg)%Z).
Proof.
  intros Ha a'.
  pose proof (reachable_ledger a Ha) as [H1 _].
  pose proof (serviceOrder_units a Ha) as [_ Hso].
  assert (submitted a ∉ timers a) as Hnt.
  { intros Hin. assert (submitted a ∈ seq 0 (submitted a)) as Hs.
    { rewrite <- H1. apply elem_of_app. by left. }
    apply elem_of_seq in Hs. lia. }
  assert (submitted a ∉ serviceOrder a) as Hns by (intros Hin%Hso; lia).
  subst a'. destruct (decide (maxQueueSize cfg ≤ pendingCount a)%Z) as [Hfull|Hfree].
  - unfold enqueue. replace (maxQueueSize cfg <=? pendingCount a)%Z with true
      by (symmetry; by apply Z.leb_le).
    split; split; try lia.
    + intros _. fields. apply elem_of_app. right. by left.
    + intros Hin. by destruct Hns.
  - pose proof (enqueue_admitted dt prio given gen ts now a ltac:(lia)) as (_ & _ & Ht & _).
    simpl in Ht. split; split; try lia.
    + rewrite Ht. intros Hin. by destruct Hnt.
    + intros _. rewrite serviceOrder_enqueue by lia. apply elem_of_app. right.
      rewrite insertByPriority_handles. by left.
Qed.

(** X3.  As long as [clear] has not been called, a submission is refused
    exactly when the units queued or being executed already number
    [maxQueueSize] or more, and is otherwise taken into service (queued, or
    started at once). *)
Theorem admission_without_clear t0 es a dt prio given gen ts now :
  Forall (λ e, e ≠ Clear) es →
  run cfg es (create t0) = Some a →
  let a' := enqueue cfg dt prio given gen ts now a in
  let pending := length (queue a) + length (executing (drains a)) in
  (submitted a ∈ timers a' ↔ (maxQueueSize cfg ≤ Z.of_nat pending)%Z) ∧
  (submitted a ∈ serviceOrder a' ↔ (Z.of_nat pending < maxQueueSize cfg)%Z).
Proof.
  intros Hes Hr a' pending. subst a' pending.
  destruct (tidy_without_clear t0 es a Hes Hr) as [_ Hpc]. rewrite <- Hpc.
  apply enqueue_refusal. by exists t0, es.
Qed.

(** ** Degenerate configurations *)

Lemma drainLoop_zero_rate now a a' d :
  (requestsPerSecond cfg ≤ 0)%Z → requestCount a = 0%Z →
  drainLoop cfg now a = (a', d) →
  requestCount a' = 0%Z ∧ executing [d] = [].
Proof.
  intros Hrps Hc Hd.
  pose proof (drainLoop_outcome now a) as Ho. rewrite Hd in Ho. simpl in Ho.
  inversion Ho as [Hq|a1 item rest Hq Hw Hr|a1 item rest Hq Hw Hr]; subst.
  - done.
  - destruct Hw as [[-> _]|[-> _]]; done.
  - destruct Hw as [[-> _]|[-> _]]; fields; lia.
Qed.

(** X4.  With a limit [requestsPerSecond <= 0] no unit ever begins
    execution: every pass of the drain loop goes to sleep.  No callback is
    ever invoked with the outcome of [analyzeItem]; an admitted unit stays
    queued until [clear] rejects it. *)
Theorem zero_rate_never_starts a :
  (requestsPerSecond cfg ≤ 0)%Z →
  reachable cfg a →
  requestCount a = 0%Z ∧ started (trace a) = [] ∧ executing (drains a) = [] ∧
  worked (trace a) = [].
Proof.
  intros Hrps. revert a. apply reachable_ind; [done|].
  intros a e a' _ (Hc & Hst & Hex & Hw) Hs.
  assert (∀ now b b' d, requestCount b = 0%Z → started (trace b) = [] →
            worked (trace b) = [] → drainLoop cfg now b = (b', d) →
            requestCount b' = 0%Z ∧ started (trace b') = [] ∧ worked (trace b') = [] ∧
            executing [d] = []) as Hpass.
  { intros now b b' d Hb1 Hb2 Hb3 Hd.
    pose proof (drainLoop_frame _ _ _ _ Hd) as (_ & _ & _ & _ & _ & Hw' & _ & Hst').
    destruct (drainLoop_zero_rate now b b' d Hrps Hb1 Hd) as [? Hd'].
    by rewrite Hst', Hw', Hb2, Hb3, Hd'. }
  destruct e as [dt prio given gen ts now| | |l now|l o now]; simpl in Hs.
  - simplify_eq. unfold enqueue. destruct (maxQueueSize cfg <=? pendingCount a)%Z; [done|].
    unfold processQueue. destruct (processing _ || _); [done|].
    destruct (drainLoop cfg now _) as [a1 d] eqn:Hd.
    pose proof (drainLoop_frame _ _ _ _ Hd) as (_ & _ & Hdr & _).
    apply Hpass in Hd as (? & ? & ? & Hd); [|done..]. fields.
    split_and!; [done..| |done]. unfold executing in *.
    by rewrite Hdr, omap_app, Hex, Hd.
  - simplify_eq. fields.
    by rewrite started_app, worked_app, started_cleared, worked_cleared, Hst, Hw.
  - unfold rejectTimer in Hs. destruct (timers a); simplify_eq. fields.
    by rewrite started_app, worked_app, Hst, Hw.
  - unfold sleepTimer in Hs. destruct (drains a !! l) as [[due|?|]|] eqn:Hl; try done.
    simplify_eq. unfold resume. destruct (drainLoop cfg now a) as [a1 d] eqn:Hd.
    pose proof (drainLoop_frame _ _ _ _ Hd) as (_ & _ & Hdr & _).
    apply Hpass in Hd as (? & ? & ? & Hd); [|done..]. fields.
    split_and!; [done..| |done].
    pose proof (executing_insert _ _ _ d Hl) as Hi. rewrite Hd, Hex in Hi.
    rewrite Hdr. by apply Permutation_nil_r in Hi.
  - unfold analyzed in Hs. destruct (drains a !! l) as [[?|item|]|] eqn:Hl; try done.
    apply elem_of_executing in Hl. rewrite Hex in Hl. by apply elem_of_nil in Hl.
Qed.

(** X5.  With a capacity [maxQueueSize <= 0] every submission is refused:
    nothing is ever queued, no drain loop is ever started, [pendingCount]
    stays 0, and the only callbacks ever invoked are [errorCallback]s with
    the queue-full error. *)
Theorem no_capacity_refuses_all a :
  (maxQueueSize cfg ≤ 0)%Z →
  reachable cfg a →
  queue a = [] ∧ drains a = [] ∧ pendingCount a = 0%Z ∧
  Forall isRefusal (trace a).
Proof.
  intros Hcap. revert a. apply reachable_ind.
  - intros t0. split_and!; [done..|constructor].
  - intros a e a' _ (Hq & Hd & Hp & Htr) Hs.
    destruct e as [dt prio given gen ts now| | |l now|l o now]; simpl in Hs.
    + simplify_eq. unfold enqueue.
      replace (maxQueueSize cfg <=? pendingCount a)%Z with true
        by (symmetry; apply Z.leb_le; lia). done.
    + simplify_eq. fields. rewrite Hq. simpl. by rewrite app_nil_r.
    + unfold rejectTimer in Hs. destruct (timers a) as [|u ts]; simplify_eq. fields.
      split_and!; [done..|]. apply Forall_app. split; [done|].
      apply Forall_singleton. by exists u.
    + unfold sleepTimer in Hs. by rewrite Hd in Hs.
    + unfold analyzed in Hs. by rewrite Hd in Hs.
Qed.


(** ** Throughput *)

Lemma windows_starts tr :
  sum_list (windows tr).1 + (windows tr).2 = length (started tr).
Proof.
  induction tr as [|o tr IH] using rev_ind; [done|].
  rewrite windows_snoc. unfold started in *. rewrite omap_app, length_app.
  destruct o; simpl; rewrite ?sum_list_with_app; simpl; lia.
Qed.

Lemma sum_list_bounded (n : Z) (ws : list nat) :
  Forall (λ w, (Z.of_nat w ≤ n)%Z) ws →
  (Z.of_nat (sum_list ws) ≤ n * Z.of_nat (length ws))%Z.
Proof. induction 1 as [|w ws Hw _ IH]; simpl; lia. Qed.

Lemma spaced_drainLoop t0 now a a' d :
  (t0 + 1000 * Z.of_nat (length (windows (trace a)).1) ≤ lastResetTime a)%Z →
  drainLoop cfg now a = (a', d) →
  (t0 + 1000 * Z.of_nat (length (windows (trace a')).1) ≤ lastResetTime a')%Z ∧
  (lastResetTime a' = lastResetTime a ∨ lastResetTime a' = now).
Proof.
  intros Hsp Hd.
  assert (∀ a1, a1 = a ∧ (now - lastResetTime a < 1000)%Z ∨
                a1 = resetWindow now a ∧ (1000 ≤ now - lastResetTime a)%Z →
            (t0 + 1000 * Z.of_nat (length (windows (trace a1)).1) ≤ lastResetTime a1)%Z ∧
            (lastResetTime a1 = lastResetTime a ∨ lastResetTime a1 = now)) as Hwin.
  { intros a1 [[-> _]|[-> Hw]]; [by split; [|left]|]. fields.
    rewrite windows_snoc. simpl. rewrite length_app. simpl. split; [lia|by right]. }
  pose proof (drainLoop_outcome now a) as Ho. rewrite Hd in Ho. simpl in Ho.
  inversion Ho as [Hq|a1 item rest Hq Hw Hr|a1 item rest Hq Hw Hr]; subst.
  - split; [done|by left].
  - by apply Hwin.
  - destruct (Hwin _ Hw) as [H1 H2]. fields. rewrite windows_snoc. by simpl.
Qed.

Lemma spaced_step t0 a e a' :
  (t0 + 1000 * Z.of_nat (length (windows (trace a)).1) ≤ lastResetTime a)%Z →
  step cfg e a = Some a' →
  (t0 + 1000 * Z.of_nat (length (windows (trace a')).1) ≤ lastResetTime a')%Z ∧
  (lastResetTime a' = lastResetTime a ∨ Some (lastResetTime a') = loopClock e).
Proof.
  intros Hsp Hs.
  destruct e as [dt prio given gen ts now| | |l now|l o now]; simpl in Hs.
  - simplify_eq. unfold enqueue.
    destruct (maxQueueSize cfg <=? pendingCount a)%Z; [by split; [|left]|].
    unfold processQueue. destruct (processing _ || _); [by split; [|left]|].
    destruct (drainLoop cfg now _) as [a1 d] eqn:Hd.
    apply (spaced_drainLoop t0) in Hd as [H1 H2]; [|done]. fields.
    split; [done|]. destruct H2 as [->| ->]; [by left|by right].
  - simplify_eq. fields. rewrite windows_cleared. by split; [|left].
  - unfold rejectTimer in Hs. destruct (timers a); simplify_eq. fields.
    rewrite windows_snoc. by split; [|left].
  - unfold sleepTimer in Hs. destruct (drains a !! l) as [[due|?|]|] eqn:Hl; try done.
    simplify_eq. unfold resume. destruct (drainLoop cfg now a) as [a1 d] eqn:Hd.
    apply (spaced_drainLoop t0) in Hd as [H1 H2]; [|done]. fields.
    split; [done|]. destruct H2 as [->| ->]; [by left|by right].
  - unfold analyzed in Hs. destruct (drains a !! l) as [[?|item|]|] eqn:Hl; try done.
    simplify_eq. unfold resume. destruct (drainLoop cfg now _) as [a1 d] eqn:Hd.
    apply (spaced_drainLoop t0) in Hd as [H1 H2].
    + fields. split; [done|]. destruct H2 as [->| ->]; [by left|by right].
    + fields. rewrite windows_snoc. by destruct o.
Qed.

Lemma spaced_run t0 es a :
  run cfg es (create t0) = Some a →
  (t0 + 1000 * Z.of_nat (length (windows (trace a)).1) ≤ lastResetTime a)%Z ∧
  lastResetTime a ∈ t0 :: omap loopClock es.
Proof.
  revert a. induction es as [|e es IH] using rev_ind; intros a Hr.
  - simpl in Hr. simplify_eq. simpl. split; [lia|by left].
  - rewrite run_app in Hr. destruct (run cfg es (create t0)) as [a0|] eqn:H0; [|done].
    simpl in Hr. destruct (step cfg e a0) as [a1|] eqn:Hs; [|done]. simplify_eq.
    destruct (IH a0 eq_refl) as [H1 H2].
    destruct (spaced_step t0 a0 e a H1 Hs) as [H3 H4]. split; [done|].
    rewrite omap_app. change (t0 :: ?k ++ ?k') with ((t0 :: k) ++ k').
    apply elem_of_app. destruct H4 as [->|H4]; [by left|right].
    simpl. rewrite <- H4. by left.
Qed.

(** X6.  Starting units takes time.  On an analyzer created at time [t0]
    that has reset its rate window [r] times, fewer than
    [requestsPerSecond * (r + 1)] + 1 units have begun execution, and the
    last reset was at a reading of the clock of at least [t0 + 1000 * r]
    milliseconds; [lastResetTime] is [t0] or one of the readings of the
    clock taken by the drain loop. *)
Theorem throughput_bound t0 es a :
  (0 ≤ requestsPerSecond cfg)%Z →
  run cfg es (create t0) = Some a →
  let resets := length (windows (trace a)).1 in
  (Z.of_nat (length (started (trace a))) ≤ requestsPerSecond cfg * (Z.of_nat resets + 1))%Z ∧
  (t0 + 1000 * Z.of_nat resets ≤ lastResetTime a)%Z ∧
  lastResetTime a ∈ t0 :: omap loopClock es.
Proof.
  intros Hrps Hr resets. subst resets.
  destruct (spaced_run t0 es a Hr) as [H1 H2]. split; [|done].
  assert (rateBound cfg a) as (Hle & Hcur & Hall).
  { eapply (run_invariant (rateBound cfg)); [| |exact Hr].
    - intros b e b' Hb Hs. by eapply rateBound_step.
    - split_and!; [done|done|constructor]. }
  rewrite <- windows_starts. apply sum_list_bounded in Hall. lia.
Qed.

(** ** One pass of the drain loop *)

(** X7.  A pass of the drain loop that finds the queue not empty either
    starts the head of the queue, and then the window (after the reset, if
    one was due) had room and is less than a second old; or it goes to
    sleep, and then the limit is reached, the queue is untouched, and the
    sleep lasts exactly the [timeUntilReset] that [getStatus] reports at
    that moment, which is positive.  So a unit is never started while the
    limit is reached: the test [waitTime > 0] never fails. *)
Theorem drain_pass_starts_or_sleeps now a a' d :
  queue a ≠ [] →
  drainLoop cfg now a = (a', d) →
  let status := getStatus now a' in
  (∃ item, d = Executing item ∧ queue a = item :: queue a' ∧
     (0 < Status.timeUntilReset status)%Z ∧
     (Status.requestCount status ≤ requestsPerSecond cfg)%Z ∧
     (requestCount a' = 1%Z ∨ requestCount a' = requestCount a + 1)%Z) ∨
  (d = Sleeping (now + Status.timeUntilReset status) ∧ queue a' = queue a ∧
     (0 < Status.timeUntilReset status)%Z ∧
     (requestsPerSecond cfg ≤ Status.requestCount status)%Z ∧
     (requestCount a' = 0%Z ∨ requestCount a' = requestCount a)).
Proof.
  intros Hne Hd status. subst status. unfold getStatus. simpl.
  pose proof (drainLoop_outcome now a) as Ho. rewrite Hd in Ho. simpl in Ho.
  inversion Ho as [Hq|a1 item rest Hq Hw Hr|a1 item rest Hq Hw Hr]; subst.
  - done.
  - right. destruct Hw as [[-> Hw]|[-> Hw]]; fields.
    + split_and!; [f_equal; lia|done|lia|done|by right].
    + split_and!; [f_equal; lia|done|lia|done|by left].
  - left. exists item. destruct Hw as [[-> Hw]|[-> Hw]]; fields; fields.
    + split_and!; [done|done|lia|lia|by right].
    + split_and!; [done|done|lia|lia|by left].
Qed.


(** ** Sleeping *)

Lemma active_unique ds l1 l2 d1 d2 :
  active ds ≤ 1 →
  ds !! l1 = Some d1 → isActive d1 = true →
  ds !! l2 = Some d2 → isActive d2 = true →
  l1 = l2.
Proof.
  revert l1 l2. induction ds as [|d0 ds IH]; intros l1 l2 Hact H1 Hd1 H2 Hd2; [done|].
  destruct l1 as [|l1], l2 as [|l2]; simpl in H1, H2; simplify_eq.
  - done.
  - pose proof (active_pos _ _ _ H2 Hd2). destruct d1; simpl in *; try done; lia.
  - pose proof (active_pos _ _ _ H1 Hd1). destruct d2; simpl in *; try done; lia.
  - f_equal. apply IH; try done. destruct d0; simpl in Hact; lia.
Qed.

Lemma drainLoop_sleeper now a a' d due :
  drainLoop cfg now a = (a', d) → d = Sleeping due →
  due = (lastResetTime a' + 1000)%Z ∧ queue a' ≠ [].
Proof.
  intros Hd ->.
  pose proof (drainLoop_outcome now a) as Ho. rewrite Hd in Ho. simpl in Ho.
  inversion Ho as [|a1 item rest Hq Hw Hr|]; subst. split; [done|].
  destruct Hw as [[-> _]|[-> _]]; fields; by rewrite Hq.
Qed.

Lemma sleepers_resume l now a d0 :
  active (drains a) ≤ 1 → drains a !! l = Some d0 → isActive d0 = true →
  ∀ l' due, drains (resume cfg l now a) !! l' = Some (Sleeping due) →
    due = (lastResetTime (resume cfg l now a) + 1000)%Z ∧ queue (resume cfg l now a) ≠ [].
Proof.
  intros Hact Hl Hd0 l' due. unfold resume.
  destruct (drainLoop cfg now a) as [a1 d] eqn:Hd.
  pose proof (drainLoop_frame _ _ _ _ Hd) as (_ & _ & Hdr & _). fields. rewrite Hdr.
  intros Hl'. destruct (decide (l' = l)) as [->|Hne].
  - rewrite list_lookup_insert_eq in Hl' by (by eapply lookup_lt_Some).
    simplify_eq. by eapply drainLoop_sleeper.
  - rewrite list_lookup_insert_ne in Hl' by done.
    destruct Hne. by eapply (active_unique (drains a)).
Qed.

Lemma sleepers_step a e a' :
  tidy a → e ≠ Clear →
  (∀ l due, drains a !! l = Some (Sleeping due) →
     due = (lastResetTime a + 1000)%Z ∧ queue a ≠ []) →
  step cfg e a = Some a' →
  ∀ l due, drains a' !! l = Some (Sleeping due) →
    due = (lastResetTime a' + 1000)%Z ∧ queue a' ≠ [].
Proof.
  intros [Hact Hpc] Hne Hsl Hs.
  assert (active (drains a) ≤ 1) as Hone by (rewrite Hact; destruct (processing a); lia).
  destruct e as [dt prio given gen ts now| | |l0 now|l0 o now]; simpl in Hs; [| done | ..].
  - simplify_eq. unfold enqueue.
    destruct (maxQueueSize cfg <=? pendingCount a)%Z; [done|].
    unfold processQueue. fields. destruct (processing a) eqn:Hp; simpl.
    + intros l due Hl. fields. destruct (Hsl l due Hl) as [-> _]. split; [done|].
      intros Hq. pose proof (insertByPriority_length
        {| id := chooseId given gen; priority := clampPriority cfg (default (Finite 0) prio);
           timestamp := ts; data := dt; handle := submitted a |} (queue a)) as Hlen.
      rewrite Hq in Hlen. simpl in Hlen. lia.
    + destruct (length (insertByPriority _ _) =? 0)%nat eqn:Hz.
      { apply Nat.eqb_eq in Hz. rewrite insertByPriority_length in Hz. lia. }
      destruct (drainLoop cfg now _) as [a1 d] eqn:Hd.
      pose proof (drainLoop_frame _ _ _ _ Hd) as (_ & _ & Hdr & _). fields.
      intros l due Hl. rewrite Hdr in Hl. fields.
      destruct (decide (l < length (drains a))) as [Hlt|Hge].
      * rewrite lookup_app_l in Hl by done.
        pose proof (active_pos _ _ _ Hl eq_refl). lia.
      * rewrite lookup_app_r in Hl by lia.
        destruct (l - length (drains a)) as [|k]; simpl in Hl; [|done].
        simplify_eq. by eapply drainLoop_sleeper.
  - unfold rejectTimer in Hs. destruct (timers a); simplify_eq. done.
  - unfold sleepTimer in Hs. destruct (drains a !! l0) as [[due0|?|]|] eqn:Hl0; try done.
    simplify_eq. by eapply sleepers_resume.
  - unfold analyzed in Hs. destruct (drains a !! l0) as [[?|item|]|] eqn:Hl0; try done.
    simplify_eq. by eapply sleepers_resume.
Qed.

Lemma sleepers_without_clear t0 es a :
  Forall (λ e, e ≠ Clear) es → run cfg es (create t0) = Some a →
  ∀ l due, drains a !! l = Some (Sleeping due) →
    due = (lastResetTime a + 1000)%Z ∧ queue a ≠ [].
Proof.
  revert a. induction es as [|e es IH] using rev_ind; intros a Hes Hr.
  - simpl in Hr. simplify_eq. done.
  - apply Forall_app in Hes as [Hes He]. apply Forall_cons in He as [He _].
    rewrite run_app in Hr. destruct (run cfg es (create t0)) as [a0|] eqn:H0; [|done].
    simpl in Hr. destruct (step cfg e a0) as [a1|] eqn:Hs; [|done]. simplify_eq.
    eapply sleepers_step; [|done| |done].
    + by eapply tidy_without_clear.
    + by apply IH.
Qed.

(** X8.  As long as [clear] has not been called and the limit is at least
    1, a drain loop sleeps at most once per unit: when the sleep ends, at
    or after the time it was set for, the loop resets the window and starts
    the head of the queue. *)
Theorem sleep_ends_with_start t0 es a l due now :
  (1 ≤ requestsPerSecond cfg)%Z →
  Forall (λ e, e ≠ Clear) es →
  run cfg es (create t0) = Some a →
  drains a !! l = Some (Sleeping due) →
  (due ≤ now)%Z →
  ∃ item rest a',
    queue a = item :: rest ∧
    step cfg (SleepTimer l now) a = Some a' ∧
    drains a' !! l = Some (Executing item) ∧ queue a' = rest ∧
    requestCount a' = 1%Z ∧ lastResetTime a' = now ∧
    trace a' = trace a ++ [WindowReset now; Started (handle item)].
Proof.
  intros Hrps Hes Hr Hl Hdue.
  destruct (sleepers_without_clear t0 es a Hes Hr l due Hl) as [-> Hne].
  destruct (queue a) as [|item rest] eqn:Hq; [done|].
  exists item, rest. eexists. split; [done|]. simpl. unfold sleepTimer. rewrite Hl.
  split; [done|]. unfold resume, drainLoop. rewrite Hq.
  replace (1000 <=? now - lastResetTime a)%Z with true by (symmetry; apply Z.leb_le; lia).
  fields. replace (requestsPerSecond cfg <=? 0)%Z with false
    by (symmetry; apply Z.leb_gt; lia).
  fields. split_and!; try done.
  - apply list_lookup_insert_eq. by eapply lookup_lt_Some.
  - by rewrite <- app_assoc.
Qed.

(** ** Priorities *)

Lemma clampPriority_cases p :
  match p with
  | Finite z =>
      clampPriority cfg p = Finite (Z.max 0 (Z.min z (priorityLevels cfg - 1)))
  | NaN => clampPriority cfg p = NaN
  end.
Proof. by destruct p. Qed.

(** X9.  Every unit in the queue or being executed is the item built from
    the arguments of a call of [enqueue] of the run.  If the priority
    passed was an integer (0 if none was passed), the priority of the item
    is that integer clamped, so it lies between 0 and [priorityLevels - 1]
    (0 if there is no such level) and is the integer itself if that was in
    range.  If [NaN] was passed the priority of the item is [NaN]: the
    clamp lets it through. *)
Theorem priorities_in_range t0 es a item :
  run cfg es (create t0) = Some a →
  (item ∈ queue a ∨ ∃ l, drains a !! l = Some (Executing item)) →
  ∃ dt prio given gen ts now,
    Enqueue dt prio given gen ts now ∈ es ∧
    item = newItem cfg dt prio given gen ts (handle item) ∧
    match default (Finite 0) prio with
    | Finite z =>
        ∃ z', priority item = Finite z' ∧
              (0 ≤ z' ≤ Z.max 0 (priorityLevels cfg - 1))%Z ∧
              z' = Z.max 0 (Z.min z (priorityLevels cfg - 1)) ∧
              ((0 ≤ z ≤ priorityLevels cfg - 1)%Z → z' = z)
    | NaN => priority item = NaN
    end.
Proof.
  intros Hr Hin.
  destruct (held_submission t0 es a item Hr Hin)
    as (dt & prio & given & gen & ts & now & He & _ & Hi).
  exists dt, prio, given, gen, ts, now. split_and!; [done..|].
  rewrite Hi. simpl. pose proof (clampPriority_cases (default (Finite 0) prio)) as Hc.
  destruct (default (Finite 0) prio) as [z|]; [|done].
  eexists. split; [exact Hc|]. lia.
Qed.

(** X10.  [insertByPriority] puts the new item behind every item whose
    priority is at least its own and directly before the first item of
    lower priority (at the end if there is none); the other items keep
    their places relative to each other.  This holds for any queue, sorted
    or not; an item whose priority is [NaN], which is greater than none,
    goes to the end, and is not lower than any. *)
Theorem insertByPriority_position item q :
  ∃ front back,
    q = front ++ back ∧
    insertByPriority item q = front ++ item :: back ∧
    Forall (λ x, greater (priority item) (priority x) = false) front ∧
    (∀ y, head back = Some y → greater (priority item) (priority y) = true) ∧
    (∀ p, priority item = Finite p →
       Forall (λ x, match priority x with Finite px => (p ≤ px)%Z | NaN => True end) front ∧
       ∀ y, head back = Some y → ∃ py, priority y = Finite py ∧ (py < p)%Z) ∧
    (priority item = NaN → back = []) ∧
    length (insertByPriority item q) = S (length q).
Proof.
  destruct (insertByPriority_split item q) as (q1 & q2 & Hq & Hi & H1 & H2).
  assert (∀ y, head q2 = Some y → greater (priority item) (priority y) = true) as H2'.
  { intros y Hy. destruct q2; simpl in Hy; by simplify_eq. }
  exists q1, q2. split_and!; [done..| | |apply insertByPriority_length].
  - intros p Hp. rewrite Hp in *. split.
    + eapply Forall_impl; [exact H1|]. intros x. unfold greater.
      destruct (priority x); [|done]. intros Hx%Z.ltb_ge. lia.
    + intros y Hy%H2'. unfold greater in Hy. destruct (priority y) as [py|]; [|done].
      exists py. split; [done|]. by apply Z.ltb_lt.
  - intros Hn. destruct q2 as [|y q2]; [done|].
    specialize (H2' y eq_refl). by rewrite Hn in H2'.
Qed.

(** ** [getStatus] *)

(** X11.  What [getStatus] reports on any state the analyzer can be in
    (with a limit that is not negative): a [requestCount] between 0 and the
    limit; a [timeUntilReset] that is never negative, is 0 exactly when the
    window is at least a second old, and is at most 1000 unless the clock
    has gone back behind the last reset; and an empty queue whenever
    [processing] is false. *)
Theorem getStatus_report now a :
  (0 ≤ requestsPerSecond cfg)%Z →
  reachable cfg a →
  let status := getStatus now a in
  (0 ≤ Status.requestCount status ≤ requestsPerSecond cfg)%Z ∧
  (0 ≤ Status.timeUntilReset status)%Z ∧
  (Status.timeUntilReset status = 0%Z ↔ (1000 ≤ now - lastResetTime a)%Z) ∧
  ((lastResetTime a ≤ now)%Z → (Status.timeUntilReset status ≤ 1000)%Z) ∧
  (Status.processing status = false → Status.queueLength status = 0).
Proof.
  intros Hrps Ha status. subst status. unfold getStatus. simpl.
  assert (rateBound cfg a) as (Hle & Hcur & _).
  { revert a Ha. apply reachable_ind.
    - intros t0. split_and!; [done|done|constructor].
    - intros b e b' _. by apply rateBound_step. }
  pose proof (reachable_flagged a Ha) as [Hfl _].
  split_and!; try lia. intros Hp. by rewrite (Hfl Hp).
Qed.


(** ** Who gets what *)



End QueueProperties.

(** * Properties of [calculateComplexity] *)

Section ComplexityProperties.

Variable h : Heap.

Implicit Types (visit : nat → Z → Completion) (props keys : list (string * JsValue))
  (c n : Z) (fuel : nat) (method : bool).

(** The loop ends when the visits of the children do. *)
Lemma forIn_ends visit method props keys c :
  (∀ child c', visit child c' ≠ OutOfFuel) →
  forIn visit method props keys c ≠ OutOfFuel.
Proof.
  intros Hv. revert c. induction keys as [|[key v] keys IH]; intros c; simpl; [done|].
  destruct method; [|done].
  destruct (getProperty key props); try apply IH.
  destruct (visit ref (c + 1)%Z) eqn:Hr; [apply IH|done|by apply Hv in Hr].
Qed.


(** With the method of [Object.prototype] the loop returns when the visits
    do. *)
Lemma forIn_returns visit props keys c :
  (∀ child c', ∃ n', visit child c' = Return n') →
  ∃ n, forIn visit true props keys c = Return n.
Proof.
  intros Hv. revert c. induction keys as [|[key v] keys IH]; intros c; simpl; [eauto|].
  destruct (getProperty key props); try apply IH.
  destruct (Hv ref (c + 1)%Z) as [n' ->]. apply IH.
Qed.

(** The loop does not depend on visits it does not wait for in vain. *)
Lemma forIn_agree visit1 visit2 method props keys c r :
  (∀ child c' r', visit1 child c' = r' → r' ≠ OutOfFuel → visit2 child c' = r') →
  forIn visit1 method props keys c = r → r ≠ OutOfFuel →
  forIn visit2 method props keys c = r.
Proof.
  intros Hv. revert c. induction keys as [|[key v] keys IH]; intros c; simpl; [done|].
  destruct method; [|done].
  destruct (getProperty key props); try apply IH.
  destruct (visit1 ref (c + 1)%Z) eqn:Hr; intros Hf Hne.
  - rewrite (Hv _ _ _ Hr) by done. by apply IH.
  - by rewrite (Hv _ _ _ Hr).
  - by subst.
Qed.

(** Seven nested calls are never exceeded: the call at depth 6 returns at
    once. *)
Lemma traverse_ends fuel obj depth c :
  1 ≤ fuel → (7 - depth ≤ Z.of_nat fuel)%Z →
  traverse fuel h obj depth c ≠ OutOfFuel.
Proof.
  revert obj depth c. induction fuel as [|fuel IH]; intros obj depth c H1 H7; [lia|].
  simpl. destruct (5 <? depth)%Z eqn:Hd; [done|]. apply Z.ltb_ge in Hd.
  apply forIn_ends. intros child c'. apply IH; lia.
Qed.


Lemma traverse_returns fuel obj depth c :
  (∀ r, ownCheck h r = true) →
  1 ≤ fuel → (7 - depth ≤ Z.of_nat fuel)%Z →
  ∃ n, traverse fuel h obj depth c = Return n.
Proof.
  intros Hp. revert obj depth c.
  induction fuel as [|fuel IH]; intros obj depth c H1 H7; [lia|].
  simpl. destruct (5 <? depth)%Z eqn:Hd; [eauto|]. apply Z.ltb_ge in Hd.
  rewrite Hp. apply forIn_returns. intros child c'. apply IH; lia.
Qed.


(** More fuel changes nothing once the traversal has ended. *)
Lemma traverse_more_fuel fuel obj depth c r :
  traverse fuel h obj depth c = r → r ≠ OutOfFuel →
  traverse (S fuel) h obj depth c = r.
Proof.
  revert obj depth c r. induction fuel as [|fuel IH]; intros obj depth c r.
  - simpl. by intros <-.
  - intros Hr Hne. change (traverse (S (S fuel)) h obj depth c)
      with (if (5 <? depth)%Z then Return c
            else forIn (λ child c', traverse (S fuel) h child (depth + 1) c')
                       (ownCheck h obj) (h obj) (h obj) c).
    simpl in Hr. destruct (5 <? depth)%Z; [done|].
    eapply forIn_agree; [|exact Hr|done]. intros child c' r'. apply IH.
Qed.

Lemma traverse_fuel fuel obj c :
  7 ≤ fuel → traverse fuel h obj 0 c = traverse 7 h obj 0 c.
Proof.
  intros Hf. replace fuel with ((fuel - 7) + 7) by lia.
  induction (fuel - 7) as [|k IH]; [done|].
  change (S k + 7) with (S (k + 7)). apply traverse_more_fuel; [done|].
  rewrite <- IH. apply traverse_ends; lia.
Qed.


End ComplexityProperties.

(** * Properties of [analyzeItem] *)

Section AnalysisProperties.

Variable h : Heap.
Variable isArray : nat → bool.

Abbreviation blank := (λ c : N, isWhitespace c = true).
Abbreviation solid := (λ c : N, isWhitespace c = false).

(** ** [split] *)

Lemma splitFrom_concat s piece inRun :
  (inRun = true → piece = []) →
  concat (splitFrom s piece inRun) = piece ++ filter solid s.
Proof.
  revert piece inRun. induction s as [|c s IH]; intros piece inRun Hrun; simpl.
  - by rewrite filter_nil.
  - destruct (isWhitespace c) eqn:Hc.
    + rewrite filter_cons_False by (by rewrite Hc).
      destruct inRun; simpl; rewrite IH by done; [by rewrite Hrun|done].
    + rewrite filter_cons_True by done. rewrite IH by done. by rewrite <- app_assoc.
Qed.

Lemma splitFrom_solid s piece inRun :
  Forall solid piece → Forall (Forall solid) (splitFrom s piece inRun).
Proof.
  revert piece inRun. induction s as [|c s IH]; intros piece inRun Hp; simpl.
  - by constructor.
  - destruct (isWhitespace c) eqn:Hc.
    + destruct inRun; [by apply IH|]. constructor; [done|]. by apply IH.
    + apply IH. apply Forall_app. by split; [|constructor].
Qed.

Lemma splitFrom_length s piece inRun :
  1 ≤ length (splitFrom s piece inRun) ≤ S (length s).
Proof.
  revert piece inRun. induction s as [|c s IH]; intros piece inRun; simpl; [lia|].
  destruct (isWhitespace c); [destruct inRun; simpl|].
  - specialize (IH [] true). lia.
  - specialize (IH [] true). lia.
  - specialize (IH (piece ++ [c]) false). lia.
Qed.

Lemma splitFrom_word w s piece :
  Forall solid w → splitFrom (w ++ s) piece false = splitFrom s (piece ++ w) false.
Proof.
  intros Hw. revert piece. induction Hw as [|c w Hc _ IH]; intros piece; simpl.
  - by rewrite app_nil_r.
  - rewrite Hc, IH. by rewrite <- app_assoc.
Qed.

Lemma splitFrom_run r s :
  Forall blank r → splitFrom (r ++ s) [] true = splitFrom s [] true.
Proof. induction 1 as [|c r Hc _ IH]; simpl; [done|]. by rewrite Hc. Qed.

Lemma splitFrom_fresh s :
  (∀ c, head s = Some c → isWhitespace c = false) →
  splitFrom s [] true = splitFrom s [] false.
Proof. destruct s as [|c s]; simpl; [done|]. intros Hc. by rewrite (Hc c). Qed.

Lemma splitFrom_blank s piece :
  Exists blank s → 2 ≤ length (splitFrom s piece false).
Proof.
  revert piece. induction s as [|c s IH]; intros piece Hex.
  - by apply Exists_nil in Hex.
  - simpl. destruct (isWhitespace c) eqn:Hc; simpl.
    + pose proof (splitFrom_length s [] true). lia.
    + apply IH. apply Exists_cons in Hex as [Hex|Hex]; [congruence|done].
Qed.

Lemma codeUnits_length s : length (codeUnits s) = String.length s.
Proof.
  unfold codeUnits. rewrite length_map. induction s as [|c s IH]; simpl; [done|].
  by rewrite IH.
Qed.

(** X13.  For a string, [performAnalysis] resolves with the length of the
    string and a [wordCount] that is the number of pieces into which the
    runs of white space cut it: at least 1 (also for the empty string), at
    most the length plus 1, and 1 exactly when the string has no white
    space.  No piece contains white space, and the pieces put together are
    the string without its white space. *)
Theorem text_analysis_pieces fuel (s : string) :
  let pieces := splitWhitespace (codeUnits s) in
  performAnalysis fuel h (JsString s)
    = Fulfilled (TextAnalysis (String.length s) (length pieces)) ∧
  1 ≤ length pieces ≤ S (String.length s) ∧
  (length pieces = 1 ↔ Forall solid (codeUnits s)) ∧
  Forall (Forall solid) pieces ∧
  concat pieces = filter solid (codeUnits s).
Proof.
  intros pieces. subst pieces. unfold splitWhitespace.
  split; [|split; [|split; [|split]]].
  - simpl. by rewrite codeUnits_length.
  - rewrite <- codeUnits_length. apply splitFrom_length.
  - split.
    + intros Hone. apply Forall_forall. intros c Hc.
      destruct (isWhitespace c) eqn:Hw; [|done].
      assert (Exists blank (codeUnits s)) as Hex by (apply Exists_exists; eauto).
      apply (splitFrom_blank _ []) in Hex. lia.
    + intros Hs. rewrite <- (app_nil_r (codeUnits s)).
      by rewrite splitFrom_word.
  - by apply splitFrom_solid.
  - by rewrite splitFrom_concat.
Qed.

(** X14.  How [split(/\s+/)] cuts a text: a word without white space is one
    piece, and a word followed by a run of white space is cut off as the
    first piece, the run being dropped whatever its length.  With an empty
    word: white space at the start of a text gives an empty first piece;
    with nothing behind the run: white space at the end gives an empty last
    piece, so a blank text counts as two pieces. *)
Theorem splitWhitespace_words (w r s : list N) :
  Forall solid w →
  r ≠ [] → Forall blank r →
  (∀ c, head s = Some c → isWhitespace c = false) →
  splitWhitespace w = [w] ∧
  splitWhitespace (w ++ r ++ s) = w :: splitWhitespace s ∧
  splitWhitespace (w ++ r) = [w; []] ∧
  splitWhitespace r = [[]; []].
Proof.
  intros Hw Hne Hr Hs.
  assert (∀ s', (∀ c, head s' = Some c → isWhitespace c = false) →
            splitWhitespace (w ++ r ++ s') = w :: splitWhitespace s') as Hcut.
  { intros s' Hs'. unfold splitWhitespace. rewrite splitFrom_word by done.
    destruct r as [|c r']; [done|]. apply Forall_cons in Hr as [Hc Hr'].
    simpl. rewrite Hc. by rewrite splitFrom_run, splitFrom_fresh. }
  assert (splitWhitespace w = [w]) as Hword.
  { unfold splitWhitespace. rewrite <- (app_nil_r w) at 1. by rewrite splitFrom_word. }
  split_and!; [done|by apply Hcut| |].
  - specialize (Hcut [] ltac:(done)). by rewrite app_nil_r in Hcut.
  - unfold splitWhitespace. destruct r as [|c r']; [done|].
    apply Forall_cons in Hr as [Hc Hr']. simpl. rewrite Hc.
    rewrite <- (app_nil_r r'). by rewrite splitFrom_run.
Qed.

(** ** [determineAnalysisType] *)

Lemma prefix_spec (p s : string) :
  String.prefix p s = true ↔ ∃ post, s = p +:+ post.
Proof.
  revert s. induction p as [|a p IH]; intros s.
  - destruct s; simpl; split; eauto.
  - destruct s as [|b s]; simpl.
    + split; [done|]. by intros [post ?].
    + destruct (Ascii.ascii_dec a b) as [->|Hne].
      * rewrite IH. split; intros [post Hp]; exists post; [by rewrite Hp|].
        by injection Hp.
      * split; [done|]. intros [post Hp]. by injection Hp as -> ?.
Qed.

Lemma includes_spec (needle s : string) :
  includes needle s = true ↔ ∃ pre post, s = pre +:+ needle +:+ post.
Proof.
  induction s as [|c s IH].
  - change (includes needle EmptyString) with (String.prefix needle EmptyString || false).
    rewrite orb_false_r, prefix_spec. split.
    + intros [post Hp]. by exists EmptyString, post.
    + intros (pre & post & Hp). destruct pre; [|done]. by exists post.
  - change (includes needle (String c s))
      with (String.prefix needle (String c s) || includes needle s).
    rewrite orb_true_iff, prefix_spec, IH. split.
    + intros [[post Hp]|(pre & post & Hp)].
      * by exists EmptyString, post.
      * exists (String c pre), post. simpl. by rewrite Hp.
    + intros (pre & post & Hp). destruct pre as [|c' pre]; simpl in Hp.
      * left. by exists post.
      * right. exists pre, post. by injection Hp.
Qed.

(** X15.  The [type] of a result: [event] exactly for a string that
    contains the text event; [documentation] exactly for a string that
    contains doc but not event; [state] exactly for an object whose
    property [type] is the string state; [pattern] in every other case,
    among them [null], numbers and strings with neither text. *)
Theorem determineAnalysisType_cases data :
  let has (needle : string) :=
    ∃ s pre post, data = JsString s ∧ s = pre +:+ needle +:+ post in
  (determineAnalysisType h data = event ↔ has "event"%string) ∧
  (determineAnalysisType h data = documentation
     ↔ has "doc"%string ∧ ¬ has "event"%string) ∧
  (determineAnalysisType h data = state
     ↔ ∃ obj, data = JsObject obj ∧ getProperty "type" (h obj) = JsString "state") ∧
  (determineAnalysisType h data = pattern
     ↔ determineAnalysisType h data ≠ event ∧
       determineAnalysisType h data ≠ documentation ∧
       determineAnalysisType h data ≠ state).
Proof.
  intros has.
  assert (∀ needle s, data = JsString s → (has needle ↔ includes needle s = true)) as Hstr.
  { intros needle s Hd. rewrite includes_spec. split.
    - intros (s' & pre & post & Hs' & Hp). rewrite Hd in Hs'. injection Hs' as <-. eauto.
    - intros (pre & post & Hp). by exists s, pre, post. }
  assert ((∀ s, data ≠ JsString s) → ∀ needle, ¬ has needle) as Hnot.
  { intros Hn needle (s & _ & _ & Hd & _). by eapply Hn. }
  clearbody has.
  split_and!;
    [..|destruct (determineAnalysisType h data);
        (split; [by intros _|by intros _]) || (split; [done|by intros (? & ? & ?)])];
    unfold determineAnalysisType; destruct data as [| | | |s|obj]; simpl;
    try (split; [done|]; first [by intros ?%Hnot|by intros [?%Hnot _]|by intros (? & ? & ?)]).
  - rewrite (Hstr _ s eq_refl). destruct (includes "event" s); [done|].
    by destruct (includes "doc" s).
  - split; [|by intros ?%Hnot].
    destruct (getProperty "type" (h obj)) as [| | | |t|]; simpl; try done.
    destruct (String.eqb t "pattern"); [done|]. by destruct (String.eqb t "state").
  - rewrite !(Hstr _ s eq_refl).
    destruct (includes "event" s); [by split; [|intros [_ []]]|].
    destruct (includes "doc" s); [by split; [split|]|by split; [|intros []]].
  - split; [|by intros [?%Hnot _]].
    destruct (getProperty "type" (h obj)) as [| | | |t|]; simpl; try done.
    destruct (String.eqb t "pattern"); [done|]. by destruct (String.eqb t "state").
  - split; [|by intros (? & ? & ?)].
    destruct (includes "event" s); [done|]. by destruct (includes "doc" s).
  - destruct (getProperty "type" (h obj)) as [| | | |t|] eqn:Ht; simpl;
      try (split; [done|]; intros (? & [= <-] & Heq); by rewrite Ht in Heq).
    destruct (String.eqb_spec t "pattern") as [->|Hp].
    + split; [done|]. intros (? & [= <-] & Heq). by rewrite Ht in Heq.
    + destruct (String.eqb_spec t "state") as [->|Hs].
      * split; [eauto|done].
      * split; [done|]. intros (? & [= <-] & Heq). rewrite Ht in Heq. by injection Heq.
Qed.

(** ** [performAnalysis] on objects *)





(** ** [calculateConfidence] *)

(** X17.  The confidence of a result (as the exact value of the expression
    the code evaluates in floating point) lies between 0 and 0.95.  For a
    string it is the length divided by 1000 up to 900 code units and 0.9
    from there on; for an object it is the number of keys divided by 20 up
    to 19 keys and 0.95 from there on; for anything else it is 0.5. *)
Theorem calculateConfidence_range data :
  (0 <= calculateConfidence h data)%Q ∧
  (calculateConfidence h data <= 95 # 100)%Q ∧
  (∀ s, data = JsString s →
     let n := Z.of_nat (String.length s) in
     ((n ≤ 900)%Z → calculateConfidence h data == inject_Z n / 1000) ∧
     ((900 ≤ n)%Z → calculateConfidence h data == 9 # 10)) ∧
  (∀ obj, data = JsObject obj →
     let n := Z.of_nat (length (h obj)) in
     ((n ≤ 19)%Z → calculateConfidence h data == inject_Z n / 20) ∧
     ((19 ≤ n)%Z → calculateConfidence h data == 95 # 100)) ∧
  ((∀ s, data ≠ JsString s) → (∀ obj, data ≠ JsObject obj) →
     calculateConfidence h data == 1 # 2).
Proof.
  assert (∀ n : nat, (0 <= inject_Z (Z.of_nat n) / 1000)%Q) as H1000.
  { intros n. unfold Qle, Qdiv, Qmult, Qinv, inject_Z. simpl. lia. }
  assert (∀ n : nat, (0 <= inject_Z (Z.of_nat n) / 20)%Q) as H20.
  { intros n. unfold Qle, Qdiv, Qmult, Qinv, inject_Z. simpl. lia. }
  split_and!.
  - destruct data; simpl; try done; by apply Q.min_glb.
  - destruct data; simpl; try done.
    + eapply Qle_trans; [apply Q.le_min_l|done].
    + apply Q.le_min_l.
  - intros s -> n. subst n. simpl. rewrite codeUnits_length. split; intros Hn.
    + apply Q.min_r. unfold Qle, Qdiv, Qmult, Qinv, inject_Z. simpl. lia.
    + apply Q.min_l. unfold Qle, Qdiv, Qmult, Qinv, inject_Z. simpl. lia.
  - intros obj -> n. subst n. simpl. split; intros Hn.
    + apply Q.min_r. unfold Qle, Qdiv, Qmult, Qinv, inject_Z. simpl. lia.
    + apply Q.min_l. unfold Qle, Qdiv, Qmult, Qinv, inject_Z. simpl. lia.
  - intros Hs Ho. destruct data; simpl; try done; [by destruct (Hs s)|by destruct (Ho ref)].
Qed.

(** ** [analyzeItem] *)

#[local] Arguments traverse : simpl never.

Lemma performAnalysis_fuel fuel data :
  7 ≤ fuel →
  performAnalysis fuel h data = performAnalysis 7 h data ∧
  performAnalysis fuel h data ≠ Unsettled.
Proof.
  intros Hf. destruct data as [| | | |s|obj]; try done.
  unfold performAnalysis, calculateComplexity. rewrite (traverse_fuel h fuel obj 0 Hf).
  split; [done|]. pose proof (traverse_ends h 7 obj 0 0 ltac:(lia) ltac:(lia)).
  by destruct (traverse 7 h obj 0 0).
Qed.

(** X18.  [analyzeItem] always settles (the recursion of
    [calculateComplexity] never goes deeper than 7 calls).  It fails only
    for an object on which [calculateComplexity] throws.  When it resolves,
    the result carries the item's [id] and the time of the analysis, and
    its parts agree on what the payload is: the analysis is of text exactly
    when the category is text, it is the basic one exactly when the category
    is primitive, the types [event] and [documentation] go with text only,
    and the type [state] goes with an object analysis only. *)
Theorem analyzeItem_settles fuel now (item : QueueItem JsValue) :
  7 ≤ fuel →
  analyzeItem fuel h isArray now item = analyzeItem 7 h isArray now item ∧
  analyzeItem fuel h isArray now item ≠ Unsettled ∧
  (analyzeItem fuel h isArray now item = RejectedTypeError
     ↔ ∃ obj, data item = JsObject obj ∧
              calculateComplexity 7 h (JsObject obj) = ThrowTypeError) ∧
  (∀ r, analyzeItem fuel h isArray now item = Fulfilled r →
     AnalyzerResult.id r = id item ∧
     AnalyzerResult.timestamp r = now ∧
     AnalyzerResult.type r = determineAnalysisType h (data item) ∧
     performAnalysis 7 h (data item) = Fulfilled (AnalyzerResult.data r) ∧
     let category := AnalyzerResult.category (AnalyzerResult.metadata r) in
     let kind := analysisType (AnalyzerResult.data r) in
     category = categorizeData isArray (data item) ∧
     (kind = "text"%string ↔ category = "text"%string) ∧
     (kind = "unknown"%string ↔ category = "primitive"%string) ∧
     (AnalyzerResult.type r = event ∨ AnalyzerResult.type r = documentation →
      kind = "text"%string) ∧
     (AnalyzerResult.type r = state → kind = "object"%string)).
Proof.
  intros Hf. destruct (performAnalysis_fuel fuel (data item) Hf) as [Heq Hne].
  unfold analyzeItem. rewrite Heq in *. clear Heq.
  split; [done|]. split; [by destruct (performAnalysis 7 h (data item))|]. split.
  - destruct (data item) as [| | | |s|obj]; simpl;
      try (split; [done|by intros (? & ? & ?)]).
    destruct (traverse 7 h obj 0 0) eqn:Hc.
    + split; [done|]. intros (? & [= <-] & Ht). by rewrite Hc in Ht.
    + split; [eauto|done].
    + split; [done|]. intros (? & [= <-] & Ht). by rewrite Hc in Ht.
  - intros r. destruct (performAnalysis 7 h (data item)) as [analysis| |] eqn:Hp; try done.
    intros [= <-]. simpl.
    destruct (data item) as [| | | |s|obj]; simpl in Hp;
      [..|destruct (traverse 7 h obj 0 0); try done]; simplify_eq; simpl;
      (split_and!; try done; try (by split); try (destruct (isArray obj); by split));
      unfold determineAnalysisType; simpl;
      repeat (match goal with |- context [if ?b then _ else _] => destruct b end);
      try done; by intros [|].
Qed.


End AnalysisProperties.

(** * The queue with [analyzeItem] as its work *)

(** X19.  What the callbacks of a unit receive when the work is
    [analyzeItem], whatever is done to the payload objects in the
    meantime; [h] is the heap at the moment the unit is analysed.  A result
    handed to the callback of call [u] has the [id] passed to that call
    (the generated one if none or the empty string was passed), the type
    and the analysis of that call's payload as it is at that moment, and
    the category of that payload.  A failure of the work reaches an
    [errorCallback] only for a payload that is an object on which
    [calculateComplexity] throws at that moment; if [hasOwnProperty] is
    always the method of [Object.prototype] on every object, no unit ever
    fails. *)
Theorem callbacks_of_analysis cfg (heaps : Heap → Prop) isArray t0
    (es : list (Event JsValue AnalyzerResult.t unit)) a :
  run cfg es (create t0) = Some a →
  runsAs (analyzeItemOutcome heaps isArray) cfg es (create t0) →
  (∀ u r, Callback u r ∈ trace a →
     ∃ dt prio given gen ts now h,
       Enqueue dt prio given gen ts now ∈ es ∧
       submissions cfg 0 es !! u = Some (newItem cfg dt prio given gen ts u) ∧
       heaps h ∧
       AnalyzerResult.id r = chooseId given gen ∧
       AnalyzerResult.type r = determineAnalysisType h dt ∧
       performAnalysis 7 h dt = Fulfilled (AnalyzerResult.data r) ∧
       AnalyzerResult.category (AnalyzerResult.metadata r) = categorizeData isArray dt) ∧
  (∀ u f, ErrorCallback u (WorkFailed f) ∈ trace a →
     ∃ obj prio given gen ts now h,
       Enqueue (JsObject obj) prio given gen ts now ∈ es ∧
       submissions cfg 0 es !! u = Some (newItem cfg (JsObject obj) prio given gen ts u) ∧
       heaps h ∧
       calculateComplexity 7 h (JsObject obj) = ThrowTypeError) ∧
  ((∀ h, heaps h → ∀ r, ownCheck h r = true) →
   ∀ u f, ErrorCallback u (WorkFailed f) ∉ trace a).
Proof.
  intros Hr Hw.
  pose proof (delivered_submission cfg (analyzeItemOutcome heaps isArray) t0 es a Hr Hw)
    as Hd.
  assert (∀ u f, ErrorCallback u (WorkFailed f) ∈ trace a →
     ∃ obj prio given gen ts now h,
       Enqueue (JsObject obj) prio given gen ts now ∈ es ∧
       submissions cfg 0 es !! u = Some (newItem cfg (JsObject obj) prio given gen ts u) ∧
       heaps h ∧
       calculateComplexity 7 h (JsObject obj) = ThrowTypeError) as Hfail.
  { intros u f Hin.
    destruct (Hd _ u (inr f) Hin eq_refl)
      as (dt & prio & given & gen & ts & now & He & Hs & h & h' & now' & Hh & _ & Ha).
    unfold analyzeItemAt, newItem in Ha. cbn [data] in Ha.
    destruct dt as [| | | |s|obj];
      unfold performAnalysis, calculateComplexity in Ha; cbv beta iota zeta in Ha;
      try done.
    exists obj, prio, given, gen, ts, now, h. split_and!; [done..|].
    unfold calculateComplexity. by destruct (traverse 7 h obj 0 0). }
  split_and!; [|done|].
  - intros u r Hin.
    destruct (Hd _ u (inl r) Hin eq_refl)
      as (dt & prio & given & gen & ts & now & He & Hs & h & h' & now' & Hh & _ & Ha).
    exists dt, prio, given, gen, ts, now, h.
    unfold analyzeItemAt, newItem in Ha. cbn [data id] in Ha.
    destruct (performAnalysis 7 h dt) as [analysis| |]; try done.
    by injection Ha as <-.
  - intros Hp u f (obj & _ & _ & _ & _ & _ & h & _ & _ & Hh & Ht)%Hfail.
    destruct (traverse_returns h 7 obj 0 0 (Hp h Hh) ltac:(lia) ltac:(lia)) as [n Hn].
    unfold calculateComplexity in Ht. by rewrite Hn in Ht.
Qed.

(** * The scenarios *)

Lemma threeSubmitted_reachable : reachable demoConfig threeSubmitted.
Proof. exists 0%Z, (take 3 lowHighMedium). reflexivity. Qed.

(** C3, as stated, fails: on a fresh analyzer with three priority levels,
    low, high and medium submitted in that order without delay begin
    execution in the order low, high, medium, not high, medium, low. *)
Lemma low_high_medium_start_order :
  startOrder demoConfig lowHighMedium = Some [0; 1; 2] ∧
  startOrder demoConfig lowHighMedium ≠ Some [1; 2; 0].
Proof. split; [reflexivity|discriminate]. Qed.

(** With the window exhausted the drain loop sleeps while the three are
    queued, and they start by priority: high, medium, low. *)
Example exhausted_window_start_order :
  startOrder slowConfig windowExhausted = Some [0; 2; 3; 1].
Proof. reflexivity. Qed.

Lemma idle_queue_start_order_witness :
  reachable demoConfig (create 0 : RateLimitedAnalyzer string string string) ∧
  started (trace threeSubmitted) = [0] ∧
  map handle (queue threeSubmitted) = [1; 2] ∧
  ∀ es a', run demoConfig es threeSubmitted = Some a' →
    filter (λ u, 0 ≤ u < 3) (started (trace a')) `prefix_of` [0; 1; 2].
Proof.
  assert (reachable demoConfig (create 0 : RateLimitedAnalyzer string string string))
    as Hr by (exists 0%Z, []; reflexivity).
  split; [exact Hr|].
  apply (proj1 (idle_queue_start_order demoConfig (create 0) "low"%string
           "high"%string "medium"%string (Some "low"%string) (Some "high"%string)
           (Some "medium"%string) "generated"%string "generated"%string
           "generated"%string 0%Z 0%Z 0%Z 0%Z 0%Z 0%Z Hr eq_refl eq_refl
           ltac:(simpl; lia))).
  right. simpl. lia.
Defined.

Lemma priority_order_stable_fifo_witness :
  reachable demoConfig threeSubmitted ∧
  StronglySorted servedBefore (queue threeSubmitted) ∧
  map handle (queue threeSubmitted) = [1; 2] ∧
  ∀ es a', run demoConfig es threeSubmitted = Some a' →
    filter (λ u, u < submitted threeSubmitted) (started (trace a'))
      `prefix_of` started (trace threeSubmitted) ++ map handle (queue threeSubmitted).
Proof.
  pose proof threeSubmitted_reachable as Hr.
  split; [exact Hr|].
  split; [exact (proj1 (priority_order_stable_fifo demoConfig threeSubmitted Hr))|].
  split; [reflexivity|].
  exact (proj1 (proj2 (proj2 (priority_order_stable_fifo demoConfig threeSubmitted Hr)))).
Defined.

(** Low, high and medium submitted and analyzed: each has had its
    callback. *)
Lemma exactly_one_callback_witness :
  run demoConfig lowHighMedium (create 0) = Some (stateAfter demoConfig lowHighMedium) ∧
  (0 < requestsPerSecond demoConfig)%Z ∧
  quiescent (stateAfter demoConfig lowHighMedium) ∧
  length (submissions demoConfig 0 lowHighMedium) = 3 ∧
  settled (trace (stateAfter demoConfig lowHighMedium))
    ≡ₚ seq 0 (length (submissions demoConfig 0 lowHighMedium)).
Proof.
  assert (run demoConfig lowHighMedium (create 0)
          = Some (stateAfter demoConfig lowHighMedium)) as Hr
    by (vm_compute; reflexivity).
  assert (0 < requestsPerSecond demoConfig)%Z as Hp by (simpl; lia).
  assert (quiescent (stateAfter demoConfig lowHighMedium)) as Hq
    by (split; vm_compute; reflexivity).
  split; [exact Hr|]. split; [exact Hp|]. split; [exact Hq|]. split; [reflexivity|].
  exact (proj1 (proj2 (proj2 (proj2
    (exactly_one_callback demoConfig 0%Z lowHighMedium _ Hr Hp)))) Hq).
Defined.

(** A priority of [NaN] is not clamped, and the unit is queued at the end;
    no number being greater than [NaN], a unit that comes later is put
    behind it whatever its priority. *)
Example nan_priority_not_clamped :
  clampPriority demoConfig NaN = NaN ∧
  map (λ x, (handle x, priority x))
      (queue (stateAfter demoConfig
                [submit "X" 0 0; Enqueue "Y"%string (Some NaN) None "generated"%string 1 1;
                 submit "Z" 2 2]))
  = [(1, NaN); (2, Finite 2)].
Proof. split; reflexivity. Qed.

(** One start per window: the four units of the scenario start in four
    windows, each at the moment its window opens. *)
Example exhausted_window_starts :
  starts slowConfig windowExhausted (create 0)
  = [ {| unitNo := 0; readAt := 0; window := 0 |};
      {| unitNo := 2; readAt := 1000; window := 1000 |};
      {| unitNo := 3; readAt := 2000; window := 2000 |};
      {| unitNo := 1; readAt := 3000; window := 3000 |} ].
Proof. vm_compute. reflexivity. Qed.

Lemma rate_window_bound_witness :
  run slowConfig windowExhausted (create 0) = Some (stateAfter slowConfig windowExhausted) ∧
  (0 ≤ requestsPerSecond slowConfig)%Z ∧
  length (starts slowConfig windowExhausted (create 0)) = 4 ∧
  (∀ w, (Z.of_nat (length (inWindow w (starts slowConfig windowExhausted (create 0))))
         ≤ requestsPerSecond slowConfig)%Z) ∧
  Forall (λ s, (readAt s - window s < 1000)%Z) (starts slowConfig windowExhausted (create 0)).
Proof.
  assert (run slowConfig windowExhausted (create 0)
          = Some (stateAfter slowConfig windowExhausted)) as Hr
    by (vm_compute; reflexivity).
  assert (0 ≤ requestsPerSecond slowConfig)%Z as Hp by (simpl; lia).
  split; [exact Hr|]. split; [exact Hp|]. split; [by vm_compute|].
  pose proof (rate_window_bound slowConfig 0%Z windowExhausted _ Hr Hp)
    as (_ & _ & _ & _ & H5 & H6 & _).
  split; [exact H5|exact H6].
Defined.

Lemma enqueue_rejects_iff_full_witness :
  reachable demoConfig threeSubmitted ∧
  (3 ∈ timers (enqueue demoConfig "late" None None "generated" 5 5 threeSubmitted) ↔
   (maxQueueSize demoConfig ≤ pendingCount threeSubmitted)%Z).
Proof.
  pose proof threeSubmitted_reachable as Hr.
  split; [exact Hr|].
  exact (proj1 (enqueue_rejects_iff_full demoConfig threeSubmitted "late"%string None None
                  "generated"%string 5%Z 5%Z Hr)).
Defined.

Lemma clear_rejects_queued_witness :
  reachable demoConfig threeSubmitted ∧
  trace (clear threeSubmitted)
    = trace threeSubmitted ++
      map (λ item, ErrorCallback (handle item) QueueCleared) (queue threeSubmitted).
Proof.
  pose proof threeSubmitted_reachable as Hr.
  split; [exact Hr|].
  exact (proj1 (clear_rejects_queued demoConfig threeSubmitted Hr)).
Defined.


(** C1 fails on the code: with room for one pending unit, [clear()] while
    X is being executed resets the counter, Y is admitted and a second
    drain loop starts it, and two units are being executed although
    [maxQueueSize] is 1.  When X then finishes the counter drops again and
    Z is admitted as well.  Called on its own, the finish of X after the
    [clear()] leaves [pendingCount] at -1. *)
Theorem capacity_exceeded_after_clear :
  maxQueueSize tightConfig = 1%Z ∧
  pendingUnits tightConfig clearWhileExecuting = Some ([], [0; 1], 1%Z) ∧
  pendingUnits tightConfig (clearWhileExecuting ++ [finish 0 100; submit "Z" 0 110])
    = Some ([], [1; 2], 1%Z) ∧
  pendingUnits tightConfig [submit "X" 0 0; Clear; finish 0 100] = Some ([], [], (-1)%Z).
Proof. repeat split. Qed.

(** C7 fails on the code: [clear()] lowers the flag [processing] while the
    drain loop that is executing X is still alive, so the next submission
    starts a second loop. *)
Theorem two_drain_loops_after_clear :
  activeDrains demoConfig clearWhileExecuting = Some 2 ∧
  activeDrains demoConfig (take 1 clearWhileExecuting) = Some 1.
Proof. split; reflexivity. Qed.

(** C10 fails on the code.  [traverse] asks [obj.hasOwnProperty(key)]
    through the object itself.  On an object with a key named
    [hasOwnProperty] that property is found instead of the method, and on
    an object without prototype nothing is found: either way the call
    throws a [TypeError], and [calculateComplexity] returns no number, on
    the object itself or on an object that contains it. *)
Theorem calculateComplexity_throws :
  calculateComplexity 7 shadowHeap (JsObject 0) = ThrowTypeError ∧
  calculateComplexity 7 bareHeap (JsObject 0) = ThrowTypeError ∧
  (¬ ∃ n, calculateComplexity 7 shadowHeap (JsObject 0) = Return n) ∧
  (¬ ∃ n, calculateComplexity 7 bareHeap (JsObject 0) = Return n) ∧
  calculateComplexity 7 nestedBareHeap (JsObject 0) = ThrowTypeError.
Proof.
  split_and!; [reflexivity|reflexivity| | |reflexivity];
    intros [n Hn]; discriminate Hn.
Qed.


(** Depth is what bounds the count: a chain of ten nested objects counts
    the six keys at depths 0 to 5. *)
Example chain_complexity : calculateComplexity 7 chainHeap (JsObject 0) = Return 6.
Proof. reflexivity. Qed.

(** ** Further scenarios *)

Lemma threeSubmitted_run :
  run demoConfig (take 3 lowHighMedium) (create 0) = Some threeSubmitted.
Proof. reflexivity. Qed.

Lemma threeSubmitted_undisturbed :
  Forall (λ e : Event string string string, e ≠ Clear) (take 3 lowHighMedium).
Proof. repeat (constructor; [discriminate|]). constructor. Qed.

Lemma asleep_run : run slowConfig (take 5 windowExhausted) (create 0) = Some asleep.
Proof. vm_compute. reflexivity. Qed.

Lemma asleep_undisturbed :
  Forall (λ e : Event string string string, e ≠ Clear) (take 5 windowExhausted).
Proof. repeat (constructor; [discriminate|]). constructor. Qed.

Lemma pending_counter_bounded_witness :
  (0 ≤ maxQueueSize demoConfig)%Z ∧
  reachable demoConfig threeSubmitted ∧
  (pendingCount threeSubmitted ≤ maxQueueSize demoConfig)%Z.
Proof.
  pose proof threeSubmitted_reachable as Hr.
  assert (0 ≤ maxQueueSize demoConfig)%Z as Hc by (simpl; lia).
  split; [exact Hc|]. split; [exact Hr|].
  exact (pending_counter_bounded demoConfig threeSubmitted Hc Hr).
Defined.

Lemma one_drain_loop_without_clear_witness :
  (0 ≤ maxQueueSize demoConfig)%Z ∧
  Forall (λ e : Event string string string, e ≠ Clear) (take 3 lowHighMedium) ∧
  run demoConfig (take 3 lowHighMedium) (create 0) = Some threeSubmitted ∧
  active (drains threeSubmitted) ≤ 1.
Proof.
  assert (0 ≤ maxQueueSize demoConfig)%Z as Hc by (simpl; lia).
  split; [exact Hc|]. split; [exact threeSubmitted_undisturbed|].
  split; [exact threeSubmitted_run|].
  exact (proj1 (one_drain_loop_without_clear demoConfig 0%Z (take 3 lowHighMedium)
                  threeSubmitted Hc threeSubmitted_undisturbed threeSubmitted_run)).
Defined.

Lemma admission_without_clear_witness :
  Forall (λ e : Event string string string, e ≠ Clear) (take 3 lowHighMedium) ∧
  run demoConfig (take 3 lowHighMedium) (create 0) = Some threeSubmitted ∧
  (3 ∈ timers (enqueue demoConfig "late" None None "generated" 5 5 threeSubmitted) ↔
   (maxQueueSize demoConfig
    ≤ Z.of_nat (length (queue threeSubmitted) + length (executing (drains threeSubmitted))))%Z).
Proof.
  split; [exact threeSubmitted_undisturbed|]. split; [exact threeSubmitted_run|].
  exact (proj1 (admission_without_clear demoConfig 0%Z (take 3 lowHighMedium)
                  threeSubmitted "late"%string None None "generated"%string 5%Z 5%Z
                  threeSubmitted_undisturbed threeSubmitted_run)).
Defined.

Lemma zero_rate_never_starts_witness :
  (requestsPerSecond stalledConfig ≤ 0)%Z ∧
  reachable stalledConfig (stateAfter stalledConfig [submit "X" 0 0]) ∧
  started (trace (stateAfter stalledConfig [submit "X" 0 0])) = [].
Proof.
  assert (requestsPerSecond stalledConfig ≤ 0)%Z as Hc by (simpl; lia).
  assert (reachable stalledConfig (stateAfter stalledConfig [submit "X" 0 0])) as Hr
    by (exists 0%Z, [submit "X" 0 0]; reflexivity).
  split; [exact Hc|]. split; [exact Hr|].
  exact (proj1 (proj2 (zero_rate_never_starts stalledConfig _ Hc Hr))).
Defined.

Lemma no_capacity_refuses_all_witness :
  (maxQueueSize closedConfig ≤ 0)%Z ∧
  reachable closedConfig (stateAfter closedConfig [submit "X" 0 0; RejectTimer]) ∧
  queue (stateAfter closedConfig [submit "X" 0 0; RejectTimer]) = [].
Proof.
  assert (maxQueueSize closedConfig ≤ 0)%Z as Hc by (simpl; lia).
  assert (reachable closedConfig (stateAfter closedConfig [submit "X" 0 0; RejectTimer]))
    as Hr by (exists 0%Z, [submit "X" 0 0; RejectTimer]; reflexivity).
  split; [exact Hc|]. split; [exact Hr|].
  exact (proj1 (no_capacity_refuses_all closedConfig _ Hc Hr)).
Defined.

Lemma throughput_bound_witness :
  (0 ≤ requestsPerSecond slowConfig)%Z ∧
  run slowConfig windowExhausted (create 0) = Some (stateAfter slowConfig windowExhausted) ∧
  (Z.of_nat (length (started (trace (stateAfter slowConfig windowExhausted))))
   ≤ requestsPerSecond slowConfig
     * (Z.of_nat (length (windows (trace (stateAfter slowConfig windowExhausted))).1) + 1))%Z.
Proof.
  assert (0 ≤ requestsPerSecond slowConfig)%Z as Hc by (simpl; lia).
  assert (run slowConfig windowExhausted (create 0)
          = Some (stateAfter slowConfig windowExhausted)) as Hr
    by (vm_compute; reflexivity).
  split; [exact Hc|]. split; [exact Hr|].
  exact (proj1 (throughput_bound slowConfig 0%Z windowExhausted _ Hc Hr)).
Defined.

Lemma drain_pass_starts_or_sleeps_witness :
  queue threeSubmitted ≠ [] ∧
  (drainLoop demoConfig 50 threeSubmitted).2 ≠ Returned.
Proof.
  assert (queue threeSubmitted ≠ []) as Hne by discriminate.
  split; [exact Hne|].
  destruct (drain_pass_starts_or_sleeps demoConfig 50%Z threeSubmitted
              (drainLoop demoConfig 50 threeSubmitted).1
              (drainLoop demoConfig 50 threeSubmitted).2 Hne eq_refl)
    as [(item & Hd & _)|(Hd & _)]; rewrite Hd; discriminate.
Defined.

Lemma sleep_ends_with_start_witness :
  (1 ≤ requestsPerSecond slowConfig)%Z ∧
  Forall (λ e : Event string string string, e ≠ Clear) (take 5 windowExhausted) ∧
  run slowConfig (take 5 windowExhausted) (create 0) = Some asleep ∧
  drains asleep !! 1 = Some (Sleeping 1000) ∧
  (1000 ≤ 1000)%Z ∧
  ∃ item rest a',
    queue asleep = item :: rest ∧
    step slowConfig (SleepTimer 1 1000) asleep = Some a' ∧
    drains a' !! 1 = Some (Executing item) ∧ queue a' = rest ∧
    requestCount a' = 1%Z ∧ lastResetTime a' = 1000%Z ∧
    trace a' = trace asleep ++ [WindowReset 1000; Started (handle item)].
Proof.
  assert (1 ≤ requestsPerSecond slowConfig)%Z as Hc by (simpl; lia).
  assert (drains asleep !! 1 = Some (Sleeping 1000)) as Hl by (vm_compute; reflexivity).
  assert (1000 ≤ 1000)%Z as Hd by lia.
  split; [exact Hc|]. split; [exact asleep_undisturbed|]. split; [exact asleep_run|].
  split; [exact Hl|]. split; [exact Hd|].
  exact (sleep_ends_with_start slowConfig 0%Z (take 5 windowExhausted) asleep 1 1000%Z
           1000%Z Hc asleep_undisturbed asleep_run Hl Hd).
Defined.

Lemma priorities_in_range_witness :
  run demoConfig (take 3 lowHighMedium) (create 0) = Some threeSubmitted ∧
  drains threeSubmitted !! 0 = Some (Executing lowItem) ∧
  ∃ dt prio given gen ts now,
    Enqueue dt prio given gen ts now ∈ take 3 lowHighMedium ∧
    lowItem = newItem demoConfig dt prio given gen ts (handle lowItem) ∧
    match default (Finite 0) prio with
    | Finite z =>
        ∃ z', priority lowItem = Finite z' ∧
              (0 ≤ z' ≤ Z.max 0 (priorityLevels demoConfig - 1))%Z ∧
              z' = Z.max 0 (Z.min z (priorityLevels demoConfig - 1)) ∧
              ((0 ≤ z ≤ priorityLevels demoConfig - 1)%Z → z' = z)
    | NaN => priority lowItem = NaN
    end.
Proof.
  assert (drains threeSubmitted !! 0 = Some (Executing lowItem)) as Hl by reflexivity.
  split; [exact threeSubmitted_run|]. split; [exact Hl|].
  exact (priorities_in_range demoConfig 0%Z (take 3 lowHighMedium) threeSubmitted lowItem
           threeSubmitted_run (or_intror (ex_intro _ 0 Hl))).
Defined.

Lemma getStatus_report_witness :
  (0 ≤ requestsPerSecond demoConfig)%Z ∧
  reachable demoConfig threeSubmitted ∧
  (0 ≤ Status.requestCount (getStatus 50 threeSubmitted) ≤ requestsPerSecond demoConfig)%Z.
Proof.
  pose proof threeSubmitted_reachable as Hr.
  assert (0 ≤ requestsPerSecond demoConfig)%Z as Hc by (simpl; lia).
  split; [exact Hc|]. split; [exact Hr|].
  exact (proj1 (getStatus_report demoConfig 50%Z threeSubmitted Hc Hr)).
Defined.


Lemma splitWhitespace_words_witness :
  Forall (λ c, isWhitespace c = false) (codeUnits "hello") ∧
  codeUnits "  " ≠ [] ∧
  Forall (λ c, isWhitespace c = true) (codeUnits "  ") ∧
  (∀ c, head (codeUnits "world") = Some c → isWhitespace c = false) ∧
  splitWhitespace (codeUnits "hello" ++ codeUnits "  " ++ codeUnits "world")
    = codeUnits "hello" :: splitWhitespace (codeUnits "world").
Proof.
  assert (Forall (λ c, isWhitespace c = false) (codeUnits "hello")) as Hw
    by (repeat constructor).
  assert (codeUnits "  " ≠ []) as Hne by discriminate.
  assert (Forall (λ c, isWhitespace c = true) (codeUnits "  ")) as Hr
    by (repeat constructor).
  assert (∀ c, head (codeUnits "world") = Some c → isWhitespace c = false) as Hs
    by (intros c [= <-]; reflexivity).
  split; [exact Hw|]. split; [exact Hne|]. split; [exact Hr|]. split; [exact Hs|].
  exact (proj1 (proj2 (splitWhitespace_words _ _ _ Hw Hne Hr Hs))).
Defined.

Lemma analyzeItem_settles_witness :
  7 ≤ 7 ∧
  analyzeItem 7 noHeap noArray 100 eventItem = Fulfilled eventResult ∧
  analyzeItem 7 noHeap noArray 100 eventItem ≠ Unsettled.
Proof.
  split; [lia|]. split; [reflexivity|].
  exact (proj1 (proj2 (analyzeItem_settles noHeap noArray 7 100%Z eventItem (le_n 7)))).
Defined.

Lemma callbacks_of_analysis_witness :
  run demoConfig eventAnalyzed (create 0)
    = Some (default (create 0) (run demoConfig eventAnalyzed (create 0))) ∧
  runsAs (analyzeItemOutcome (λ h, h = noHeap) noArray) demoConfig eventAnalyzed (create 0) ∧
  Callback 0 eventResult ∈ trace (default (create 0) (run demoConfig eventAnalyzed (create 0))) ∧
  ∀ u f, ErrorCallback u (WorkFailed f)
           ∉ trace (default (create 0) (run demoConfig eventAnalyzed (create 0))).
Proof.
  assert (run demoConfig eventAnalyzed (create 0)
          = Some (default (create 0) (run demoConfig eventAnalyzed (create 0)))) as Hr
    by (vm_compute; reflexivity).
  assert (runsAs (analyzeItemOutcome (λ h, h = noHeap) noArray) demoConfig eventAnalyzed
            (create 0)) as Hw.
  { simpl. split; [done|]. split; [|done]. eexists. split; [reflexivity|].
    exists noHeap, noHeap, 100%Z. split; [reflexivity|]. split; reflexivity. }
  split; [exact Hr|]. split; [exact Hw|]. split.
  - apply (list_elem_of_lookup_2 _ 1). vm_compute. reflexivity.
  - apply (proj2 (proj2 (callbacks_of_analysis demoConfig (λ h, h = noHeap) noArray 0%Z
                           eventAnalyzed _ Hr Hw))).
    intros h -> r. reflexivity.
Defined.
